(** * pdb-crawler: sampler, fetch engine, identifier source and run-all loop

    A shallow embedding of the Python package [pdb_crawler]
    ([sampling.py], [downloader.py], [rcsb_client.py], [__main__.py]) and the
    properties of its specification that are settled against it.

    Conventions of the embedding:
    - Python [float] is IEEE 754 binary64, taken from the reference
      semantics [SpecFloat] of the Standard Library (precision 53, emax 1024);
    - Python lists that are mutated in place live in a heap of list objects;
    - a [str] is the string of its code points, for text within
      U+0000..U+00FF; a [bytes] value is the string of its bytes;
    - the network and the file system are explicit inputs (an oracle of
      responses, a finite map from paths to file contents); a file is
      named by its path as [pathlib] (POSIX flavour) renders it, links and
      [".."] are not resolved, and a text file is held as its text;
    - runs are those of a file system that accepts what the code asks of
      it: [mkdir], [open] and [write] do not fail (an [OSError] would
      leave [_download_one] and, through [gather], [download_entries]);
    - runs are those in which the back-off delay can be computed:
      [backoff_base * (2 ** attempt)] raises [OverflowError] once
      [attempt] reaches 1024, which takes a retry budget of 1024 or more;
    - callbacks ([on_event], [on_page]) are modelled by the ordered list of
      the values they are called with;
    - waiting ([asyncio.sleep], back-off delays, elapsed time) is not
      modelled: no property below depends on it. *)

From Stdlib Require Import ZArith NArith Ascii Floats.SpecFloat.
From stdpp Require Import gmap strings list pretty.

Open Scope Z_scope.

(** ** Python values and built-ins used by the package *)

Module Py.

(** Exceptions raised by the modelled code. *)
Inductive exn :=
| ValueError (msg : string)
| RuntimeError (msg : string)
| OverflowError
| AttributeError
| TypeError
| ClientError (kind : string).

(** Outcome of a call: a value, or an exception that propagates. *)
Inductive result (A : Type) :=
| Ok (a : A)
| Raise (e : exn).
Arguments Ok {A} a.
Arguments Raise {A} e.

(** [float]: binary64. *)
Abbreviation float := spec_float.
Definition prec : Z := 53.
Definition emax : Z := 1024.

(** [float(n)] and the implicit conversion in [n * x], for an [int] [n]. *)
Definition float_of_int (n : Z) : float := binary_normalize prec emax n 0 false.

Definition fmul : float → float → float := SFmul prec emax.
Definition fdiv : float → float → float := SFdiv prec emax.
Definition flt : float → float → bool := SFltb.
Definition fle : float → float → bool := SFleb.

Definition f0 : float := S754_zero false.
Definition f100 : float := Eval cbv in float_of_int 100.

(** Built-in [min(a, b)] and [max(a, b)] on two arguments: the first
    argument is kept unless the second is strictly smaller (larger). *)
Definition fmin (a b : float) : float := if flt b a then b else a.
Definition fmax (a b : float) : float := if flt a b then b else a.

(** [math.floor(x)]: the exact integer floor of a finite float; raises on
    NaN ([ValueError]) and on infinities ([OverflowError]). *)
Definition math_floor (x : float) : result Z :=
  match x with
  | S754_zero _ => Ok 0
  | S754_finite s m e =>
      let v := if s then Z.neg m else Z.pos m in
      Ok (if 0 <=? e then v * 2 ^ e else v `div` 2 ^ (- e))
  | S754_infinity _ => Raise OverflowError
  | S754_nan => Raise (ValueError "cannot convert float NaN to integer")
  end.

(** A [str] is the string of its code points, for text within
    U+0000..U+00FF; a [bytes] value is the string of its bytes.

    [str.lower()]: the upper-case letters of that range are A..Z and
    U+00C0..U+00DE without the multiplication sign U+00D7. *)
Definition lower_ascii (c : ascii) : ascii :=
  let n := N_of_ascii c in
  if (((65 <=? n) && (n <=? 90))
      || ((192 <=? n) && (n <=? 222) && negb (n =? 215)))%N
  then ascii_of_N (n + 32) else c.

Fixpoint lower (s : string) : string :=
  match s with
  | EmptyString => EmptyString
  | String c s' => String (lower_ascii c) (lower s')
  end.

(** [str.isspace()] on one character: U+0009..U+000D, U+001C..U+0020,
    U+0085 and U+00A0 are the white space of that range. *)
Definition isspace (c : ascii) : bool :=
  let n := N_of_ascii c in
  (((9 <=? n) && (n <=? 13)) || ((28 <=? n) && (n <=? 32))
   || (n =? 133) || (n =? 160))%N.

Fixpoint lstrip (s : string) : string :=
  match s with
  | EmptyString => EmptyString
  | String c s' => if isspace c then lstrip s' else s
  end.

Definition strip (s : string) : string :=
  String.rev (lstrip (String.rev (lstrip s))).

(** Truth value of a string: non-empty. *)
Definition nonempty (s : string) : bool :=
  match s with EmptyString => false | _ => true end.

(** [s.split(sep)] for a separator of one character: the pieces between
    the separators, empty pieces included; one empty piece for the empty
    string. *)
Fixpoint split (sep : ascii) (s : string) : list string :=
  match s with
  | EmptyString => [EmptyString]
  | String c s' =>
      if bool_decide (c = sep) then EmptyString :: split sep s'
      else match split sep s' with
           | piece :: pieces => String c piece :: pieces
           | [] => [String c EmptyString]
           end
  end.

(** *** [pathlib], POSIX flavour

    A path is parsed into its root and its parts: the root is ["//"] for
    exactly two leading slashes, ["/"] for one or for three and more, and
    empty otherwise; the parts are the pieces between slashes, without the
    empty ones and without ["."] (but with [".."], which is kept). *)
Definition path_root (p : string) : string :=
  match p with
  | String "/" (String "/" (String "/" _)) => "/"
  | String "/" (String "/" _) => "//"
  | String "/" _ => "/"
  | _ => ""
  end.

Definition path_parts (p : string) : list string :=
  filter (λ x, x ≠ "" ∧ x ≠ ".") (split "/" p).

(** [str(path)] for a path given by its root and parts. *)
Definition path_str (root : string) (parts : list string) : string :=
  if bool_decide (root = "" ∧ parts = []) then "."
  else root +:+ String.concat "/" parts.

(** [str(Path(dir) / name)]: a [name] that is absolute replaces [dir];
    otherwise its parts follow those of [dir]. *)
Definition path_join (dir name : string) : string :=
  if bool_decide (path_root name = "")
  then path_str (path_root dir) (path_parts dir ++ path_parts name)
  else path_str (path_root name) (path_parts name).

End Py.

Import Py.

(** ** [random]: generators and [shuffle] *)

Module PyRandom.

(** A generator object: [random.Random(seed)], or [random.SystemRandom()]
    reading operating-system entropy (the [nat] stands for the state of
    that entropy source when the generator is used). *)
Inductive generator :=
| Random (seed : Z)
| SystemRandom (ω : nat).

(** The pseudo-random number source behind [shuffle]: [randbelow g c n] is
    the value of the [c]-th call of [g._randbelow], asked for a number
    below [n]. *)
Class RandomSource := {
  randbelow : generator → nat → nat → nat;
  randbelow_lt : ∀ g c n, (0 < n)%nat → (randbelow g c n < n)%nat
}.

(** [x[i], x[j] = x[j], x[i]] *)
Definition swap {A} (i j : nat) (x : list A) : list A :=
  match x !! i, x !! j with
  | Some a, Some b => <[j := a]> (<[i := b]> x)
  | _, _ => x
  end.

Section Shuffle.
Context `{RandomSource} {A : Type}.

(** The loop of [Random.shuffle]:
    [for i in reversed(range(1, len(x))): j = randbelow(i + 1); swap]. *)
Fixpoint shuffle_loop (g : generator) (calls i : nat) (x : list A) : list A :=
  match i with
  | O => x
  | S i' => shuffle_loop g (S calls) i' (swap i (randbelow g calls (S i)) x)
  end.

Definition shuffle (g : generator) (x : list A) : list A :=
  shuffle_loop g 0 (length x - 1) x.

End Shuffle.

(** [random.Random(seed) if seed is not None else random.SystemRandom()];
    [ω] is the entropy the system generator reads. *)
Definition make_rng (seed : option Z) (ω : nat) : generator :=
  match seed with
  | Some s => Random s
  | None => SystemRandom ω
  end.

(** A concrete source: a linear congruential generator started from the
    seed (or from the entropy), reduced below the bound. *)
Definition lcg (g : generator) (calls : nat) : Z :=
  let s := match g with
           | Random seed => Z.abs seed
           | SystemRandom ω => Z.of_nat ω
           end in
  ((s + Z.of_nat calls) * 1103515245 + 12345) `mod` 2147483648.

Definition lcg_below (g : generator) (calls n : nat) : nat :=
  Z.to_nat (lcg g calls `mod` Z.of_nat n).

End PyRandom.

Import PyRandom.

(** ** [sampling.py] *)

Module Sampling.

(** List objects are mutable and passed by reference: a heap of list
    objects, addressed by locations. *)
Abbreviation loc := positive.
Abbreviation heap := (gmap positive (list string)).

(** A list display or a copy allocates a new object. *)
Definition new_list (l : list string) (σ : heap) : loc * heap :=
  let r := fresh (dom σ) in (r, <[r := l]> σ).

Section WithRandom.
Context `{RandomSource}.

(** [rng.shuffle(pool)]: shuffles the object [pool] in place. *)
Definition shuffle_in_place (g : generator) (pool : loc) (σ : heap) : heap :=
  match σ !! pool with
  | Some l => <[pool := shuffle g l]> σ
  | None => σ
  end.

(** [pool[:k]]: a new list holding the first [k] elements. *)
Definition slice_to (pool : loc) (k : Z) (σ : heap) : loc * heap :=
  new_list (take (Z.to_nat k) (default [] (σ !! pool))) σ.

(** [p = max(0.0, min(100.0, float(percent)))] *)
Definition clamp_percent (percent : float) : float :=
  fmax f0 (fmin f100 percent).

(** [k = math.floor(n * (p / 100.0)); k = max(1, min(n, k))] *)
Definition sample_size (n : Z) (p : float) : result Z :=
  match math_floor (fmul (float_of_int n) (fdiv p f100)) with
  | Ok k => Ok (Z.max 1 (Z.min n k))
  | Raise e => Raise e
  end.

(** [sample_ids(ids, percent, seed)]; [ids] is the reference the caller
    passes, [ω] the entropy read by [SystemRandom] when no seed is given.
    Returns the outcome and the heap after the call. (A reference to no
    object cannot be passed in Python; it is answered by [TypeError].) *)
Definition sample_ids (ids : loc) (percent : float) (seed : option Z)
    (ω : nat) (σ : heap) : result loc * heap :=
  match σ !! ids with
  | None => (Raise TypeError, σ)
  | Some l =>
      if bool_decide (l = []) then
        let '(r, σ') := new_list [] σ in (Ok r, σ')
      else
        let p := clamp_percent percent in
        if fle p f0 then
          let '(r, σ') := new_list [] σ in (Ok r, σ')
        else
          let n := Z.of_nat (length l) in
          match sample_size n p with
          | Raise e => (Raise e, σ)
          | Ok k =>
              let '(pool, σ1) := new_list l σ in
              let rng := make_rng seed ω in
              let σ2 := shuffle_in_place rng pool σ1 in
              let '(r, σ3) := slice_to pool k σ2 in
              (Ok r, σ3)
          end
  end.

(** The value returned, read back from the final heap. *)
Definition returned (o : result loc * heap) : option (list string) :=
  match o.1 with
  | Ok r => o.2 !! r
  | Raise _ => None
  end.

End WithRandom.

(** The length the specification promises:
    [max(1, min(n, floor(n * percent / 100)))], in exact arithmetic, for an
    integral percentage. *)
Definition spec_length (n percent : Z) : Z :=
  Z.max 1 (Z.min n ((n * percent) `div` 100)).

(** A list of [n] pairwise distinct identifiers. *)
Definition distinct_ids (n : nat) : list string :=
  (λ i, pretty i) <$> seq 0 n.

End Sampling.

(** ** Structured events

    The dictionaries handed to [emit] and [on_event], one constructor per
    value of the key ["event"]. Fields that read the clock ([elapsed_ms])
    or repeat a setting (the [reason] of [download_skip], the [concurrency]
    of [download_start]) are left out. *)

Module Events.

Inductive event :=
| download_skip (id path : string)
| download_ok (id path : string) (size_bytes : nat) (attempts : Z)
| download_error (id path : string) (status : option Z) (reason : string)
                 (attempts : Z)
| download_start (count : nat) (out_dir format : string)
| attempt_exhausted (attempted success target : nat)
| attempt_topup (added attempt_total : nat)
| download_summary (success target : nat) (out_dir : string)
| enumerate_page (page start rows total : Z).

(** [ev.get("event")] *)
Definition event_name (ev : event) : string :=
  match ev with
  | download_skip _ _ => "download_skip"
  | download_ok _ _ _ _ => "download_ok"
  | download_error _ _ _ _ _ => "download_error"
  | download_start _ _ _ => "download_start"
  | attempt_exhausted _ _ _ => "attempt_exhausted"
  | attempt_topup _ _ => "attempt_topup"
  | download_summary _ _ _ => "download_summary"
  | enumerate_page _ _ _ _ => "enumerate_page"
  end.

(** Number of events of a given kind in a log. *)
Definition count_named (name : string) (log : list event) : nat :=
  length (filter (λ ev, event_name ev = name) log).

End Events.

Import Events.

(** ** [downloader.py] *)

Module Downloader.

Definition DOWNLOAD_BASE : string := "https://files.rcsb.org/download".

(** [DownloadConfig]. The fields [timeout_seconds], [backoff_base],
    [backoff_max] and [initial_jitter_max] only set delays and are left
    out. *)
Record DownloadConfig := {
  base_url : string;
  max_retries : Z
}.

Definition default_config : DownloadConfig :=
  {| base_url := DOWNLOAD_BASE; max_retries := 5 |}.

(** What one [session.get(url)] leads to: a response with its status and
    body, or an [aiohttp.ClientError] / [asyncio.TimeoutError] raised inside
    the [try] block ([kind] is [type(e).__name__]). *)
Inductive response :=
| Response (status : Z) (data : string)
| Failure (kind : string).

(** The file system: path to content. *)
Abbreviation filesystem := (gmap string string).

(** Everything the engine acts on: the files, the events handed to
    [on_event] so far, and the URLs requested so far (one entry per GET). *)
Record world := {
  files : filesystem;
  events : list event;
  requests : list string
}.

(** [on_event(ev)] if a callback was given ([on_event is not None]). *)
Definition notify (on_event : bool) (ev : event) (w : world) : world :=
  if on_event
  then {| files := files w; events := events w ++ [ev]; requests := requests w |}
  else w.

Definition get (url : string) (w : world) : world :=
  {| files := files w; events := events w; requests := requests w ++ [url] |}.

(** [target.parent.mkdir(parents=True, exist_ok=True)],
    [aiofiles.open(target, "wb")] and [f.write(data)], on a file system
    that accepts them. *)
Definition write (target data : string) (w : world) : world :=
  {| files := <[target := data]> (files w); events := events w;
     requests := requests w |}.

(** [target.exists() and target.stat().st_size > 0] *)
Definition exists_nonempty (fs : filesystem) (target : string) : bool :=
  match fs !! target with
  | Some data => nonempty data
  | None => false
  end.

Section DownloadOne.
Variables (out_dir : string) (file_format : string) (cfg : DownloadConfig)
          (on_event : bool).

Definition ext : string :=
  if bool_decide (lower file_format = "cif") then "cif" else "pdb".

Definition url_of (entry_id : string) : string :=
  base_url cfg +:+ "/" +:+ entry_id +:+ "." +:+ ext.

(** [target = out_dir / f"{entry_id}.{ext}"], as [str(target)]: the path
    handed to the file system and reported in the events. *)
Definition target_of (entry_id : string) : string :=
  path_join out_dir (entry_id +:+ "." +:+ ext).

(** First part of [_download_one], up to the semaphore: skip if the
    target exists. [Some target] is the value returned; [None] means the
    task goes on to the network. *)
Definition skip_if_exists (entry_id : string) (w : world)
    : option string * world :=
  let target := target_of entry_id in
  if exists_nonempty (files w) target
  then (Some target, notify on_event (download_skip entry_id target) w)
  else (None, w).

(** The [while True] loop of [_download_one]. [net k] is what the
    [k]-th GET of this task leads to; [attempt] grows by one with every
    retry, so the GET issued at [attempt] is number [attempt]. The delays
    between attempts are not part of the state; they can be computed as
    long as [attempt] stays below 1024. [None]: out of fuel. *)
Fixpoint attempt_loop (entry_id : string) (net : nat → response)
    (fuel : nat) (attempt : Z) (w : world) : option (option string * world) :=
  match fuel with
  | O => None
  | S fuel' =>
      let target := target_of entry_id in
      let w := get (url_of entry_id) w in
      match net (Z.to_nat attempt) with
      | Response status data =>
          if status =? 200 then
            Some (Some target,
                  notify on_event
                    (download_ok entry_id target (String.length data) (attempt + 1))
                    (write target data w))
          else if status =? 429 then
            let attempt := attempt + 1 in
            if attempt >? max_retries cfg then
              Some (None,
                    notify on_event
                      (download_error entry_id target (Some status)
                         "rate_limited" attempt) w)
            else attempt_loop entry_id net fuel' attempt w
          else if (500 <=? status) && (status <? 600) then
            let attempt := attempt + 1 in
            if attempt >? max_retries cfg then
              Some (None,
                    notify on_event
                      (download_error entry_id target (Some status)
                         "server_error" attempt) w)
            else attempt_loop entry_id net fuel' attempt w
          else
            Some (None,
                  notify on_event
                    (download_error entry_id target (Some status)
                       "client_error" (attempt + 1)) w)
      | Failure kind =>
          if attempt >=? max_retries cfg then
            Some (None,
                  notify on_event
                    (download_error entry_id target None kind (attempt + 1)) w)
          else attempt_loop entry_id net fuel' (attempt + 1) w
      end
  end.

(** Second part of [_download_one]: the body of [async with sem]. The
    loop issues at most [max_retries + 1] requests. *)
Definition fetch (entry_id : string) (net : nat → response) (w : world)
    : option string * world :=
  default (None, w)
    (attempt_loop entry_id net (S (Z.to_nat (max_retries cfg))) 0 w).

Definition _download_one (entry_id : string) (net : nat → response)
    (w : world) : option string * world :=
  match skip_if_exists entry_id w with
  | (Some target, w') => (Some target, w')
  | (None, w') => fetch entry_id net w'
  end.

(** [asyncio.gather] over the tasks created in list order. Every task
    first runs, without suspending, up to its first network wait, so all
    existence checks come before any response arrives; the tasks are then
    completed, here in list order (the real interleaving of their
    events is up to the scheduler). [net t] is the oracle of task [t]. *)
Fixpoint start_all (ids : list string) (w : world)
    : list (string * option string) * world :=
  match ids with
  | [] => ([], w)
  | eid :: ids' =>
      let '(r, w1) := skip_if_exists eid w in
      let '(rs, w2) := start_all ids' w1 in
      ((eid, r) :: rs, w2)
  end.

Fixpoint finish_all (tasks : list (string * option string)) (t : nat)
    (net : nat → nat → response) (w : world) : list (option string) * world :=
  match tasks with
  | [] => ([], w)
  | (eid, Some target) :: tasks' =>
      let '(rs, w1) := finish_all tasks' (S t) net w in
      (Some target :: rs, w1)
  | (eid, None) :: tasks' =>
      let '(r, w1) := fetch eid (net t) w in
      let '(rs, w2) := finish_all tasks' (S t) net w1 in
      (r :: rs, w2)
  end.

Definition gather (ids : list string) (net : nat → nat → response)
    (w : world) : list (option string) * world :=
  let '(tasks, w1) := start_all ids w in
  finish_all tasks 0 net w1.

End DownloadOne.

(** [[i.strip() for i in entry_ids if i and i.strip()]] *)
Definition clean_ids (entry_ids : list string) : list string :=
  strip <$> filter (λ i, nonempty i && nonempty (strip i)) entry_ids.

(** [download_entries]. The concurrency limit bounds how many tasks are in
    flight at once, not what each of them does, and is not a parameter
    here; [cfg = None] stands for the default configuration. *)
Definition download_entries (entry_ids : list string) (out_dir : string)
    (file_format : string) (cfg : option DownloadConfig) (on_event : bool)
    (net : nat → nat → response) (w : world)
    : result (list string) * world :=
  let ids := clean_ids entry_ids in
  if bool_decide (ids = []) then (Ok [], w)
  else
    let fmt := lower file_format in
    if bool_decide (fmt ∈ ["cif"; "pdb"]) then
      let cfg := default default_config cfg in
      let '(results, w') := gather out_dir fmt cfg on_event ids net w in
      (Ok (omap id results), w')
    else (Raise (ValueError "file_format must be 'cif' or 'pdb'"), w).

End Downloader.

(** ** [rcsb_client.py] *)

Module RcsbClient.

(** Parsed JSON, as [json.load] and [resp.json()] return it. An object is
    the list of its items; [dict.get] takes the first item with the key. *)
#[local] Unset Elimination Schemes.
Inductive json :=
| JNull
| JBool (b : bool)
| JInt (n : Z)
| JFloat (x : float)
| JStr (s : string)
| JArr (items : list json)
| JObj (fields : list (string * json)).
#[local] Set Elimination Schemes.

(** Truth value, as [or] and [not] test it. *)
Definition truthy (j : json) : bool :=
  match j with
  | JNull => false
  | JBool b => b
  | JInt n => negb (n =? 0)
  | JFloat (S754_zero _) => false
  | JFloat _ => true
  | JStr s => nonempty s
  | JArr items => match items with [] => false | _ => true end
  | JObj fields => match fields with [] => false | _ => true end
  end.

(** [a or b] on values already computed. *)
Definition or_else (a b : json) : json := if truthy a then a else b.

Definition lookup_field (key : string) (fields : list (string * json)) : json :=
  match find (λ kv, bool_decide (kv.1 = key)) fields with
  | Some kv => kv.2
  | None => JNull
  end.

(** [j.get(key)]: only a [dict] has the method. *)
Definition get (key : string) (j : json) : result json :=
  match j with
  | JObj fields => Ok (lookup_field key fields)
  | _ => Raise AttributeError
  end.

(** [RCSBClientConfig], without the fields that only set delays. *)
Record RCSBClientConfig := {
  base_search_url : string;
  max_retries : Z
}.

(** What one [session.post] leads to: a response with its status and the
    outcome of [resp.json()], or an [aiohttp.ClientError] /
    [asyncio.TimeoutError] raised by the request. *)
Inductive reply :=
| Reply (status : Z) (body : result json)
| Failed (kind : string).

(** The pagination options written into the query template. *)
Record payload := { start : Z; rows : Z }.

(** What an enumeration does, in order: calls of [on_page], POST requests
    (with what each led to) and identifiers yielded to the consumer. *)
Inductive action :=
| on_page_call (start rows page_number total : Z)
| post (p : payload) (r : reply)
| yield (ident : string).

Section Client.
Variable config : RCSBClientConfig.

(** The [while True] loop of [_post_with_retry]; [net k] is what the
    [k]-th POST of this call leads to. Reading the error text of a failed
    response is taken to succeed. [None]: out of fuel. *)
Fixpoint post_loop (p : payload) (net : nat → reply) (fuel : nat)
    (attempt : Z) (tr : list action) : option (result json * list action) :=
  match fuel with
  | O => None
  | S fuel' =>
      let r := net (Z.to_nat attempt) in
      let tr := tr ++ [post p r] in
      (* the [except (aiohttp.ClientError, asyncio.TimeoutError)] clause *)
      let handler (kind : string) :=
        if attempt >=? max_retries config
        then Some (Raise (ClientError kind), tr)
        else post_loop p net fuel' (attempt + 1) tr in
      match r with
      | Reply status body =>
          if status =? 200 then
            match body with
            | Ok data => Some (Ok data, tr)
            | Raise (ClientError kind) => handler kind
            | Raise e => Some (Raise e, tr)
            end
          else if status =? 429 then
            let attempt := attempt + 1 in
            if attempt >? max_retries config
            then Some (Raise (RuntimeError
                         "RCSB search API rate-limited (429) after retries"), tr)
            else post_loop p net fuel' attempt tr
          else if (500 <=? status) && (status <? 600) then
            handler "ClientResponseError"
          else Some (Raise (RuntimeError "RCSB search API error"), tr)
      | Failed kind => handler kind
      end
  end.

(** [_post_with_retry]: at most [max_retries + 1] requests. *)
Definition _post_with_retry (p : payload) (net : nat → reply)
    (tr : list action) : result json * list action :=
  default (Raise (RuntimeError "unreachable"), tr)
    (post_loop p net (S (Z.to_nat (max_retries config))) 0 tr).

(** [data.get("result_set") or data.get("resultSet") or []] *)
Definition result_set_of (data : json) : result json :=
  match data with
  | JObj fields =>
      Ok (or_else (lookup_field "result_set" fields)
            (or_else (lookup_field "resultSet" fields) (JArr [])))
  | _ => Raise AttributeError
  end.

(** [item.get("identifier") or item.get("entry_id") or item.get("id")],
    then [isinstance(ident, str)]: [Ok (Some s)] yields [s],
    [Ok None] skips the record. *)
Definition extract (item : json) : result (option string) :=
  match item with
  | JObj fields =>
      let ident := or_else (lookup_field "identifier" fields)
                     (or_else (lookup_field "entry_id" fields)
                        (lookup_field "id" fields)) in
      Ok (match ident with JStr s => Some s | _ => None end)
  | _ => Raise AttributeError
  end.

(** [for item in result_set: ...] over the items of an array. *)
Fixpoint yield_items (items : list json) (tr : list action)
    : result unit * list action :=
  match items with
  | [] => (Ok (), tr)
  | item :: items' =>
      match extract item with
      | Raise e => (Raise e, tr)
      | Ok (Some ident) => yield_items items' (tr ++ [yield ident])
      | Ok None => yield_items items' tr
      end
  end.

(** The same loop over any truthy [result_set]: iterating an object or a
    string gives strings, which have no [get]; other values are not
    iterable. *)
Definition yield_from (result_set : json) (tr : list action)
    : result unit * list action :=
  match result_set with
  | JArr items => yield_items items tr
  | JObj _ | JStr _ => (Raise AttributeError, tr)
  | _ => (Raise TypeError, tr)
  end.

Section Enumerate.
Variables (page_size : Z) (on_page : bool) (total : Z)
          (net : Z → nat → reply).

(** The [while start < total] loop; [net s] is the oracle of the page
    starting at [s]. [None]: out of fuel. *)
Fixpoint page_loop (fuel : nat) (start : Z) (tr : list action)
    : option (result unit * list action) :=
  match fuel with
  | O => None
  | S fuel' =>
      if start <? total then
        let page_number := start `div` page_size + 1 in
        let rows := Z.min page_size (total - start) in
        let tr := if on_page
                  then tr ++ [on_page_call start rows page_number total]
                  else tr in
        match _post_with_retry {| start := start; rows := rows |}
                (net start) tr with
        | (Raise e, tr) => Some (Raise e, tr)
        | (Ok data, tr) =>
            match result_set_of data with
            | Raise e => Some (Raise e, tr)
            | Ok result_set =>
                if truthy result_set then
                  match yield_from result_set tr with
                  | (Raise e, tr) => Some (Raise e, tr)
                  | (Ok _, tr) => page_loop fuel' (start + page_size) tr
                  end
                else Some (Ok (), tr)
            end
        end
      else Some (Ok (), tr)
  end.
End Enumerate.

(** [enumerate_entry_ids(page_size, on_page)], run to the end by its
    consumer. [count] is the outcome of [self.count_entries()]; the
    requests of that call are not part of the trace. With
    [page_size >= 1] the loop runs at most [total] times. *)
Definition enumerate_entry_ids (page_size : Z) (on_page : bool)
    (count : result Z) (net : Z → nat → reply)
    : result unit * list action :=
  if page_size <=? 0 then (Raise (ValueError "page_size must be positive"), [])
  else
    match count with
    | Raise e => (Raise e, [])
    | Ok total =>
        default (Raise (RuntimeError "unreachable"), [])
          (page_loop page_size on_page total net (S (Z.to_nat total)) 0 [])
    end.

End Client.

End RcsbClient.

(** ** [__main__.py]: the download loop of [run_all] *)

Module Main.
Import Downloader.

(** The variables of [_run] that the loop reads and writes, with the
    world it acts on: [log] is what [emit] has printed and logged,
    [attempt_file] the identifiers last written to [attempt_ids.txt]. *)
Record loop_state := {
  attempt_order : list string;
  idx : nat;
  success_count : nat;
  attempted_set : gset string;
  attempt_file : list string;
  fs : filesystem;
  log : list event;
  sent : list string
}.

Definition emit (ev : event) (st : loop_state) : loop_state :=
  {| attempt_order := attempt_order st; idx := idx st;
     success_count := success_count st; attempted_set := attempted_set st;
     attempt_file := attempt_file st; fs := fs st;
     log := log st ++ [ev]; sent := sent st |}.

(** The closure [on_event]: emit, and count [download_ok] and
    [download_skip] into the non-local [success_count]. *)
Definition on_event (ev : event) (st : loop_state) : loop_state :=
  let st := emit ev st in
  if bool_decide (event_name ev ∈ ["download_ok"; "download_skip"])
  then {| attempt_order := attempt_order st; idx := idx st;
          success_count := S (success_count st);
          attempted_set := attempted_set st;
          attempt_file := attempt_file st; fs := fs st;
          log := log st; sent := sent st |}
  else st.

(** How one pass through the loop body ends. *)
Inductive flow :=
| Continue (st : loop_state)
| Break (st : loop_state)
| Abort (e : exn) (st : loop_state).

Section RunAll.
Context `{RandomSource}.
Variables (all_ids : list string) (success_target : nat)
          (seed : option Z) (out_dir format : string).
(** [out_dir] is [str(out_path)], the output directory as the loop prints
    it and hands it to [download_entries];
    [ω i]: entropy read by [SystemRandom] in pass [i];
    [net i t k]: what the [k]-th GET of task [t] of the batch of pass [i]
    leads to. *)
Variables (ω : nat → nat) (net : nat → nat → nat → response).

(** The top-up branch after the pool was found non-empty. *)
Definition top_up (pass : nat) (remaining_pool : list string)
    (st : loop_state) : loop_state :=
  let remaining_needed := (success_target - success_count st)%nat in
  let rng := make_rng seed (ω pass) in
  let remaining_pool := shuffle rng remaining_pool in
  let topup := take remaining_needed remaining_pool in
  let attempt_order' := attempt_order st ++ topup in
  emit (attempt_topup (length topup) (length attempt_order'))
    {| attempt_order := attempt_order';
       idx := idx st;
       success_count := success_count st;
       attempted_set := attempted_set st ∪ list_to_set topup;
       attempt_file := attempt_order';
       fs := fs st; log := log st; sent := sent st |}.

(** The batch the loop body hands to [download_entries]. *)
Definition batch_of (st : loop_state) : list string :=
  let remaining_needed := (success_target - success_count st)%nat in
  let remaining_queue := drop (idx st) (attempt_order st) in
  take remaining_needed remaining_queue.

(** [download_entries(batch, ..., on_event=on_event)] and
    [idx += len(batch)]. *)
Definition download_batch (pass : nat) (st : loop_state) : flow :=
  let batch := batch_of st in
  let st := emit (download_start (length batch) out_dir format) st in
  let w := {| files := fs st; events := []; requests := sent st |} in
  match download_entries batch out_dir format None true (net pass) w with
  | (Raise e, _) => Abort e st
  | (Ok _, w') =>
      let st := foldl (λ st ev, on_event ev st)
                  {| attempt_order := attempt_order st; idx := idx st;
                     success_count := success_count st;
                     attempted_set := attempted_set st;
                     attempt_file := attempt_file st;
                     fs := files w'; log := log st;
                     sent := requests w' |}
                  (events w') in
      Continue
        {| attempt_order := attempt_order st;
           idx := (idx st + length batch)%nat;
           success_count := success_count st;
           attempted_set := attempted_set st;
           attempt_file := attempt_file st;
           fs := fs st; log := log st; sent := sent st |}
  end.

(** One pass through the body of [while success_count < success_target]. *)
Definition loop_body (pass : nat) (st : loop_state) : flow :=
  let remaining_queue := drop (idx st) (attempt_order st) in
  if bool_decide (remaining_queue = []) then
    let remaining_pool := filter (λ e, e ∉ attempted_set st) all_ids in
    if bool_decide (remaining_pool = []) then
      Break (emit (attempt_exhausted (length (attempt_order st))
                     (success_count st) success_target) st)
    else download_batch pass (top_up pass remaining_pool st)
  else download_batch pass st.

(** How the loop is left: the condition became false, [break], or an
    exception of [download_entries]. *)
Inductive exit := Done | Exhausted | Raised (e : exn).

(** The [while] loop, from pass number [pass]. [None]: out of fuel. *)
Fixpoint download_loop (fuel : nat) (pass : nat) (st : loop_state)
    : option (exit * loop_state) :=
  match fuel with
  | O => None
  | S fuel' =>
      if bool_decide (success_count st < success_target)%nat then
        match loop_body pass st with
        | Continue st' => download_loop fuel' (S pass) st'
        | Break st' => Some (Exhausted, st')
        | Abort e st' => Some (Raised e, st')
        end
      else Some (Done, st)
  end.

(** The state in which the loop is entered:
    [success_count = 0], [idx = 0], [attempted_set = set(attempt_order)]. *)
Definition initial (attempt_order : list string) (files : filesystem)
    (log : list event) : loop_state :=
  {| attempt_order := attempt_order; idx := 0; success_count := 0;
     attempted_set := list_to_set attempt_order;
     attempt_file := attempt_order; fs := files; log := log; sent := [] |}.

(** States the loop can be in at the head of a pass. *)
Inductive reaches : nat → loop_state → nat → loop_state → Prop :=
| reaches_here pass st : reaches pass st pass st
| reaches_next pass st st' pass'' st'' :
    (success_count st < success_target)%nat →
    loop_body pass st = Continue st' →
    reaches (S pass) st' pass'' st'' →
    reaches pass st pass'' st''.

(** Passes enough for the loop to end from [st]: every pass that
    continues uses up a queued identifier or an unattempted one. *)
Definition passes_left (st : loop_state) : nat :=
  (length (filter (λ e, e ∉ attempted_set st) all_ids)
   + (length (attempt_order st) - idx st))%nat.

End RunAll.

End Main.

(** ** [__main__.py]: the identifier files *)

Module IdsFile.
Import Downloader.

Definition newline : ascii := "010"%char.
Definition comma : ascii := ","%char.

(** [text.replace("\n", ",")] *)
Fixpoint replace_newlines (text : string) : string :=
  match text with
  | EmptyString => EmptyString
  | String c text' =>
      String (if bool_decide (c = newline) then comma else c)
        (replace_newlines text')
  end.

(** [path.read_text(encoding="utf-8")] opens the file in text mode with
    universal newlines: a carriage return followed by a line feed, and a
    carriage return on its own, are read as one line feed. *)
Definition cr : ascii := "013"%char.

Fixpoint universal_newlines (text : string) : string :=
  match text with
  | EmptyString => EmptyString
  | String c text' =>
      if bool_decide (c = cr) then
        String newline
          match text' with
          | String d text'' =>
              if bool_decide (d = newline) then universal_newlines text''
              else universal_newlines text'
          | EmptyString => EmptyString
          end
      else String c (universal_newlines text')
  end.

(** The body of [_read_ids_file], on the content of the file:
    [text = path.read_text(encoding="utf-8")],
    [raw = [token.strip() for token in text.replace("\n", ",").split(",")]]
    and [[r for r in raw if r]]. *)
Definition read_ids (content : string) : list string :=
  let text := universal_newlines content in
  let raw := strip <$> split comma (replace_newlines text) in
  filter (λ r, nonempty r) raw.

(** [_read_ids_file(path)]; [None] when there is no such file
    ([read_text] raises). *)
Definition _read_ids_file (path : string) (fs : filesystem)
    : option (list string) :=
  read_ids <$> fs !! path.

(** [_write_ids_file(path, ids)]: [",".join(ids)] written as the whole
    content of the file. *)
Definition _write_ids_file (path : string) (ids : list string)
    (fs : filesystem) : filesystem :=
  <[path := String.concat "," ids]> fs.

(** The loop that streams identifiers to the file opened by
    [_open_ids_file_for_stream], in [list_ids] and [run_all]:
    [if first: f.write(eid); first = False / else: f.write("," + eid)] and
    [count += 1]. The state is what was written, [first] and [count]. *)
Definition stream_step (st : string * bool * nat) (eid : string)
    : string * bool * nat :=
  let '(written, first, count) := st in
  if first then (written +:+ eid, false, S count)
  else (written +:+ ("," +:+ eid), false, S count).

Definition stream_ids (ids : list string) : string * bool * nat :=
  foldl stream_step (EmptyString, true, 0%nat) ids.

End IdsFile.

(** ** [__main__.py]: the commands [list-ids], [sample] and [fetch] *)

Module Commands.
Import Downloader IdsFile Sampling.

(** What [emit] prints: the events of the engines and the notices of the
    commands. The commands are run without [--log-file], so that no file
    but those of the run is written. Their path arguments ([ids], [out])
    are the paths as [pathlib] renders them ([str(Path(out))]), which is
    how the commands print them and hand them to the file system. *)
Inductive notice :=
| engine (ev : event)
| ids_resume_skip (file : string)
| sample_resume_skip (file : string)
| written (count : nat) (file : string)
| sampled (n : nat) (file : string)
| downloaded (n : nat) (out_dir : string).

(** How a command ends: it returns, or an exception leaves it
    ([FileNotFoundError] when [read_text] finds no file). *)
Inductive ending :=
| Returned
| FileNotFoundError (path : string)
| Propagated (e : exn).

Record run := {
  how : ending;
  files_after : filesystem;
  printed : list notice
}.

(** [RCSBClient()]: the defaults of [RCSBClientConfig]. *)
Definition client_defaults : RcsbClient.RCSBClientConfig :=
  {| RcsbClient.base_search_url :=
       "https://search.rcsb.org/rcsbsearch/v2/query?json";
     RcsbClient.max_retries := 5 |}.

(** The body of [async for eid in client.enumerate_entry_ids(...)] with
    the callback [on_page]: an identifier is streamed to the file, a page
    is announced by an [enumerate_page] event. *)
Definition consume (st : string * bool * nat * list notice)
    (a : RcsbClient.action) : string * bool * nat * list notice :=
  match a with
  | RcsbClient.on_page_call start rows page_number total =>
      (st.1, st.2 ++ [engine (enumerate_page page_number start rows total)])
  | RcsbClient.post _ _ => st
  | RcsbClient.yield eid => (stream_step st.1 eid, st.2)
  end.

(** [list_ids(out, page_size, resume)]. [count] is the outcome of
    [count_entries], [net] the replies to the page requests. The file is
    opened for writing, and so emptied, before the enumeration starts, and
    closed by the [with] block also when the enumeration raises. *)
Definition list_ids (out : string) (page_size : Z) (resume : bool)
    (count : result Z) (net : Z → nat → RcsbClient.reply)
    (fs : filesystem) : run :=
  if resume && exists_nonempty fs out then
    {| how := Returned; files_after := fs; printed := [ids_resume_skip out] |}
  else
    let '(r, tr) :=
      RcsbClient.enumerate_entry_ids client_defaults page_size true count net in
    let '(content, _, n, notices) :=
      foldl consume (EmptyString, true, 0%nat, []) tr in
    let fs' := <[out := content]> fs in
    match r with
    | Ok _ => {| how := Returned; files_after := fs';
                 printed := notices ++ [written n out] |}
    | Raise e => {| how := Propagated e; files_after := fs';
                    printed := notices |}
    end.

Section WithRandom.
Context `{RandomSource}.

(** [sample(ids, percent, out, seed, resume)]; [ω] is the entropy read
    when no seed is given. The list read from the file is a new list
    object, and so is the subset. *)
Definition sample (ids out : string) (percent : float) (seed : option Z)
    (resume : bool) (ω : nat) (fs : filesystem) : run :=
  if resume && exists_nonempty fs out then
    {| how := Returned; files_after := fs;
       printed := [sample_resume_skip out] |}
  else
    match _read_ids_file ids fs with
    | None => {| how := FileNotFoundError ids; files_after := fs;
                 printed := [] |}
    | Some id_list =>
        let '(l, σ) := new_list id_list ∅ in
        match sample_ids l percent seed ω σ with
        | (Raise e, _) => {| how := Propagated e; files_after := fs;
                             printed := [] |}
        | (Ok r, σ') =>
            let subset := default [] (σ' !! r) in
            {| how := Returned;
               files_after := _write_ids_file out subset fs;
               printed := [sampled (length subset) out] |}
        end
    end.

End WithRandom.

(** [fetch(ids, out, format)]; [net t k] is what the [k]-th GET of the
    [t]-th download leads to. *)
Definition fetch (ids out format : string) (net : nat → nat → response)
    (fs : filesystem) : run :=
  match _read_ids_file ids fs with
  | None => {| how := FileNotFoundError ids; files_after := fs;
               printed := [] |}
  | Some id_list =>
      let start := engine (download_start (length id_list) out format) in
      let w := {| files := fs; events := []; requests := [] |} in
      match download_entries id_list out format None true net w with
      | (Raise e, w') =>
          {| how := Propagated e; files_after := files w';
             printed := start :: (engine <$> events w') |}
      | (Ok paths, w') =>
          {| how := Returned; files_after := files w';
             printed := start :: (engine <$> events w')
                        ++ [downloaded (length paths) out] |}
      end
  end.

End Commands.

(** * Properties *)

(** Closed decidable facts are settled by evaluating their decision. *)
Ltac by_compute := apply (bool_decide_unpack _); vm_compute; exact I.

(** ** [shuffle] permutes *)

Module PyRandomFacts.

Section Shuffle.
Context `{RandomSource} {A : Type}.

Lemma swap_Permutation (i j : nat) (x : list A) : swap i j x ≡ₚ x.
Proof.
  unfold swap.
  destruct (x !! i) as [a|] eqn:Hi; [|done].
  destruct (x !! j) as [b|] eqn:Hj; [|done].
  by apply Permutation_insert_swap.
Qed.

Lemma shuffle_loop_Permutation g calls i (x : list A) :
  shuffle_loop g calls i x ≡ₚ x.
Proof.
  revert calls x. induction i as [|i IH]; intros calls x; simpl; [done|].
  by rewrite IH, swap_Permutation.
Qed.

Lemma shuffle_Permutation g (x : list A) : shuffle g x ≡ₚ x.
Proof. apply shuffle_loop_Permutation. Qed.

Lemma length_shuffle g (x : list A) : length (shuffle g x) = length x.
Proof. apply Permutation_length, shuffle_Permutation. Qed.
End Shuffle.

Lemma lcg_below_lt g c n : (0 < n)%nat → (lcg_below g c n < n)%nat.
Proof.
  intros Hn. unfold lcg_below.
  pose proof (Z.mod_pos_bound (lcg g c) (Z.of_nat n)). lia.
Qed.

#[export] Instance lcg_source : RandomSource :=
  {| randbelow := lcg_below; randbelow_lt := lcg_below_lt |}.

End PyRandomFacts.

Import PyRandomFacts.

(** ** Binary64 arithmetic on integers below [2 ^ 53]

    Converting such an integer to a float and multiplying it by 1.0 is
    exact, and [math.floor] gives the integer back. *)

Module PyFloatFacts.

Lemma digits2_pos_iter_xO m k :
  digits2_pos (Pos.iter xO m k) = (digits2_pos m + k)%positive.
Proof.
  induction k as [|k IH] using Pos.peano_ind.
  - simpl. lia.
  - rewrite Pos.iter_succ. simpl. rewrite IH. lia.
Qed.

Lemma Zpos_iter_xO m k : Zpos (Pos.iter xO m k) = Zpos m * 2 ^ Zpos k.
Proof.
  induction k as [|k IH] using Pos.peano_ind.
  - simpl. lia.
  - rewrite Pos.iter_succ, Pos2Z.inj_succ, Z.pow_succ_r by lia.
    rewrite Pos2Z.inj_xO, IH. lia.
Qed.

(** A mantissa of full width needs no rounding. *)
Lemma binary_round_aux_exact s mz e :
  digits2_pos mz = 53%positive →
  -1074 ≤ e ≤ 971 →
  binary_round_aux prec emax s (Zpos mz) e loc_Exact = S754_finite s mz e.
Proof.
  intros Hd He. unfold binary_round_aux, shr_fexp, fexp, emin, prec, emax.
  cbn [Zdigits2 shr_record_of_loc]. rewrite Hd.
  replace (Z.max (53 + e - 53) (3 - 1024 - 53) - e) with 0 by lia.
  cbn [shr shr_m loc_of_shr_record round_nearest_even Zdigits2 shr_record_of_loc].
  rewrite Hd.
  replace (Z.max (53 + e - 53) (3 - 1024 - 53) - e) with 0 by lia.
  cbn [shr shr_m].
  destruct (Z.leb_spec e (1024 - 53)); [done|lia].
Qed.

(** The float 1.0. *)
Definition f1 : float := S754_finite false 4503599627370496 (-52).

(** The mantissa of an integer of at most 53 bits, shifted to full width. *)
Definition widen (m : positive) : positive :=
  match (53 - Zpos (digits2_pos m))%Z with
  | Zpos k => Pos.iter xO m k
  | _ => m
  end.

Lemma digits2_pos_widen m :
  Zpos (digits2_pos m) ≤ 53 → digits2_pos (widen m) = 53%positive.
Proof.
  intros Hd. unfold widen.
  destruct (53 - Zpos (digits2_pos m)) as [|k|k] eqn:Hk; [lia| |lia].
  rewrite digits2_pos_iter_xO. lia.
Qed.

Lemma Zpos_widen m :
  Zpos (digits2_pos m) ≤ 53 →
  Zpos (widen m) = Zpos m * 2 ^ (53 - Zpos (digits2_pos m)).
Proof.
  intros Hd. unfold widen.
  destruct (53 - Zpos (digits2_pos m)) as [|k|k] eqn:Hk; [lia| |lia].
  apply Zpos_iter_xO.
Qed.

Lemma float_of_int_pos m :
  Zpos (digits2_pos m) ≤ 53 →
  float_of_int (Zpos m)
  = S754_finite false (widen m) (Zpos (digits2_pos m) - 53).
Proof.
  intros Hd. unfold float_of_int, binary_normalize, binary_round.
  unfold shl_align, fexp, emin, prec, emax, widen.
  replace (Z.max (Zpos (digits2_pos m) + 0 - 53) (3 - 1024 - 53) - 0)
    with (- (53 - Zpos (digits2_pos m))) by lia.
  replace (Z.max (Zpos (digits2_pos m) + 0 - 53) (3 - 1024 - 53))
    with (Zpos (digits2_pos m) - 53) by lia.
  pose proof (digits2_pos_widen m Hd) as Hw. unfold widen in Hw.
  destruct (53 - Zpos (digits2_pos m)) as [|k|k] eqn:Hk; [|  |lia].
  - simpl Z.opp. cbv iota. replace (Zpos (digits2_pos m) - 53) with 0 by lia.
    by apply binary_round_aux_exact.
  - simpl Z.opp. cbv iota.
    apply (binary_round_aux_exact false _ _ Hw). lia.
Qed.

Lemma shr_52 p :
  SpecFloat.iter_pos shr_1 52
    {| shr_m := Zpos (Pos.iter xO p 52); shr_r := false; shr_s := false |}
  = {| shr_m := Zpos p; shr_r := false; shr_s := false |}.
Proof. reflexivity. Qed.

Lemma fmul_one mz e :
  digits2_pos mz = 53%positive →
  -1022 ≤ e ≤ 971 →
  fmul (S754_finite false mz e) f1 = S754_finite false mz e.
Proof.
  intros Hd He. unfold fmul, f1, SFmul. cbn [xorb].
  replace (mz * 4503599627370496)%positive with (Pos.iter xO mz 52)
    by (by rewrite Pos.mul_comm).
  unfold binary_round_aux, shr_fexp, fexp, emin, prec, emax.
  cbn [Zdigits2 shr_record_of_loc].
  rewrite digits2_pos_iter_xO, Hd.
  replace (Z.max (Zpos (53 + 52) + (e + -52) - 53) (3 - 1024 - 53) - (e + -52))
    with 52 by lia.
  cbn [shr]. rewrite shr_52.
  cbn [shr_m loc_of_shr_record round_nearest_even Zdigits2 shr_record_of_loc].
  rewrite Hd.
  replace (Z.max (53 + (e + -52 + 52) - 53) (3 - 1024 - 53) - (e + -52 + 52))
    with 0 by lia.
  cbn [shr shr_m].
  replace (e + -52 + 52) with e by lia.
  destruct (Z.leb_spec e (1024 - 53)); [done|lia].
Qed.

Lemma double_succ_between (a b m : Z) :
  a ≤ m < b → 2 * a ≤ 2 * m + 1 < 2 * b.
Proof. lia. Qed.

Lemma double_between (a b m : Z) : a ≤ m < b → 2 * a ≤ 2 * m < 2 * b.
Proof. lia. Qed.

Lemma digits2_pos_bounds m :
  2 ^ (Zpos (digits2_pos m) - 1) ≤ Zpos m < 2 ^ Zpos (digits2_pos m).
Proof.
  induction m as [m IH|m IH|]; cbn [digits2_pos]; [| |simpl; lia].
  - rewrite Pos2Z.inj_succ, (Pos2Z.inj_xI m).
    replace (Z.succ (Zpos (digits2_pos m)) - 1)
      with (Z.succ (Zpos (digits2_pos m) - 1)) by lia.
    rewrite !Z.pow_succ_r by lia. by apply double_succ_between.
  - rewrite Pos2Z.inj_succ, (Pos2Z.inj_xO m).
    replace (Z.succ (Zpos (digits2_pos m)) - 1)
      with (Z.succ (Zpos (digits2_pos m) - 1)) by lia.
    rewrite !Z.pow_succ_r by lia. by apply double_between.
Qed.

Lemma digits2_pos_le_53 m : Zpos m < 2 ^ 53 → Zpos (digits2_pos m) ≤ 53.
Proof.
  intros Hm. destruct (digits2_pos_bounds m) as [Hlo _].
  destruct (Z.le_gt_cases (Zpos (digits2_pos m)) 53) as [|Hgt]; [done|].
  assert (2 ^ 53 ≤ 2 ^ (Zpos (digits2_pos m) - 1))
    by (apply Z.pow_le_mono_r; lia).
  lia.
Qed.

Lemma floor_times_one n :
  1 ≤ n < 2 ^ 53 → math_floor (fmul (float_of_int n) f1) = Ok n.
Proof.
  intros Hn. destruct n as [|m|m]; [lia| |lia].
  pose proof (digits2_pos_le_53 m (proj2 Hn)) as Hd.
  rewrite float_of_int_pos by done.
  rewrite fmul_one by (by apply digits2_pos_widen || lia).
  cbn [math_floor]. f_equal. rewrite Zpos_widen by done.
  destruct (Z.leb_spec 0 (Zpos (digits2_pos m) - 53)).
  - replace (Zpos (digits2_pos m) - 53) with 0 by lia.
    replace (53 - Zpos (digits2_pos m)) with 0 by lia. simpl. lia.
  - replace (- (Zpos (digits2_pos m) - 53)) with (53 - Zpos (digits2_pos m)) by lia.
    apply Z.div_mul. apply Z.pow_nonzero; lia.
Qed.

End PyFloatFacts.

Import PyFloatFacts.

(** ** The sampler *)

Module SamplingFacts.
Import Sampling.

Lemma new_list_lookup l (σ : heap) :
  (new_list l σ).2 !! (new_list l σ).1 = Some l.
Proof. unfold new_list. simpl. apply lookup_insert_eq. Qed.

Lemma new_list_fresh l (σ : heap) : σ !! (new_list l σ).1 = None.
Proof.
  unfold new_list. simpl. apply not_elem_of_dom, is_fresh.
Qed.

Lemma new_list_subseteq l (σ : heap) : σ ⊆ (new_list l σ).2.
Proof.
  unfold new_list. simpl. apply insert_subseteq, not_elem_of_dom, is_fresh.
Qed.

Section WithRandom.
Context `{RandomSource}.

(** The sampling branch: what is returned and what the heap becomes. *)
Lemma sample_ids_sampling ids percent seed ω (σ : heap) l k :
  σ !! ids = Some l →
  l ≠ [] →
  fle (clamp_percent percent) f0 = false →
  sample_size (Z.of_nat (length l)) (clamp_percent percent) = Ok k →
  let pool := fresh (dom σ) in
  let σ2 : heap := <[pool := shuffle (make_rng seed ω) l]> σ in
  let out := take (Z.to_nat k) (shuffle (make_rng seed ω) l) in
  sample_ids ids percent seed ω σ
  = (Ok (fresh (dom σ2)), <[fresh (dom σ2) := out]> σ2).
Proof.
  intros Hids Hne Hp Hk pool σ2 out. unfold sample_ids.
  rewrite Hids, bool_decide_eq_false_2, Hp, Hk by done.
  unfold new_list, shuffle_in_place, slice_to, new_list. simpl.
  rewrite lookup_insert_eq, insert_insert_eq.
  fold pool. fold σ2.
  subst σ2. rewrite lookup_insert_eq. done.
Qed.

Lemma sample_ids_returned ids percent seed ω (σ : heap) l k :
  σ !! ids = Some l →
  l ≠ [] →
  fle (clamp_percent percent) f0 = false →
  sample_size (Z.of_nat (length l)) (clamp_percent percent) = Ok k →
  returned (sample_ids ids percent seed ω σ)
  = Some (take (Z.to_nat k) (shuffle (make_rng seed ω) l)).
Proof.
  intros. erewrite sample_ids_sampling by done.
  unfold returned. simpl. apply lookup_insert_eq.
Qed.

(** Every list object that existed before the call is unchanged. *)
Lemma sample_ids_subseteq ids percent seed ω (σ : heap) :
  σ ⊆ (sample_ids ids percent seed ω σ).2.
Proof.
  unfold sample_ids.
  destruct (σ !! ids) as [l|] eqn:Hids; [|done].
  case_bool_decide as Hl; [apply new_list_subseteq|].
  destruct (fle _ _); [apply new_list_subseteq|].
  destruct (sample_size _ _) as [k|e]; [|done].
  unfold new_list, shuffle_in_place, slice_to, new_list. simpl.
  rewrite lookup_insert_eq, insert_insert_eq.
  etrans; [|apply insert_subseteq, not_elem_of_dom, is_fresh].
  apply insert_subseteq, not_elem_of_dom, is_fresh.
Qed.

End WithRandom.

Section Contract.
Context `{RandomSource}.

(** Empty input: a new empty list, whatever the percentage. *)
Lemma sample_ids_empty_input ids percent seed ω (σ : heap) :
  σ !! ids = Some [] →
  returned (sample_ids ids percent seed ω σ) = Some [].
Proof.
  intros Hids. unfold sample_ids, returned. rewrite Hids. simpl.
  apply lookup_insert_eq.
Qed.

(** Clamped percentage not above zero: a new empty list. *)
Lemma sample_ids_no_percent ids percent seed ω (σ : heap) l :
  σ !! ids = Some l →
  fle (clamp_percent percent) f0 = true →
  returned (sample_ids ids percent seed ω σ) = Some [].
Proof.
  intros Hids Hp. unfold sample_ids, returned. rewrite Hids, Hp.
  case_bool_decide; simpl; apply lookup_insert_eq.
Qed.

Lemma sample_size_bounds n p k :
  1 ≤ n → sample_size n p = Ok k → 1 ≤ k ≤ n.
Proof.
  unfold sample_size. destruct (math_floor _); intros ? [= <-]. lia.
Qed.

(** Whenever a sample is returned for a non-empty input and a positive
    clamped percentage, it has between 1 and [n] elements, is a sublist
    of a permutation of the input, and has no duplicates if the input
    has none. *)
Lemma sample_ids_sample ids percent seed ω (σ : heap) l out :
  σ !! ids = Some l →
  l ≠ [] →
  fle (clamp_percent percent) f0 = false →
  returned (sample_ids ids percent seed ω σ) = Some out →
  (1 ≤ length out ≤ length l)%nat ∧ out ⊆ l ∧ (NoDup l → NoDup out).
Proof.
  intros Hids Hne Hp Hret.
  destruct (sample_size (Z.of_nat (length l)) (clamp_percent percent))
    as [k|e] eqn:Hk.
  - erewrite sample_ids_returned in Hret by done.
    injection Hret as <-.
    assert (1 ≤ Z.of_nat (length l)) by (destruct l; simpl in *; [done|lia]).
    apply sample_size_bounds in Hk as Hb; [|done].
    pose proof (shuffle_Permutation (make_rng seed ω) l) as Hperm.
    split_and!.
    + rewrite length_take, length_shuffle. lia.
    + rewrite length_take, length_shuffle. lia.
    + intros x Hx%(subseteq_take _ _ x). by rewrite <-Hperm.
    + intros Hnd. eapply sublist_NoDup; [|apply sublist_take].
      by rewrite Hperm.
  - unfold sample_ids, returned in Hret.
    rewrite Hids, bool_decide_eq_false_2, Hp, Hk in Hret by done.
    done.
Qed.

Lemma sample_size_100 n :
  1 ≤ n < 2 ^ 53 → sample_size n (clamp_percent f100) = Ok n.
Proof.
  intros Hn. unfold sample_size.
  change (fdiv (clamp_percent f100) f100) with f1.
  rewrite floor_times_one by done. f_equal. lia.
Qed.

(** At 100 percent the whole input comes back, shuffled (for lists of
    fewer than [2 ^ 53] elements, whose length converts exactly). *)
Lemma sample_ids_100_percent ids seed ω (σ : heap) l :
  σ !! ids = Some l →
  l ≠ [] →
  Z.of_nat (length l) < 2 ^ 53 →
  returned (sample_ids ids f100 seed ω σ)
  = Some (shuffle (make_rng seed ω) l).
Proof.
  intros Hids Hne Hlen.
  erewrite (sample_ids_returned _ _ _ _ _ l (Z.of_nat (length l))); try done.
  - f_equal. apply take_ge. rewrite length_shuffle. lia.
  - apply sample_size_100. split; [|done]. destruct l; [done|]. simpl. lia.
Qed.

End Contract.

(** C10. [sample_ids] never mutates its input: every list object of the
    caller's heap, the input among them, holds the same elements after the
    call as before it (the shuffle acts on a copy), whether the call
    returns or raises; so a second call on the same list reads the same
    input as the first. *)
Theorem sample_ids_input_unchanged `{RandomSource}
    (ids : loc) (percent : float) (seed : option Z) (ω : nat) (σ : heap) :
  let σ' := (sample_ids ids percent seed ω σ).2 in
  σ ⊆ σ'
  ∧ σ' !! ids = σ !! ids
  ∧ ∀ percent2 seed2 ω2,
      (sample_ids ids percent2 seed2 ω2 σ').2 !! ids = σ !! ids.
Proof.
  intros σ'.
  assert (Hframe : ∀ p s w (τ : heap),
            (sample_ids ids p s w τ).2 !! ids = τ !! ids).
  { intros p s w τ.
    destruct (τ !! ids) as [l|] eqn:Hids.
    - by eapply lookup_weaken, sample_ids_subseteq.
    - unfold sample_ids. by rewrite Hids. }
  split_and!.
  - apply sample_ids_subseteq.
  - apply Hframe.
  - intros p2 s2 w2. rewrite Hframe. apply Hframe.
Qed.

(** C4, at the input where the code departs from it. For 100 distinct
    identifiers and percent 29 the specification promises
    [max(1, min(100, floor(100 * 29 / 100))) = 29] elements; the code
    computes [29.0 / 100.0] and [100 * 0.29] in binary64, gets
    [28.999999999999996], and returns 28 elements, for every seed and every
    random source. *)
Theorem sample_ids_29_percent_of_100 `{RandomSource}
    (seed : option Z) (ω : nat) :
  ∃ out,
    returned (sample_ids 1%positive (float_of_int 29) seed ω
                {[ 1%positive := distinct_ids 100 ]}) = Some out
    ∧ length out = 28%nat
    ∧ spec_length 100 29 = 29.
Proof.
  eexists. split_and!.
  - apply (sample_ids_returned _ _ _ _ _ (distinct_ids 100) 28).
    + apply lookup_singleton_eq.
    + done.
    + by vm_compute.
    + by vm_compute.
  - rewrite length_take, length_shuffle. by vm_compute.
  - by vm_compute.
Qed.


End SamplingFacts.

(** ** The fetch engine *)

Module DownloaderFacts.
Import Downloader.

(** The path carried by an event that reports a file in place: either just
    written ([download_ok]) or found on disk ([download_skip]). *)
Definition success_path (ev : event) : option string :=
  match ev with
  | download_skip _ path => Some path
  | download_ok _ path _ _ => Some path
  | _ => None
  end.

(** The path carried by an event that reports a freshly written file. *)
Definition written_path (ev : event) : option string :=
  match ev with
  | download_ok _ path _ _ => Some path
  | _ => None
  end.

Definition is_error (ev : event) : bool :=
  match ev with
  | download_error _ _ _ _ _ => true
  | _ => false
  end.

(** [w'] comes from [w] by handing [evs] to [on_event] (and any requests
    and writes). *)
Definition emitted (w w' : world) (evs : list event) : Prop :=
  events w' = events w ++ evs.

Lemma emitted_refl w : emitted w w [].
Proof. unfold emitted. by rewrite app_nil_r. Qed.

Lemma emitted_trans w1 w2 w3 evs1 evs2 :
  emitted w1 w2 evs1 → emitted w2 w3 evs2 → emitted w1 w3 (evs1 ++ evs2).
Proof. unfold emitted. intros H1 H2. by rewrite H2, H1, app_assoc. Qed.

Lemma emitted_notify w ev : emitted w (notify true ev w) [ev].
Proof. done. Qed.

Lemma emitted_cons w1 w2 w3 ev evs :
  emitted w1 w2 [ev] → emitted w2 w3 evs → emitted w1 w3 (ev :: evs).
Proof. apply (emitted_trans w1 w2 w3 [ev] evs). Qed.

(** Only outcomes of downloads are handed to [on_event]. *)
Definition is_outcome (ev : event) : Prop :=
  event_name ev ∈ ["download_skip"; "download_ok"; "download_error"].

Lemma written_outcome ev path : written_path ev = Some path → is_outcome ev.
Proof. destruct ev; try done. intros _. unfold is_outcome. set_solver. Qed.

Lemma error_outcome ev : is_error ev = true → is_outcome ev.
Proof. destruct ev; try done. intros _. unfold is_outcome. set_solver. Qed.

Lemma emitted_inj w w' evs1 evs2 :
  emitted w w' evs1 → emitted w w' evs2 → evs1 = evs2.
Proof. unfold emitted. intros -> ?. by simplify_list_eq. Qed.

Section DownloadOne.
Variables (out_dir file_format : string) (cfg : DownloadConfig).

Abbreviation attempt_loop := (attempt_loop out_dir file_format cfg true).
Abbreviation fetch := (fetch out_dir file_format cfg true).
Abbreviation skip_if_exists := (skip_if_exists out_dir file_format true).
Abbreviation target := (target_of out_dir file_format).

(** The retry loop ends: [max_retries + 1 - attempt] passes are enough. *)
Lemma attempt_loop_total entry_id net fuel attempt w :
  (1 ≤ fuel)%nat →
  max_retries cfg + 1 - attempt ≤ Z.of_nat fuel →
  is_Some (attempt_loop entry_id net fuel attempt w).
Proof.
  revert attempt w. induction fuel as [|fuel IH]; intros attempt w Hf Hm; [lia|].
  simpl. destruct (net (Z.to_nat attempt)) as [status data|kind].
  - destruct (status =? 200); [done|].
    destruct (status =? 429).
    { destruct (attempt + 1 >? max_retries cfg) eqn:Hgt; [done|].
      apply IH; lia. }
    destruct ((500 <=? status) && (status <? 600)); [|done].
    destruct (attempt + 1 >? max_retries cfg) eqn:Hgt; [done|].
    apply IH; lia.
  - destruct (attempt >=? max_retries cfg) eqn:Hge; [done|].
    apply IH; lia.
Qed.

(** A run of the retry loop hands exactly one event to [on_event]: a
    [download_ok] for the returned target, or a [download_error] when no
    path is returned. *)
Lemma attempt_loop_event entry_id net fuel attempt w r w' :
  attempt_loop entry_id net fuel attempt w = Some (r, w') →
  ∃ ev, emitted w w' [ev]
        ∧ match r with
          | Some path => path = target entry_id ∧ written_path ev = Some path
          | None => is_error ev = true
          end.
Proof.
  revert attempt w. induction fuel as [|fuel IH]; intros attempt w; [done|].
  simpl. destruct (net (Z.to_nat attempt)) as [status data|kind].
  - destruct (status =? 200).
    { intros [= <- <-]. eexists. split; [apply emitted_notify|done]. }
    destruct (status =? 429).
    { destruct (attempt + 1 >? max_retries cfg).
      - intros [= <- <-]. eexists. split; [apply emitted_notify|done].
      - intros Hl. apply IH in Hl as (ev & Hev & Hr). by exists ev. }
    destruct ((500 <=? status) && (status <? 600)).
    { destruct (attempt + 1 >? max_retries cfg).
      - intros [= <- <-]. eexists. split; [apply emitted_notify|done].
      - intros Hl. apply IH in Hl as (ev & Hev & Hr). by exists ev. }
    intros [= <- <-]. eexists. split; [apply emitted_notify|done].
  - destruct (attempt >=? max_retries cfg).
    + intros [= <- <-]. eexists. split; [apply emitted_notify|done].
    + intros Hl. apply IH in Hl as (ev & Hev & Hr). by exists ev.
Qed.

Lemma fetch_event entry_id net w :
  ∃ ev, emitted w (fetch entry_id net w).2 [ev]
        ∧ match (fetch entry_id net w).1 with
          | Some path => path = target entry_id ∧ written_path ev = Some path
          | None => is_error ev = true
          end.
Proof.
  unfold Downloader.fetch.
  destruct (attempt_loop_total entry_id net (S (Z.to_nat (max_retries cfg))) 0 w)
    as [[r w'] Hl]; [lia|lia|].
  rewrite Hl. simpl. by eapply attempt_loop_event.
Qed.

Abbreviation start_all := (start_all out_dir file_format true).
Abbreviation finish_all := (finish_all out_dir file_format cfg true).
Abbreviation gather := (gather out_dir file_format cfg true).

Lemma written_success ev path :
  written_path ev = Some path → success_path ev = Some path.
Proof. by destruct ev. Qed.

Lemma error_no_success ev : is_error ev = true → success_path ev = None.
Proof. by destruct ev. Qed.

(** The tasks whose target exists hand one [download_skip] event each to
    [on_event], carrying the path they return. *)
Lemma start_all_events ids w :
  ∃ evs, emitted w (start_all ids w).2 evs
         ∧ omap success_path evs = omap snd (start_all ids w).1
         ∧ length (start_all ids w).1 = length ids.
Proof.
  revert w. induction ids as [|eid ids IH]; intros w; simpl.
  { exists []. split; [apply emitted_refl|done]. }
  unfold Downloader.skip_if_exists.
  destruct (exists_nonempty _ _).
  - destruct (IH (notify true (download_skip eid (target eid)) w))
      as (evs & Hev & Hs & Hl).
    destruct (start_all ids (notify true _ w)) as [tasks w2] eqn:Hst.
    simpl in *. exists (download_skip eid (target eid) :: evs). split_and!.
    + eapply emitted_cons; [apply emitted_notify|done].
    + simpl. f_equal. exact Hs.
    + by rewrite Hl.
  - destruct (IH w) as (evs & Hev & Hs & Hl).
    destruct (start_all ids w) as [tasks w2] eqn:Hst.
    simpl in *. exists evs. by rewrite Hl.
Qed.

(** The tasks that go to the network hand one event each to [on_event];
    the paths returned are those of the tasks that skipped and those of
    the [download_ok] events. *)
Lemma finish_all_events tasks t net w :
  ∃ evs, emitted w (finish_all tasks t net w).2 evs
         ∧ omap id (finish_all tasks t net w).1
           ≡ₚ omap snd tasks ++ omap success_path evs
         ∧ length (finish_all tasks t net w).1 = length tasks.
Proof.
  revert t w. induction tasks as [|[eid [path|]] tasks IH]; intros t w; simpl.
  - exists []. split; [apply emitted_refl|done].
  - destruct (IH (S t) w) as (evs & Hev & Hp & Hl).
    destruct (finish_all tasks (S t) net w) as [rs w1]. simpl in *.
    exists evs. split_and!; [done| |by rewrite Hl]. by rewrite Hp.
  - destruct (fetch_event eid (net t) w) as (ev & Hev1 & Hr).
    destruct (fetch eid (net t) w) as [r w1]. simpl in *.
    destruct (IH (S t) w1) as (evs & Hev & Hp & Hl).
    destruct (finish_all tasks (S t) net w1) as [rs w2]. simpl in *.
    exists (ev :: evs). split_and!.
    + by eapply emitted_cons.
    + simpl. destruct r as [path|].
      * destruct Hr as [_ Hw]. rewrite (written_success _ _ Hw). simpl.
        rewrite Hp. apply Permutation_middle.
      * rewrite (error_no_success _ Hr). simpl. by rewrite Hp.
    + by rewrite Hl.
Qed.

Lemma gather_events ids net w :
  ∃ evs, emitted w (gather ids net w).2 evs
         ∧ omap id (gather ids net w).1 ≡ₚ omap success_path evs
         ∧ length (gather ids net w).1 = length ids.
Proof.
  unfold Downloader.gather.
  destruct (start_all_events ids w) as (evs1 & Hev1 & Hs1 & Hl1).
  destruct (start_all ids w) as [tasks w1]. simpl in *.
  destruct (finish_all_events tasks 0 net w1) as (evs2 & Hev2 & Hp2 & Hl2).
  exists (evs1 ++ evs2). split_and!.
  - by eapply emitted_trans.
  - by rewrite Hp2, omap_app, Hs1.
  - by rewrite Hl2.
Qed.

Lemma files_start_all ids w : files (start_all ids w).2 = files w.
Proof.
  revert w. induction ids as [|eid ids IH]; intros w; simpl; [done|].
  unfold Downloader.skip_if_exists. destruct (exists_nonempty _ _).
  - specialize (IH (notify true (download_skip eid (target eid)) w)).
    destruct (start_all ids (notify true _ w)). done.
  - specialize (IH w). destruct (start_all ids w). done.
Qed.

(** A task whose target exists and is non-empty returns that target. *)
Lemma start_all_skips ids w eid :
  eid ∈ ids →
  exists_nonempty (files w) (target eid) = true →
  target eid ∈ omap snd (start_all ids w).1.
Proof.
  revert w. induction ids as [|eid' ids IH]; intros w Hin Hex.
  { by apply elem_of_nil in Hin. }
  simpl. unfold Downloader.skip_if_exists.
  destruct (exists_nonempty (files w) (target eid')) eqn:Hex'.
  - specialize (IH (notify true (download_skip eid' (target eid')) w)).
    destruct (start_all ids (notify true _ w)) as [tasks w2]. simpl in *.
    apply elem_of_cons in Hin as [->|Hin]; [left|right; by apply IH].
  - specialize (IH w).
    destruct (start_all ids w) as [tasks w2]. simpl in *.
    apply elem_of_cons in Hin as [->|Hin]; [congruence|by apply IH].
Qed.

Lemma gather_skips ids net w eid :
  eid ∈ ids →
  exists_nonempty (files w) (target eid) = true →
  target eid ∈ omap id (gather ids net w).1.
Proof.
  intros Hin Hex. unfold Downloader.gather.
  pose proof (start_all_skips ids w eid Hin Hex) as Hs.
  destruct (start_all ids w) as [tasks w1]. simpl in *.
  destruct (finish_all_events tasks 0 net w1) as (evs & _ & Hp & _).
  rewrite Hp. apply elem_of_app. by left.
Qed.

(** 429, 429, then 200: the third request is answered, within the retry
    budget; the body is written and reported as the third attempt. *)
Lemma fetch_429_429_200 entry_id net w body0 body1 data :
  2 ≤ max_retries cfg →
  net 0%nat = Response 429 body0 →
  net 1%nat = Response 429 body1 →
  net 2%nat = Response 200 data →
  fetch entry_id net w
  = (Some (target entry_id),
     {| files := <[target entry_id := data]> (files w);
        events := events w
                  ++ [download_ok entry_id (target entry_id) (String.length data) 3];
        requests := requests w
                    ++ replicate 3 (url_of file_format cfg entry_id) |}).
Proof.
  intros Hmax H0 H1 H2. unfold Downloader.fetch.
  replace (S (Z.to_nat (max_retries cfg)))
    with (S (S (S (Z.to_nat (max_retries cfg - 2))))) by lia.
  cbn [Downloader.attempt_loop]. change (Z.to_nat 0) with 0%nat.
  rewrite H0. cbn [Z.eqb Pos.eqb].
  destruct (Z.gtb_spec (0 + 1) (max_retries cfg)); [lia|].
  change (Z.to_nat (0 + 1)) with 1%nat.
  rewrite H1. cbn [Z.eqb Pos.eqb].
  destruct (Z.gtb_spec (0 + 1 + 1) (max_retries cfg)); [lia|].
  change (Z.to_nat (0 + 1 + 1)) with 2%nat.
  rewrite H2. cbn [Z.eqb Pos.eqb]. simpl.
  by rewrite <-!app_assoc.
Qed.

Lemma start_all_outcomes ids w evs :
  emitted w (start_all ids w).2 evs → Forall is_outcome evs.
Proof.
  revert w evs. induction ids as [|eid ids IH]; intros w evs; simpl.
  { intros Hev. by rewrite (emitted_inj _ _ _ _ Hev (emitted_refl w)). }
  unfold Downloader.skip_if_exists. destruct (exists_nonempty _ _).
  - destruct (start_all_events ids (notify true (download_skip eid (target eid)) w))
      as (evs' & Hev' & _).
    specialize (IH (notify true (download_skip eid (target eid)) w) evs' Hev').
    destruct (start_all ids (notify true _ w)) as [tasks w2]. simpl in *.
    intros Hev.
    rewrite (emitted_inj _ _ _ _ Hev
               (emitted_cons _ _ _ _ _ (emitted_notify w _) Hev')).
    constructor; [|done]. unfold is_outcome. set_solver.
  - specialize (IH w evs). by destruct (start_all ids w).
Qed.

Lemma finish_all_outcomes tasks t net w evs :
  emitted w (finish_all tasks t net w).2 evs → Forall is_outcome evs.
Proof.
  revert t w evs. induction tasks as [|[eid [path|]] tasks IH]; intros t w evs; simpl.
  - intros Hev. by rewrite (emitted_inj _ _ _ _ Hev (emitted_refl w)).
  - specialize (IH (S t) w evs). by destruct (finish_all tasks (S t) net w).
  - destruct (fetch_event eid (net t) w) as (ev & Hev1 & Hr).
    destruct (fetch eid (net t) w) as [r w1]. simpl in *.
    destruct (finish_all_events tasks (S t) net w1) as (evs' & Hev' & _).
    specialize (IH (S t) w1 evs' Hev').
    destruct (finish_all tasks (S t) net w1) as [rs w2]. simpl in *.
    intros Hev.
    rewrite (emitted_inj _ _ _ _ Hev (emitted_cons _ _ _ _ _ Hev1 Hev')).
    constructor; [|done].
    destruct r as [path|]; [destruct Hr as [_ Hr]; by eapply written_outcome|].
    by apply error_outcome.
Qed.

Lemma gather_outcomes ids net w evs :
  emitted w (gather ids net w).2 evs → Forall is_outcome evs.
Proof.
  unfold Downloader.gather.
  destruct (start_all_events ids w) as (evs1 & Hev1 & _).
  pose proof (start_all_outcomes ids w evs1 Hev1) as Ho1.
  destruct (start_all ids w) as [tasks w1]. simpl in *.
  destruct (finish_all_events tasks 0 net w1) as (evs2 & Hev2 & _).
  pose proof (finish_all_outcomes tasks 0 net w1 evs2 Hev2) as Ho2.
  intros Hev.
  rewrite (emitted_inj _ _ _ _ Hev (emitted_trans _ _ _ _ _ Hev1 Hev2)).
  by apply Forall_app.
Qed.

End DownloadOne.

Lemma length_omap_le {A B} (f : A → option B) (l : list A) :
  (length (omap f l) ≤ length l)%nat.
Proof.
  induction l as [|x l IH]; [done|].
  change (omap f (x :: l))
    with (match f x with Some y => y :: omap f l | None => omap f l end).
  destruct (f x); simpl; lia.
Qed.

Lemma length_clean_ids entry_ids :
  (length (clean_ids entry_ids) ≤ length entry_ids)%nat.
Proof. unfold clean_ids. rewrite length_fmap. apply length_filter. Qed.

(** What a call hands to [on_event]: outcomes of downloads only, with at
    most one success (ok or skip) per identifier passed in. *)
Lemma download_entries_events entry_ids out_dir file_format cfg net w :
  ∃ evs,
    emitted w (download_entries entry_ids out_dir file_format cfg true net w).2 evs
    ∧ Forall is_outcome evs
    ∧ (length (omap success_path evs) ≤ length entry_ids)%nat.
Proof.
  unfold download_entries.
  case_bool_decide as Hids.
  { exists []. split_and!; [apply emitted_refl|done|apply Nat.le_0_l]. }
  case_bool_decide as Hfmt; cycle 1.
  { exists []. split_and!; [apply emitted_refl|done|apply Nat.le_0_l]. }
  destruct (gather_events out_dir (lower file_format)
              (default default_config cfg) (clean_ids entry_ids) net w)
    as (evs & Hev & Hp & Hl).
  pose proof (gather_outcomes out_dir (lower file_format)
                (default default_config cfg) (clean_ids entry_ids) net w evs)
    as Ho.
  destruct (gather _ _ _ _ _ _ _) as [results w']. simpl in *.
  exists evs. split_and!; [done|by apply Ho|].
  rewrite <-Hp. etrans; [apply length_omap_le|].
  rewrite Hl. apply length_clean_ids.
Qed.



(** A world with one file already downloaded. *)
Definition world_with_1ABC : world :=
  {| files := {[ "downloads/1ABC.pdb" := "ATOM" ]}; events := []; requests := [] |}.

Definition empty_world : world :=
  {| files := ∅; events := []; requests := [] |}.

(** An oracle for the network that answers 429 twice and then 200. *)
Definition net_429_429_200 (t k : nat) : response :=
  match k with
  | 0%nat | 1%nat => Response 429 ""
  | _ => Response 200 "ATOM"
  end.

(** C1, at the inputs where the code departs from it. The claim, like the
    docstring of [download_entries] ("Returns list of successfully written
    file paths"), promises only the paths of files freshly written during
    the call. For a call on one identifier whose target is already on disk,
    non-empty, the code returns the path of that file although the call
    sends no request and writes no file: the world after the call is the
    world before it, but for the [download_skip] event handed to
    [on_event] when a callback is given. *)
Theorem download_entries_returns_path_not_written
    (entry_ids : list string) (eid : string) (out_dir file_format : string)
    (cfg : option DownloadConfig) (on_event : bool)
    (net : nat → nat → response) (w : world) :
  clean_ids entry_ids = [eid] →
  lower file_format ∈ ["cif"; "pdb"] →
  exists_nonempty (files w) (target_of out_dir (lower file_format) eid) = true →
  download_entries entry_ids out_dir file_format cfg on_event net w
  = (Ok [target_of out_dir (lower file_format) eid],
     notify on_event
       (download_skip eid (target_of out_dir (lower file_format) eid)) w).
Proof.
  intros Hids Hfmt Hex. unfold download_entries. rewrite Hids.
  rewrite bool_decide_eq_false_2, bool_decide_eq_true_2 by done.
  unfold gather. cbn [start_all]. unfold skip_if_exists. by rewrite Hex.
Qed.

Lemma download_entries_returns_path_not_written_witness :
  download_entries ["1ABC"] "downloads" "pdb" None true
    (λ _ _, Response 200 "ATOM") world_with_1ABC
  = (Ok ["downloads/1ABC.pdb"],
     {| files := files world_with_1ABC;
        events := [download_skip "1ABC" "downloads/1ABC.pdb"];
        requests := [] |}).
Proof.
  apply (download_entries_returns_path_not_written ["1ABC"] "1ABC"
           "downloads" "pdb" None true (λ _ _, Response 200 "ATOM")
           world_with_1ABC).
  - by vm_compute.
  - by_compute.
  - by vm_compute.
Defined.

(** C9, as stated, fails on the empty list: with no identifier to fetch the
    engine returns the empty list, whatever the format. *)
Lemma download_entries_empty_list_unrecognized_format :
  download_entries [] "downloads" "xyz" None true
    (λ _ _, Response 200 "ATOM") empty_world
  = (Ok [], empty_world)
  ∧ lower "xyz" ∉ ["cif"; "pdb"].
Proof.
  split; [done|]. by_compute.
Qed.

(** C9, amended. With a format that is neither "cif" nor "pdb" (compared
    in lower case) and at least one identifier left after stripping, the
    engine raises [ValueError] with the world untouched: no request, no
    event, no file. With no identifier left it returns the empty list,
    again with the world untouched. *)
Theorem download_entries_unrecognized_format
    (entry_ids : list string) (out_dir file_format : string)
    (cfg : option DownloadConfig) (on_event : bool)
    (net : nat → nat → response) (w : world) :
  lower file_format ∉ ["cif"; "pdb"] →
  download_entries entry_ids out_dir file_format cfg on_event net w
  = if bool_decide (clean_ids entry_ids = [])
    then (Ok [], w)
    else (Raise (ValueError "file_format must be 'cif' or 'pdb'"), w).
Proof.
  intros Hfmt. unfold download_entries.
  case_bool_decide; [done|]. by rewrite bool_decide_eq_false_2.
Qed.

Lemma download_entries_unrecognized_format_witness :
  download_entries ["1ABC"; " "] "downloads" "xyz" None true
    net_429_429_200 empty_world
  = (Raise (ValueError "file_format must be 'cif' or 'pdb'"), empty_world).
Proof.
  apply (download_entries_unrecognized_format ["1ABC"; " "] "downloads" "xyz").
  by_compute.
Defined.

(** C5. A download of a single identifier that is answered 429, 429 and
    then 200, with a retry budget of at least two and no file on disk yet:
    the engine hands exactly one event to [on_event], a [download_ok] with
    [attempts = 3] (hence no [download_error]), writes the body, and
    returns the written path. *)
Theorem download_entries_429_429_200
    (entry_id out_dir file_format : string) (cfg : option DownloadConfig)
    (net : nat → nat → response) (w : world) (body0 body1 data : string) :
  let fmt := lower file_format in
  let target := target_of out_dir fmt entry_id in
  clean_ids [entry_id] = [entry_id] →
  fmt ∈ ["cif"; "pdb"] →
  2 ≤ max_retries (default default_config cfg) →
  exists_nonempty (files w) target = false →
  net 0%nat 0%nat = Response 429 body0 →
  net 0%nat 1%nat = Response 429 body1 →
  net 0%nat 2%nat = Response 200 data →
  download_entries [entry_id] out_dir file_format cfg true net w
  = (Ok [target],
     {| files := <[target := data]> (files w);
        events := events w
                  ++ [download_ok entry_id target (String.length data) 3];
        requests := requests w
                    ++ replicate 3
                         (url_of fmt (default default_config cfg) entry_id) |}).
Proof.
  intros fmt target Hclean Hfmt Hmax Hex H0 H1 H2.
  unfold download_entries. rewrite Hclean.
  rewrite bool_decide_eq_false_2 by done.
  fold fmt. rewrite bool_decide_eq_true_2 by done.
  unfold gather. cbn [start_all]. unfold skip_if_exists.
  fold target. rewrite Hex. cbn [finish_all].
  erewrite fetch_429_429_200 by done. done.
Qed.

Lemma download_entries_429_429_200_witness :
  download_entries ["1ABC"] "downloads" "PDB" None true net_429_429_200
    empty_world
  = (Ok ["downloads/1ABC.pdb"],
     {| files := {[ "downloads/1ABC.pdb" := "ATOM" ]};
        events := [download_ok "1ABC" "downloads/1ABC.pdb" 4 3];
        requests := replicate 3 "https://files.rcsb.org/download/1ABC.pdb" |}).
Proof.
  apply (download_entries_429_429_200 "1ABC" "downloads" "PDB" None
           net_429_429_200 empty_world "" "" "ATOM").
  - reflexivity.
  - by_compute.
  - by_compute.
  - reflexivity.
  - reflexivity.
  - reflexivity.
  - reflexivity.
Defined.


End DownloaderFacts.

(** ** The identifier source *)

Module RcsbClientFacts.
Import RcsbClient.

(** *** Identifier extraction *)

(** The value the extractor looks at: the first of the three fields, in
    order, whose value is truthy; the value of the last one if none is. *)
Definition candidate (fields : list (string * json)) : json :=
  let primary := lookup_field "identifier" fields in
  let fallback1 := lookup_field "entry_id" fields in
  let fallback2 := lookup_field "id" fields in
  if truthy primary then primary
  else if truthy fallback1 then fallback1
  else fallback2.

Definition as_string (j : json) : option string :=
  match j with
  | JStr s => Some s
  | _ => None
  end.

Lemma extract_candidate fields :
  extract (JObj fields) = Ok (as_string (candidate fields)).
Proof.
  unfold extract, candidate, or_else.
  destruct (truthy (lookup_field "identifier" fields)); [done|].
  by destruct (truthy (lookup_field "entry_id" fields)).
Qed.

Lemma yield_items_records records tr :
  yield_items (JObj <$> records) tr
  = (Ok (), tr ++ (yield <$> omap (λ fields, as_string (candidate fields)) records)).
Proof.
  revert tr. induction records as [|fields records IH]; intros tr.
  { simpl. by rewrite app_nil_r. }
  rewrite fmap_cons. cbn [yield_items]. rewrite extract_candidate.
  cbn [omap list_omap]. destruct (as_string (candidate fields)) as [s|].
  - rewrite IH. by rewrite fmap_cons, <-app_assoc.
  - apply IH.
Qed.

(** A record whose primary field holds a number and whose first fallback
    field holds the identifier. *)
Definition record_with_numeric_primary : list (string * json) :=
  [("identifier", JInt 123); ("entry_id", JStr "1ABC")].

(** C8, as stated, fails: a record with a string in a fallback field is
    skipped when an earlier field holds a truthy value that is not a
    string. *)
Lemma extract_skips_string_behind_truthy_field :
  lookup_field "entry_id" record_with_numeric_primary = JStr "1ABC"
  ∧ extract (JObj record_with_numeric_primary) = Ok None
  ∧ yield_items [JObj record_with_numeric_primary] [] = (Ok (), []).
Proof. by vm_compute. Qed.

(** C8, amended. For every record the extractor looks at the three fields
    in order (primary, then the two fallbacks) and takes the first truthy
    value (the last field's value when none is truthy); it yields that
    value when it is a string and skips the record otherwise, never
    failing the enumeration. What it yields is always a string held by one
    of the three fields, a record in which none of them holds a string is
    skipped, and a record whose primary field holds a non-empty string
    yields it. *)
Theorem extract_first_truthy_field (fields : list (string * json)) :
  extract (JObj fields) = Ok (as_string (candidate fields))
  ∧ (∀ s, extract (JObj fields) = Ok (Some s) →
       ∃ key, key ∈ ["identifier"; "entry_id"; "id"]
              ∧ lookup_field key fields = JStr s)
  ∧ ((∀ key s, key ∈ ["identifier"; "entry_id"; "id"] →
        lookup_field key fields ≠ JStr s) →
     extract (JObj fields) = Ok None)
  ∧ (∀ s, lookup_field "identifier" fields = JStr s → s ≠ "" →
       extract (JObj fields) = Ok (Some s))
  ∧ ∀ records tr,
      yield_items (JObj <$> records) tr
      = (Ok (), tr ++ (yield <$> omap (λ f, as_string (candidate f)) records)).
Proof.
  split_and!.
  - apply extract_candidate.
  - intros s. rewrite extract_candidate. intros [= Hs].
    unfold candidate in Hs.
    destruct (truthy (lookup_field "identifier" fields));
      [|destruct (truthy (lookup_field "entry_id" fields))];
      [exists "identifier"|exists "entry_id"|exists "id"];
      (split; [set_solver|]);
      by destruct (lookup_field _ fields); simplify_eq/=.
  - intros Hnone. rewrite extract_candidate. f_equal.
    unfold candidate.
    destruct (truthy (lookup_field "identifier" fields));
      [|destruct (truthy (lookup_field "entry_id" fields))].
    + destruct (lookup_field "identifier" fields) eqn:Hl; try done.
      exfalso. eapply (Hnone "identifier"); [set_solver|done].
    + destruct (lookup_field "entry_id" fields) eqn:Hl; try done.
      exfalso. eapply (Hnone "entry_id"); [set_solver|done].
    + destruct (lookup_field "id" fields) eqn:Hl; try done.
      exfalso. eapply (Hnone "id"); [set_solver|done].
  - intros s Hs Hne. rewrite extract_candidate. unfold candidate.
    rewrite Hs. simpl. by destruct s.
  - apply yield_items_records.
Qed.


(** *** Pages *)

Definition is_post_of (p : payload) (a : action) : Prop := ∃ r, a = post p r.
Definition is_yield (a : action) : Prop := ∃ ident, a = yield ident.

(** The arguments of an [on_page] call, the payload of a request. *)
Definition as_on_page (a : action) : option (Z * Z * Z * Z) :=
  match a with
  | on_page_call start rows page_number total =>
      Some (start, rows, page_number, total)
  | _ => None
  end.

Definition as_post (a : action) : option payload :=
  match a with
  | post p _ => Some p
  | _ => None
  end.

Definition on_page_start (a : action) : option Z :=
  match a with
  | on_page_call start _ _ _ => Some start
  | _ => None
  end.

Section Client.
Variable config : RCSBClientConfig.

(** The retry loop ends: [max_retries + 1 - attempt] passes are enough. *)
Lemma post_loop_total p net fuel attempt tr :
  (1 ≤ fuel)%nat →
  max_retries config + 1 - attempt ≤ Z.of_nat fuel →
  is_Some (post_loop config p net fuel attempt tr).
Proof.
  revert attempt tr. induction fuel as [|fuel IH]; intros attempt tr Hf Hm; [lia|].
  cbn [post_loop].
  assert (Hh : ∀ kind tr',
    is_Some (if attempt >=? max_retries config
             then Some (Raise (ClientError kind), tr')
             else post_loop config p net fuel (attempt + 1) tr')).
  { intros kind tr'. destruct (attempt >=? max_retries config) eqn:Hge; [done|].
    apply IH; lia. }
  destruct (net (Z.to_nat attempt)) as [status body|kind]; [|apply Hh].
  destruct (status =? 200).
  { destruct body as [data|[]]; first [done|apply Hh]. }
  destruct (status =? 429).
  { destruct (attempt + 1 >? max_retries config) eqn:Hgt; [done|].
    apply IH; lia. }
  destruct ((500 <=? status) && (status <? 600)); [apply Hh|done].
Qed.

(** A call of [_post_with_retry] appends one or more requests, all with the
    payload of the call, and nothing else. *)
Lemma post_loop_trace p net fuel attempt tr r tr' :
  post_loop config p net fuel attempt tr = Some (r, tr') →
  ∃ posts, tr' = tr ++ posts ∧ posts ≠ [] ∧ Forall (is_post_of p) posts.
Proof.
  revert attempt tr. induction fuel as [|fuel IH]; intros attempt tr; [done|].
  cbn [post_loop].
  set (a := post p (net (Z.to_nat attempt))).
  assert (Ha : is_post_of p a) by (by eexists).
  assert (Hstop : ∃ posts, tr ++ [a] = tr ++ posts ∧ posts ≠ []
                           ∧ Forall (is_post_of p) posts).
  { exists [a]. split_and!; [done|done|by constructor]. }
  assert (Hgo : ∀ att,
    post_loop config p net fuel att (tr ++ [a]) = Some (r, tr') →
    ∃ posts, tr' = tr ++ posts ∧ posts ≠ [] ∧ Forall (is_post_of p) posts).
  { intros att (posts & -> & _ & Hall)%IH. exists (a :: posts).
    split_and!; [by rewrite <-app_assoc|done|by constructor]. }
  assert (Hh : ∀ kind,
    (if attempt >=? max_retries config
     then Some (Raise (ClientError kind), tr ++ [a])
     else post_loop config p net fuel (attempt + 1) (tr ++ [a])) = Some (r, tr') →
    ∃ posts, tr' = tr ++ posts ∧ posts ≠ [] ∧ Forall (is_post_of p) posts).
  { intros kind. destruct (attempt >=? max_retries config).
    - by intros [= <- <-].
    - apply Hgo. }
  destruct (net (Z.to_nat attempt)) as [status body|kind]; [|apply Hh].
  destruct (status =? 200).
  { destruct body as [data|[]]; first [by intros [= <- <-]|apply Hh]. }
  destruct (status =? 429).
  { destruct (attempt + 1 >? max_retries config); [by intros [= <- <-]|apply Hgo]. }
  destruct ((500 <=? status) && (status <? 600)); [apply Hh|by intros [= <- <-]].
Qed.

Lemma post_with_retry_trace p net tr :
  ∃ posts, (_post_with_retry config p net tr).2 = tr ++ posts
           ∧ posts ≠ [] ∧ Forall (is_post_of p) posts.
Proof.
  unfold _post_with_retry.
  destruct (post_loop_total p net (S (Z.to_nat (max_retries config))) 0 tr)
    as [[r tr'] Hl]; [lia|lia|].
  rewrite Hl. simpl. by eapply post_loop_trace.
Qed.

(** A first reply 200 with a body that parses ends the call at once. *)
Lemma post_with_retry_first_try p net tr data :
  net 0%nat = Reply 200 (Ok data) →
  _post_with_retry config p net tr = (Ok data, tr ++ [post p (net 0%nat)]).
Proof.
  intros Hn. unfold _post_with_retry. cbn [post_loop].
  change (Z.to_nat 0) with 0%nat. by rewrite Hn.
Qed.

Lemma yield_items_trace items tr :
  ∃ ys, (yield_items items tr).2 = tr ++ ys ∧ Forall is_yield ys.
Proof.
  revert tr. induction items as [|item items IH]; intros tr; simpl.
  { exists []. by rewrite app_nil_r. }
  destruct (extract item) as [[ident|]|e].
  - destruct (IH (tr ++ [yield ident])) as (ys & -> & Hys).
    exists (yield ident :: ys). split; [by rewrite <-app_assoc|].
    constructor; [by eexists|done].
  - apply IH.
  - exists []. by rewrite app_nil_r.
Qed.

Lemma yield_from_trace result_set tr :
  ∃ ys, (yield_from result_set tr).2 = tr ++ ys ∧ Forall is_yield ys.
Proof.
  destruct result_set; simpl; try (exists []; by rewrite app_nil_r).
  apply yield_items_trace.
Qed.

End Client.


(** The shape of an enumeration trace from the page starting at [s]: page
    after page, each made of one [on_page] call, then the requests of that
    page (more than one when it was retried), then the identifiers it
    yielded. *)
Inductive page_blocks (page_size total : Z) : Z → list action → Prop :=
| blocks_nil s : page_blocks page_size total s []
| blocks_cons s posts ys rest :
    s < total →
    posts ≠ [] →
    Forall (is_post_of {| start := s; rows := Z.min page_size (total - s) |}) posts →
    Forall is_yield ys →
    page_blocks page_size total (s + page_size) rest →
    page_blocks page_size total s
      (on_page_call s (Z.min page_size (total - s)) (s `div` page_size + 1) total
         :: posts ++ ys ++ rest).

Section Pages.
Variables (config : RCSBClientConfig) (page_size total : Z)
          (net : Z → nat → reply).

Abbreviation page_loop := (page_loop config page_size true total net).

Lemma page_loop_blocks fuel s tr r tr' :
  page_loop fuel s tr = Some (r, tr') →
  ∃ new, tr' = tr ++ new ∧ page_blocks page_size total s new.
Proof.
  revert s tr. induction fuel as [|fuel IH]; intros s tr; [done|].
  cbn [RcsbClient.page_loop].
  destruct (Z.ltb_spec s total) as [Hlt|Hge]; cycle 1.
  { intros [= <- <-]. exists []. split; [by rewrite app_nil_r|constructor]. }
  set (p := {| start := s; rows := Z.min page_size (total - s) |}).
  set (call := on_page_call s (Z.min page_size (total - s))
                 (s `div` page_size + 1) total).
  destruct (post_with_retry_trace config p (net s) (tr ++ [call]))
    as (posts & Htr & Hne & Hposts).
  destruct (_post_with_retry config p (net s) (tr ++ [call])) as [r1 tr1].
  simpl in Htr. subst tr1.
  assert (Hstop : ∀ ys, Forall is_yield ys →
    ∃ new, (tr ++ [call]) ++ posts ++ ys = tr ++ new
           ∧ page_blocks page_size total s new).
  { intros ys Hys. exists (call :: posts ++ ys ++ []). split.
    - by rewrite app_nil_r, <-app_assoc.
    - constructor; try done. constructor. }
  assert (Hstop0 : ∃ new, (tr ++ [call]) ++ posts = tr ++ new
                          ∧ page_blocks page_size total s new).
  { destruct (Hstop [] (Forall_nil_2 _)) as (new & Hnew & Hb).
    exists new. by rewrite app_nil_r in Hnew. }
  destruct r1 as [data|e]; [|by intros [= <- <-]].
  destruct (result_set_of data) as [result_set|e]; [|by intros [= <- <-]].
  destruct (truthy result_set); [|by intros [= <- <-]].
  destruct (yield_from_trace result_set ((tr ++ [call]) ++ posts))
    as (ys & Hys & Hall).
  destruct (yield_from result_set ((tr ++ [call]) ++ posts)) as [r2 tr2].
  simpl in Hys. subst tr2.
  destruct r2 as [[]|e].
  - intros (rest & -> & Hrest)%IH. exists (call :: posts ++ ys ++ rest). split.
    + by rewrite <-!app_assoc.
    + by constructor.
  - intros [= <- <-]. rewrite <-app_assoc. by apply Hstop.
Qed.

Lemma page_loop_total fuel s tr :
  0 < page_size →
  (1 ≤ fuel)%nat →
  total - s < Z.of_nat fuel →
  is_Some (page_loop fuel s tr).
Proof.
  intros Hps. revert s tr.
  induction fuel as [|fuel IH]; intros s tr Hf Hm; [lia|].
  cbn [RcsbClient.page_loop].
  destruct (Z.ltb_spec s total) as [Hlt|Hge]; [|done].
  destruct (_post_with_retry _ _ _ _) as [[data|e] tr1]; [|done].
  destruct (result_set_of data) as [result_set|e]; [|done].
  destruct (truthy result_set); [|done].
  destruct (yield_from _ _) as [[[]|e] tr2]; [|done].
  apply IH; lia.
Qed.

End Pages.

(** Starts of pages in a trace of page blocks grow, so no page is
    announced twice. *)
Lemma page_blocks_starts page_size total s tr :
  0 < page_size →
  page_blocks page_size total s tr →
  Forall (λ x, s ≤ x) (omap on_page_start tr) ∧ NoDup (omap on_page_start tr).
Proof.
  intros Hps. induction 1 as [|s posts ys rest Hlt Hne Hposts Hys Hrest [IH1 IH2]].
  { split; constructor. }
  assert (Hstarts : omap on_page_start (posts ++ ys ++ rest)
                    = omap on_page_start rest).
  { rewrite !omap_app.
    assert (omap on_page_start posts = []) as ->.
    { clear Hne. induction Hposts as [|a posts [r ->] _ IH]; [done|]. apply IH. }
    assert (omap on_page_start ys = []) as ->.
    { induction Hys as [|a ys [ident ->] _ IH]; [done|]. apply IH. }
    done. }
  cbn [omap list_omap on_page_start]. fold (omap on_page_start (posts ++ ys ++ rest)).
  rewrite Hstarts. split.
  - constructor; [lia|]. eapply Forall_impl; [done|]. simpl. lia.
  - constructor; [|done]. intros Hin.
    rewrite Forall_forall in IH1. apply IH1 in Hin. lia.
Qed.


(** A configuration for the examples: the defaults of [RCSBClientConfig]. *)
Definition default_client_config : RCSBClientConfig :=
  {| base_search_url := "https://search.rcsb.org/rcsbsearch/v2/query?json";
     max_retries := 5 |}.

(** C7, as stated, fails: [on_page] is called before the request of the
    page is sent, so it is also called for a page whose request never
    succeeds. Here the only reply is a 404 and the enumeration raises,
    after the callback. *)
Lemma on_page_called_before_failed_request :
  enumerate_entry_ids default_client_config 10 true (Ok 10)
    (λ _ _, Reply 404 (Ok JNull))
  = (Raise (RuntimeError "RCSB search API error"),
     [on_page_call 0 10 1 10;
      post {| start := 0; rows := 10 |} (Reply 404 (Ok JNull))]).
Proof. by vm_compute. Qed.

(** C7, amended. In every enumeration, [on_page] is called exactly once
    for every page that is requested: the trace is a sequence of pages,
    each made of one [on_page] call, followed by the one or more requests of
    that page (several when the request is retried), followed by the
    identifiers yielded from it. The call comes before the first request of
    its page, whether or not that request succeeds, and no two calls
    announce the same page. *)
Theorem on_page_once_before_requests
    (config : RCSBClientConfig) (page_size : Z) (count : result Z)
    (net : Z → nat → reply) :
  let tr := (enumerate_entry_ids config page_size true count net).2 in
  match count with
  | Ok total => page_blocks page_size total 0 tr
  | Raise _ => tr = []
  end
  ∧ NoDup (omap on_page_start tr).
Proof.
  intros tr. subst tr. unfold enumerate_entry_ids.
  destruct (Z.leb_spec page_size 0) as [Hle|Hgt].
  { simpl. split; [|constructor]. destruct count; [constructor|done]. }
  destruct count as [total|e]; [|split; [done|constructor]].
  destruct (page_loop_total config page_size total net
              (S (Z.to_nat total)) 0 []) as [[r tr] Hl]; [lia|lia|lia|].
  rewrite Hl. simpl.
  apply page_loop_blocks in Hl as (new & -> & Hb). simpl.
  split; [done|]. by eapply page_blocks_starts.
Qed.


(** *** Which pages are queried *)

Lemma omap_posts {B} (f : action → option B) p posts :
  (∀ r, f (post p r) = None) →
  Forall (is_post_of p) posts → omap f posts = [].
Proof.
  intros Hf. induction 1 as [|a posts [r ->] _ IH]; [done|].
  simpl. by rewrite Hf.
Qed.

Lemma omap_yields {B} (f : action → option B) ys :
  (∀ ident, f (yield ident) = None) →
  Forall is_yield ys → omap f ys = [].
Proof.
  intros Hf. induction 1 as [|a ys [ident ->] _ IH]; [done|].
  simpl. by rewrite Hf.
Qed.

Section Frame.
Variable config : RCSBClientConfig.

(** The outcome of a call does not depend on the trace so far, which is
    only extended. *)
Lemma post_loop_frame p net fuel attempt tr :
  post_loop config p net fuel attempt tr
  = (λ x, (x.1, tr ++ x.2)) <$> post_loop config p net fuel attempt [].
Proof.
  revert attempt tr. induction fuel as [|fuel IH]; intros attempt tr; [done|].
  cbn [post_loop]. rewrite app_nil_l.
  set (a := post p (net (Z.to_nat attempt))).
  assert (Hgo : ∀ att,
    post_loop config p net fuel att (tr ++ [a])
    = (λ x, (x.1, tr ++ x.2)) <$> post_loop config p net fuel att [a]).
  { intros att. rewrite (IH att (tr ++ [a])), (IH att [a]).
    destruct (post_loop config p net fuel att []) as [[r new]|]; [|done].
    simpl. by rewrite <-app_assoc. }
  assert (Hh : ∀ kind,
    (if attempt >=? max_retries config
     then Some (Raise (ClientError kind), tr ++ [a])
     else post_loop config p net fuel (attempt + 1) (tr ++ [a]))
    = (λ x, (x.1, tr ++ x.2)) <$>
      (if attempt >=? max_retries config
       then Some (Raise (ClientError kind), [a])
       else post_loop config p net fuel (attempt + 1) [a])).
  { intros kind. destruct (attempt >=? max_retries config); [done|apply Hgo]. }
  destruct (net (Z.to_nat attempt)) as [status body|kind]; [|apply Hh].
  destruct (status =? 200).
  { destruct body as [data|[]]; first [done|apply Hh]. }
  destruct (status =? 429).
  { destruct (attempt + 1 >? max_retries config); [done|apply Hgo]. }
  destruct ((500 <=? status) && (status <? 600)); [apply Hh|done].
Qed.

Lemma post_with_retry_frame p net tr :
  _post_with_retry config p net tr
  = ((_post_with_retry config p net []).1,
     tr ++ (_post_with_retry config p net []).2).
Proof.
  unfold _post_with_retry. rewrite post_loop_frame.
  destruct (post_loop config p net _ 0 []) as [[r new]|]; simpl; [done|].
  by rewrite app_nil_r.
Qed.

Lemma yield_items_frame items tr :
  yield_items items tr
  = ((yield_items items []).1, tr ++ (yield_items items []).2).
Proof.
  revert tr. induction items as [|item items IH]; intros tr; simpl.
  { by rewrite app_nil_r. }
  destruct (extract item) as [[ident|]|e]; simpl.
  - rewrite (IH (tr ++ [yield ident])), (IH [yield ident]). simpl.
    by rewrite <-app_assoc.
  - apply IH.
  - by rewrite app_nil_r.
Qed.

Lemma yield_from_frame result_set tr :
  yield_from result_set tr
  = ((yield_from result_set []).1, tr ++ (yield_from result_set []).2).
Proof.
  destruct result_set; simpl; try (by rewrite app_nil_r).
  apply yield_items_frame.
Qed.

End Frame.

Section Schedule.
Variables (config : RCSBClientConfig) (page_size total : Z)
          (net : Z → nat → reply).

(** The request for the page starting at [s], on its own. *)
Definition fetch_page (s : Z) : result json * list action :=
  _post_with_retry config
    {| start := s; rows := Z.min page_size (total - s) |} (net s) [].

(** The page starting at [s] came back with a non-empty result set whose
    items could all be read. *)
Definition page_goes_on (s : Z) : bool :=
  match (fetch_page s).1 with
  | Ok data =>
      match result_set_of data with
      | Ok result_set =>
          truthy result_set
          && match (yield_from result_set []).1 with
             | Ok _ => true
             | Raise _ => false
             end
      | Raise _ => false
      end
  | Raise _ => false
  end.

(** The pages the specification asks for: successive pages of
    [(start, rows)], numbered from 1, while [start < total], up to and
    including the first page that does not go on (empty result set, or an
    error that ends the enumeration). At most [n] pages. *)
Fixpoint successive_pages (n : nat) (s : Z) : list (Z * Z * Z * Z) :=
  match n with
  | O => []
  | S n' =>
      if s <? total then
        (s, Z.min page_size (total - s), s `div` page_size + 1, total)
        :: (if page_goes_on s then successive_pages n' (s + page_size) else [])
      else []
  end.

Lemma page_loop_successive_pages fuel s tr r tr' :
  RcsbClient.page_loop config page_size true total net fuel s tr = Some (r, tr') →
  omap as_on_page tr' = omap as_on_page tr ++ successive_pages fuel s.
Proof.
  revert s tr. induction fuel as [|fuel IH]; intros s tr; [done|].
  cbn [RcsbClient.page_loop successive_pages].
  destruct (Z.ltb_spec s total) as [Hlt|Hge]; cycle 1.
  { intros [= <- <-]. by rewrite app_nil_r. }
  set (p := {| start := s; rows := Z.min page_size (total - s) |}).
  set (call := on_page_call s (Z.min page_size (total - s))
                 (s `div` page_size + 1) total).
  unfold page_goes_on, fetch_page. fold p.
  rewrite (post_with_retry_frame config p (net s) (tr ++ [call])).
  destruct (post_with_retry_trace config p (net s) [])
    as (posts & Hposts & _ & Hall).
  destruct (_post_with_retry config p (net s) []) as [r1 tr1].
  simpl in Hposts. subst tr1. cbn [fst snd].
  assert (Hcalls : omap as_on_page ((tr ++ [call]) ++ posts)
                   = omap as_on_page tr
                     ++ [(s, Z.min page_size (total - s),
                          s `div` page_size + 1, total)]).
  { rewrite !omap_app. by rewrite (omap_posts _ p posts), app_nil_r. }
  destruct r1 as [data|e]; [|by intros [= <- <-]].
  destruct (result_set_of data) as [result_set|e]; [|by intros [= <- <-]].
  destruct (truthy result_set); [|by intros [= <- <-]].
  rewrite (yield_from_frame result_set ((tr ++ [call]) ++ posts)).
  destruct (yield_from_trace result_set []) as (ys & Hys & Hyall).
  destruct (yield_from result_set []) as [r2 tr2].
  simpl in Hys. subst tr2. cbn [fst snd andb].
  assert (Hcalls' : omap as_on_page (((tr ++ [call]) ++ posts) ++ ys)
                    = omap as_on_page tr
                      ++ [(s, Z.min page_size (total - s),
                           s `div` page_size + 1, total)]).
  { rewrite omap_app, Hcalls. by rewrite (omap_yields _ ys), app_nil_r. }
  destruct r2 as [[]|e].
  - intros Hl%IH. rewrite Hl, Hcalls'. by rewrite <-app_assoc.
  - by intros [= <- <-].
Qed.

End Schedule.


(** The body of a reply holding the given records in its result set. *)
Definition page_data (records : list (list (string * json))) : json :=
  JObj [("result_set", JArr (JObj <$> records))].

Definition identifiers_of (records : list (list (string * json))) : list string :=
  omap (λ fields, as_string (candidate fields)) records.

Section FullPages.
Variables (config : RCSBClientConfig) (page_size total : Z)
          (net : Z → nat → reply).

(** A page that is answered at once with a non-empty result set: one
    [on_page] call, one request, its identifiers, and on to the next. *)
Lemma page_loop_full_page fuel s tr records :
  s < total →
  records ≠ [] →
  net s 0%nat = Reply 200 (Ok (page_data records)) →
  RcsbClient.page_loop config page_size true total net (S fuel) s tr
  = RcsbClient.page_loop config page_size true total net fuel (s + page_size)
      (tr ++ [on_page_call s (Z.min page_size (total - s))
                (s `div` page_size + 1) total;
              post {| start := s; rows := Z.min page_size (total - s) |}
                (Reply 200 (Ok (page_data records)))]
          ++ (yield <$> identifiers_of records)).
Proof.
  intros Hlt Hne Hnet. cbn [RcsbClient.page_loop].
  destruct (Z.ltb_spec s total); [|lia].
  erewrite post_with_retry_first_try by done. rewrite Hnet.
  assert (truthy (JArr (JObj <$> records)) = true) as Ht by (by destruct records).
  assert (result_set_of (page_data records) = Ok (JArr (JObj <$> records))) as ->.
  { unfold page_data, result_set_of.
    change (lookup_field "result_set" [("result_set", JArr (JObj <$> records))])
      with (JArr (JObj <$> records)).
    unfold or_else at 1. by rewrite Ht. }
  rewrite Ht. cbn [yield_from].
  rewrite yield_items_records. unfold identifiers_of.
  by rewrite <-!app_assoc.
Qed.

Lemma page_loop_end fuel s tr :
  total ≤ s →
  RcsbClient.page_loop config page_size true total net (S fuel) s tr
  = Some (Ok (), tr).
Proof. intros Hge. cbn [RcsbClient.page_loop]. by destruct (Z.ltb_spec s total); [lia|]. Qed.

End FullPages.

Lemma omap_fmap_yield {B} (f : action → option B) (l : list string) :
  (∀ ident, f (yield ident) = None) → omap f (yield <$> l) = [].
Proof. intros Hf. induction l as [|x l IH]; [done|]. simpl. by rewrite Hf. Qed.

(** A server with 2500 entries, one record per page. *)
Definition one_record_pages (s : Z) (k : nat) : reply :=
  Reply 200 (Ok (page_data [[("identifier", JStr "1ABC")]])).



End RcsbClientFacts.

(** ** The download loop of [run_all] *)

Module MainFacts.
Import Downloader Main DownloaderFacts.

(** The events [on_event] counts. *)
Definition is_success (ev : event) : Prop :=
  event_name ev ∈ ["download_ok"; "download_skip"].

#[export] Instance is_success_dec ev : Decision (is_success ev).
Proof. unfold is_success. apply _. Defined.

Definition successes (log : list event) : nat :=
  length (filter is_success log).

Lemma successes_app l1 l2 : successes (l1 ++ l2) = (successes l1 + successes l2)%nat.
Proof. unfold successes. by rewrite filter_app, length_app. Qed.

Lemma successes_cons ev l :
  successes (ev :: l) = ((if bool_decide (is_success ev) then 1 else 0) + successes l)%nat.
Proof.
  unfold successes. rewrite filter_cons.
  case_bool_decide; [by rewrite decide_True|by rewrite decide_False].
Qed.

Lemma is_success_path ev : is_success ev ↔ is_Some (success_path ev).
Proof.
  unfold is_success.
  destruct ev; simpl; split; intros Hs; try (by eexists);
    try (by destruct Hs); try (by repeat constructor);
    by decompose_list_elem_of.
Qed.

Lemma successes_omap evs : successes evs = length (omap success_path evs).
Proof.
  induction evs as [|ev evs IH]; [done|].
  rewrite successes_cons, IH.
  change (omap success_path (ev :: evs))
    with (match success_path ev with
          | Some y => y :: omap success_path evs
          | None => omap success_path evs
          end).
  pose proof (is_success_path ev) as Hs.
  case_bool_decide as Hd.
  - apply Hs in Hd as [path ->]. done.
  - destruct (success_path ev) eqn:Hp; [|done].
    exfalso. apply Hd, Hs. by eexists.
Qed.

Lemma count_named_app name l1 l2 :
  count_named name (l1 ++ l2) = (count_named name l1 + count_named name l2)%nat.
Proof. unfold count_named. by rewrite filter_app, length_app. Qed.

Lemma count_named_outcomes name evs :
  name ∉ ["download_skip"; "download_ok"; "download_error"] →
  Forall is_outcome evs → count_named name evs = 0%nat.
Proof.
  intros Hname. induction 1 as [|ev evs Hev _ IH]; [done|].
  unfold count_named in *. rewrite filter_cons_False; [done|].
  intros <-. by apply Hname.
Qed.

(** Handing a list of events to the closure [on_event]: each is emitted,
    and the successes among them are counted. *)
Lemma foldl_on_event st evs :
  foldl (λ st ev, on_event ev st) st evs
  = {| attempt_order := attempt_order st; idx := idx st;
       success_count := (success_count st + successes evs)%nat;
       attempted_set := attempted_set st; attempt_file := attempt_file st;
       fs := fs st; log := log st ++ evs; sent := sent st |}.
Proof.
  revert st. induction evs as [|ev evs IH]; intros st.
  { simpl. rewrite app_nil_r, Nat.add_0_r. by destruct st. }
  cbn [foldl]. rewrite IH, successes_cons. unfold on_event, emit.
  fold (is_success ev).
  destruct (decide (is_success ev)) as [Hs|Hs].
  - rewrite !bool_decide_eq_true_2 by done. simpl.
    f_equal; [lia|by rewrite <-app_assoc].
  - rewrite !bool_decide_eq_false_2 by done. simpl.
    f_equal. by rewrite <-app_assoc.
Qed.


(** *** The log never shows more successes than the target

    [within_target target new]: at every point of the log [new], the
    successes so far are at most [target], and every [download_start]
    announces a batch no larger than what was still needed then. *)
Definition within_target (target : nat) (new : list event) : Prop :=
  ∀ pre post, new = pre ++ post →
    (successes pre ≤ target)%nat
    ∧ ∀ count o f post', post = download_start count o f :: post' →
        (count ≤ target - successes pre)%nat.

Lemma within_target_nil target : within_target target [].
Proof.
  intros pre post Heq. symmetry in Heq. apply app_eq_nil in Heq as [-> ->].
  split; [unfold successes; simpl; lia|done].
Qed.

Lemma within_target_app target new evs :
  within_target target new →
  (∀ pre post, evs = pre ++ post →
     (successes new + successes pre ≤ target)%nat
     ∧ ∀ count o f post', post = download_start count o f :: post' →
         (count ≤ target - (successes new + successes pre))%nat) →
  within_target target (new ++ evs).
Proof.
  intros Hnew Hevs pre post Heq.
  apply app_eq_inv in Heq as [(k & -> & ->)|(k & -> & ->)].
  - destruct (Hnew pre k eq_refl) as [Hle Hstart]. split; [done|].
    destruct k as [|a k].
    + intros count o f post' Hpost. simpl in Hpost.
      destruct (Hevs [] evs eq_refl) as [_ Hs].
      specialize (Hs count o f post' Hpost).
      rewrite app_nil_r in Hs. unfold successes at 2 in Hs. simpl in Hs.
      by rewrite Nat.add_0_r in Hs.
    + intros count o f post' [= -> <-]. by eapply Hstart.
  - destruct (Hevs k post eq_refl) as [Hle Hstart].
    rewrite successes_app. done.
Qed.

Lemma successes_outcomes_prefix pre post :
  (successes pre ≤ successes (pre ++ post))%nat.
Proof. rewrite successes_app. lia. Qed.

(** Appending the outcomes of a batch that keeps the count within the
    target. *)
Lemma within_target_outcomes target new evs :
  within_target target new →
  Forall is_outcome evs →
  (successes new + successes evs ≤ target)%nat →
  within_target target (new ++ evs).
Proof.
  intros Hnew Ho Hle. apply within_target_app; [done|].
  intros pre post ->. split.
  - pose proof (successes_outcomes_prefix pre post). lia.
  - intros count o f post' ->.
    apply Forall_app in Ho as [_ Ho]. apply Forall_cons in Ho as [Ho _].
    unfold is_outcome in Ho. simpl in Ho. by decompose_list_elem_of.
Qed.

(** Appending one event that is neither a success nor a batch start. *)
Lemma within_target_other target new ev :
  within_target target new →
  ¬ is_success ev →
  (∀ count o f, ev ≠ download_start count o f) →
  within_target target (new ++ [ev]).
Proof.
  intros Hnew Hns Hnd.
  destruct (Hnew new [] (eq_sym (app_nil_r new))) as [Hle _].
  apply within_target_app; [done|].
  intros pre post Heq.
  assert (successes pre = 0%nat) as ->.
  { destruct pre as [|a pre]; [done|].
    injection Heq as <- Heq. symmetry in Heq.
    apply app_eq_nil in Heq as [-> ->].
    rewrite successes_cons, bool_decide_eq_false_2 by done. done. }
  split; [lia|]. intros count o f post' ->.
  destruct pre as [|a pre].
  - injection Heq as Heq _. exfalso. by eapply Hnd.
  - injection Heq as _ Heq. by destruct pre.
Qed.

(** Appending the start of a batch that is no larger than needed. *)
Lemma within_target_start target new count o f :
  within_target target new →
  (count ≤ target - successes new)%nat →
  within_target target (new ++ [download_start count o f]).
Proof.
  intros Hnew Hc.
  destruct (Hnew new [] (eq_sym (app_nil_r new))) as [Hle _].
  apply within_target_app; [done|].
  intros pre post Heq.
  assert (successes pre = 0%nat) as ->.
  { destruct pre as [|a pre]; [done|].
    injection Heq as <- Heq. symmetry in Heq.
    apply app_eq_nil in Heq as [-> ->]. done. }
  split; [lia|]. intros count' o' f' post' ->.
  destruct pre as [|a pre].
  - injection Heq as <- _ _ _. lia.
  - injection Heq as _ Heq. by destruct pre.
Qed.

Lemma successes_snoc_other new ev :
  ¬ is_success ev → successes (new ++ [ev]) = successes new.
Proof.
  intros Hns. rewrite successes_app, successes_cons.
  rewrite bool_decide_eq_false_2 by done. unfold successes at 2. simpl. lia.
Qed.

Section Loop.
Context `{RandomSource}.
Variables (all_ids : list string) (success_target : nat) (seed : option Z)
          (out_dir format : string)
          (ω : nat → nat) (net : nat → nat → nat → response).

Abbreviation batch_of := (Main.batch_of success_target).
Abbreviation download_batch :=
  (Main.download_batch success_target out_dir format net).
Abbreviation top_up := (Main.top_up success_target seed ω).
Abbreviation loop_body :=
  (Main.loop_body all_ids success_target seed out_dir format ω net).
Abbreviation download_loop :=
  (Main.download_loop all_ids success_target seed out_dir format ω net).
Abbreviation reaches :=
  (Main.reaches all_ids success_target seed out_dir format ω net).
Abbreviation passes_left := (Main.passes_left all_ids).

Lemma length_batch_of st :
  (length (batch_of st) ≤ success_target - success_count st)%nat.
Proof. unfold Main.batch_of. rewrite length_take. lia. Qed.

Lemma length_batch_of_queue st :
  (idx st + length (batch_of st) ≤ length (attempt_order st) `max` idx st)%nat.
Proof. unfold Main.batch_of. rewrite length_take, length_drop. lia. Qed.

(** One batch: a [download_start] event with the size of the batch, then
    the outcomes of its downloads, of which no more than the size of the
    batch are successes; [idx] moves past the batch. *)
Lemma download_batch_spec pass st :
  match download_batch pass st with
  | Continue st' =>
      ∃ evs, Forall is_outcome evs
        ∧ (successes evs ≤ length (batch_of st))%nat
        ∧ log st' = log st
                    ++ download_start (length (batch_of st)) out_dir format :: evs
        ∧ success_count st' = (success_count st + successes evs)%nat
        ∧ idx st' = (idx st + length (batch_of st))%nat
        ∧ attempt_order st' = attempt_order st
        ∧ attempted_set st' = attempted_set st
  | Break _ => False
  | Abort e st' =>
      st' = emit (download_start (length (batch_of st)) out_dir format) st
  end.
Proof.
  unfold Main.download_batch.
  set (batch := batch_of st).
  set (st1 := emit (download_start (length batch) out_dir format) st).
  change (Main.batch_of success_target st1) with batch.
  set (w := {| files := fs st1; events := []; requests := sent st1 |}).
  destruct (download_entries_events batch out_dir format None (net pass) w)
    as (evs & Hev & Ho & Hl).
  destruct (download_entries batch out_dir format None true (net pass) w)
    as [[paths|e] w']; [|done].
  unfold emitted in Hev. simpl in Hev. rewrite foldl_on_event. simpl.
  exists evs. rewrite Hev, <-app_assoc.
  split_and!; try done; by rewrite successes_omap.
Qed.

(** The top-up: the first [remaining_needed] identifiers of the shuffled
    pool are appended to the attempt list and marked as attempted. *)
Lemma top_up_spec pass pool st :
  let topup := take (success_target - success_count st)
                 (shuffle (make_rng seed (ω pass)) pool) in
  attempt_order (top_up pass pool st) = attempt_order st ++ topup
  ∧ attempted_set (top_up pass pool st) = attempted_set st ∪ list_to_set topup
  ∧ idx (top_up pass pool st) = idx st
  ∧ success_count (top_up pass pool st) = success_count st
  ∧ log (top_up pass pool st)
    = log st ++ [attempt_topup (length topup) (length (attempt_order st ++ topup))].
Proof. done. Qed.

(** *** One pass of the loop *)

(** What holds at the head of every pass: [idx] is within the attempt
    list, the counter is the number of successes logged since the loop was
    entered with log [log0], the log is within the target, and no
    [attempt_exhausted] was emitted. *)
Definition loop_invariant (log0 : list event) (st : loop_state) : Prop :=
  (idx st ≤ length (attempt_order st))%nat
  ∧ ∃ new, log st = log0 ++ new
      ∧ success_count st = successes new
      ∧ within_target success_target new
      ∧ count_named "attempt_exhausted" new = 0%nat.

(** What holds of the log at every point, also after the loop is left. *)
Definition log_invariant (log0 : list event) (st : loop_state) : Prop :=
  ∃ new, log st = log0 ++ new
    ∧ success_count st = successes new
    ∧ within_target success_target new.

Lemma loop_invariant_log log0 st : loop_invariant log0 st → log_invariant log0 st.
Proof. intros (_ & new & ? & ? & ? & _). by exists new. Qed.

Lemma emit_start_keeps log0 st new :
  log st = log0 ++ new →
  success_count st = successes new →
  within_target success_target new →
  log_invariant log0
    (emit (download_start (length (batch_of st)) out_dir format) st).
Proof.
  intros Hlog Hcount Hwithin.
  exists (new ++ [download_start (length (batch_of st)) out_dir format]).
  split_and!.
  - simpl. by rewrite Hlog, <-app_assoc.
  - simpl. rewrite successes_snoc_other; [done|].
    unfold is_success. simpl. intros Hin. by decompose_list_elem_of.
  - apply within_target_start; [done|]. rewrite <-Hcount.
    apply length_batch_of.
Qed.

Lemma emit_other_keeps log0 st ev :
  log_invariant log0 st →
  ¬ is_success ev →
  (∀ count o f, ev ≠ download_start count o f) →
  log_invariant log0 (emit ev st).
Proof.
  intros (new & Hlog & Hcount & Hwithin) Hns Hnd.
  exists (new ++ [ev]). split_and!.
  - simpl. by rewrite Hlog, <-app_assoc.
  - simpl. by rewrite successes_snoc_other.
  - by apply within_target_other.
Qed.

Lemma pool_shrinks (attempted : gset string) (topup : list string) :
  topup ≠ [] →
  topup ⊆ filter (λ e, e ∉ attempted) all_ids →
  (length (filter (λ e, e ∉ attempted ∪ list_to_set topup) all_ids)
   < length (filter (λ e, e ∉ attempted) all_ids))%nat.
Proof.
  intros Hne Hsub. destruct topup as [|x topup]; [done|].
  rewrite <-(list_filter_filter_l (λ e, e ∉ attempted ∪ list_to_set (x :: topup))
               (λ e, e ∉ attempted)) by set_solver.
  apply (length_filter_lt _ _ x); [apply Hsub; left|set_solver].
Qed.

(** A batch: the invariant is kept, and [idx] moves on by the size of the
    batch. *)
Lemma download_batch_invariant log0 pass st new :
  (idx st + length (batch_of st) ≤ length (attempt_order st))%nat →
  log st = log0 ++ new →
  success_count st = successes new →
  within_target success_target new →
  count_named "attempt_exhausted" new = 0%nat →
  match download_batch pass st with
  | Continue st' =>
      loop_invariant log0 st'
      ∧ idx st' = (idx st + length (batch_of st))%nat
      ∧ attempt_order st' = attempt_order st
      ∧ attempted_set st' = attempted_set st
  | Break _ => False
  | Abort e st' =>
      st' = emit (download_start (length (batch_of st)) out_dir format) st
  end.
Proof.
  intros Hidx Hlog Hcount Hwithin Hex.
  pose proof (download_batch_spec pass st) as Hspec.
  pose proof (length_batch_of st) as Hlen.
  destruct (download_batch pass st) as [st'| |]; [|done|done].
  destruct Hspec as (evs & Ho & Hs & Hlog' & Hcount' & Hidx' & Horder & Hatt).
  split_and!; [|done..].
  split; [rewrite Hidx', Horder; lia|].
  exists (new ++ download_start (length (batch_of st)) out_dir format :: evs).
  assert (Hnd : ¬ is_success (download_start (length (batch_of st)) out_dir format)).
  { unfold is_success. simpl. intros Hin. by decompose_list_elem_of. }
  split_and!.
  - by rewrite Hlog', Hlog, <-app_assoc.
  - rewrite Hcount', Hcount, successes_app, successes_cons.
    by rewrite bool_decide_eq_false_2.
  - change (download_start (length (batch_of st)) out_dir format :: evs)
      with ([download_start (length (batch_of st)) out_dir format] ++ evs).
    rewrite app_assoc. apply within_target_outcomes; [|done|].
    + apply within_target_start; [done|]. rewrite <-Hcount. done.
    + rewrite successes_snoc_other by done.
      destruct (Hwithin new [] (eq_sym (app_nil_r new))) as [Hle _]. lia.
  - rewrite count_named_app, Hex. unfold count_named.
    rewrite filter_cons_False by done.
    fold (count_named "attempt_exhausted" evs).
    rewrite count_named_outcomes; [done| |done].
    intros Hin. by decompose_list_elem_of.
Qed.

(** A pass that continues keeps the invariant and uses up one of the
    passes left; a pass that breaks found the queue and the pool empty and
    emitted [attempt_exhausted]; a pass that raises did so in
    [download_entries], after the start of its batch was emitted. *)
Lemma loop_body_invariant log0 pass st :
  loop_invariant log0 st →
  (success_count st < success_target)%nat →
  match loop_body pass st with
  | Continue st' =>
      loop_invariant log0 st' ∧ (passes_left st' < passes_left st)%nat
  | Break st' =>
      st' = emit (attempt_exhausted (length (attempt_order st))
                    (success_count st) success_target) st
      ∧ drop (idx st) (attempt_order st) = []
      ∧ filter (λ e, e ∉ attempted_set st) all_ids = []
      ∧ log_invariant log0 st'
  | Abort e st' =>
      success_count st' = success_count st
      ∧ log_invariant log0 st'
      ∧ ∃ extra, log st' = log st ++ extra
          ∧ successes extra = 0%nat
          ∧ count_named "attempt_exhausted" extra = 0%nat
  end.
Proof.
  intros (Hidx & new & Hlog & Hcount & Hwithin & Hex) Hlt.
  unfold Main.loop_body.
  case_bool_decide as Hqueue.
  - (* the queue is empty *)
    apply drop_nil_inv in Hqueue as Hge.
    assert (idx st = length (attempt_order st)) as Hidx' by lia.
    case_bool_decide as Hpool.
    { rewrite drop_ge by lia. split_and!; [done..|].
      apply emit_other_keeps; [by exists new| |done].
      unfold is_success. simpl. intros Hin. by decompose_list_elem_of. }
    set (pool := filter (λ e, e ∉ attempted_set st) all_ids) in *.
    set (topup := take (success_target - success_count st)
                    (shuffle (make_rng seed (ω pass)) pool)).
    destruct (top_up_spec pass pool st) as (Horder & Hatt & Hidx1 & Hcount1 & Hlog1).
    fold topup in Horder, Hatt, Hlog1.
    set (st1 := top_up pass pool st) in *.
    assert (Hbatch : batch_of st1 = topup).
    { unfold Main.batch_of. rewrite Horder, Hidx1, Hcount1, Hidx'.
      rewrite drop_app_length. apply take_ge.
      unfold topup. rewrite length_take. lia. }
    assert (Htopup : topup ≠ []).
    { unfold topup. intros [Hz|Hs]%take_nil_inv; [lia|].
      apply (f_equal length) in Hs. rewrite length_shuffle in Hs.
      by destruct pool. }
    assert (Hsub : topup ⊆ pool).
    { intros x Hx%(subseteq_take _ _ x).
      by rewrite (shuffle_Permutation (make_rng seed (ω pass)) pool) in Hx. }
    pose proof (download_batch_invariant log0 pass st1
                  (new ++ [attempt_topup (length topup)
                             (length (attempt_order st ++ topup))])) as Hb.
    assert (Hns : ¬ is_success (attempt_topup (length topup)
                                  (length (attempt_order st ++ topup)))).
    { unfold is_success. simpl. intros Hin. by decompose_list_elem_of. }
    rewrite Hbatch in Hb.
    destruct (download_batch pass st1) as [st'|st'|e st'].
    + destruct Hb as (Hinv & Hidx2 & Horder2 & Hatt2).
      * rewrite Hidx1, Horder, length_app. lia.
      * by rewrite Hlog1, Hlog, <-app_assoc.
      * by rewrite Hcount1, Hcount, successes_snoc_other.
      * by apply within_target_other.
      * rewrite count_named_app, Hex. done.
      * split; [done|]. unfold Main.passes_left.
        rewrite Hatt2, Hatt, Hidx2, Horder2, Hidx1, Horder, length_app.
        pose proof (pool_shrinks (attempted_set st) topup Htopup Hsub).
        fold pool in H0 |- *. lia.
    + destruct Hb.
      * rewrite Hidx1, Horder, length_app. lia.
      * by rewrite Hlog1, Hlog, <-app_assoc.
      * by rewrite Hcount1, Hcount, successes_snoc_other.
      * by apply within_target_other.
      * rewrite count_named_app, Hex. done.
    + rewrite Hb.
      * split; [done|]. split.
        { rewrite <-Hbatch.
          apply (emit_start_keeps log0 st1
                   (new ++ [attempt_topup (length topup)
                              (length (attempt_order st ++ topup))])).
          - by rewrite Hlog1, Hlog, <-app_assoc.
          - by rewrite Hcount1, Hcount, successes_snoc_other.
          - by apply within_target_other. }
        exists [attempt_topup (length topup) (length (attempt_order st ++ topup));
                download_start (length topup) out_dir format].
        split_and!; [|done|done].
        trans (log st1 ++ [download_start (length topup) out_dir format]);
          [done|].
        rewrite Hlog1. by rewrite <-app_assoc.
      * rewrite Hidx1, Horder, length_app. lia.
      * by rewrite Hlog1, Hlog, <-app_assoc.
      * by rewrite Hcount1, Hcount, successes_snoc_other.
      * by apply within_target_other.
      * rewrite count_named_app, Hex. done.
  - (* identifiers are queued *)
    assert (Hq : (1 ≤ length (batch_of st))%nat).
    { unfold Main.batch_of. rewrite length_take.
      destruct (drop (idx st) (attempt_order st)); [done|]. simpl. lia. }
    pose proof (length_batch_of_queue st) as Hq'.
    pose proof (download_batch_invariant log0 pass st new) as Hb.
    destruct (download_batch pass st) as [st'|st'|e st'].
    + destruct Hb as (Hinv & Hidx2 & Horder2 & Hatt2); [lia|done..|].
      split; [done|]. unfold Main.passes_left.
      rewrite Hatt2, Hidx2, Horder2. lia.
    + destruct Hb; [lia|done..].
    + rewrite Hb; [|lia|done..]. split; [done|].
      split; [by apply (emit_start_keeps log0 st new)|].
      exists [download_start (length (batch_of st)) out_dir format].
      by split_and!.
Qed.


(** *** The whole loop *)

Lemma initial_invariant order files log0 :
  loop_invariant log0 (initial order files log0).
Proof.
  split; [simpl; lia|]. exists []. split_and!; try done.
  - simpl. by rewrite app_nil_r.
  - apply within_target_nil.
Qed.

Lemma reaches_invariant log0 pass st pass' st' :
  reaches pass st pass' st' →
  loop_invariant log0 st → loop_invariant log0 st'.
Proof.
  induction 1 as [|pass st st1 pass'' st'' Hlt Hbody _ IH]; [done|].
  intros Hinv. apply IH.
  pose proof (loop_body_invariant log0 pass st Hinv Hlt) as Hb.
  rewrite Hbody in Hb. by destruct Hb.
Qed.

(** The loop ends within [passes_left] passes. *)
Lemma download_loop_total log0 fuel pass st :
  loop_invariant log0 st →
  (passes_left st < fuel)%nat →
  is_Some (download_loop fuel pass st).
Proof.
  revert pass st. induction fuel as [|fuel IH]; intros pass st Hinv Hfuel; [lia|].
  cbn [Main.download_loop]. case_bool_decide as Hlt; [|done].
  pose proof (loop_body_invariant log0 pass st Hinv Hlt) as Hb.
  destruct (loop_body pass st) as [st'|st'|e st']; [|done..].
  destruct Hb as [Hinv' Hless]. apply IH; [done|lia].
Qed.

(** How the loop is left. *)
Lemma download_loop_exit log0 fuel pass st exit st' :
  loop_invariant log0 st →
  download_loop fuel pass st = Some (exit, st') →
  ∃ new, log st' = log0 ++ new
    ∧ success_count st' = successes new
    ∧ within_target success_target new
    ∧ match exit with
      | Done =>
          success_count st' = success_target
          ∧ count_named "attempt_exhausted" new = 0%nat
      | Exhausted =>
          (success_count st' < success_target)%nat
          ∧ count_named "attempt_exhausted" new = 1%nat
          ∧ drop (idx st') (attempt_order st') = []
          ∧ filter (λ e, e ∉ attempted_set st') all_ids = []
      | Raised _ => count_named "attempt_exhausted" new = 0%nat
      end.
Proof.
  revert pass st. induction fuel as [|fuel IH]; intros pass st Hinv; [done|].
  cbn [Main.download_loop]. case_bool_decide as Hlt.
  - pose proof (loop_body_invariant log0 pass st Hinv Hlt) as Hb.
    destruct Hinv as (Hidx & new & Hlog & Hcount & Hwithin & Hex).
    destruct (loop_body pass st) as [st1|st1|e st1].
    + destruct Hb as [Hinv' _]. by apply IH.
    + intros [= <- <-].
      destruct Hb as (-> & Hqueue & Hpool & Hlogi).
      exists (new ++ [attempt_exhausted (length (attempt_order st))
                        (success_count st) success_target]).
      assert (Hns : ¬ is_success (attempt_exhausted (length (attempt_order st))
                                    (success_count st) success_target)).
      { unfold is_success. simpl. intros Hin. by decompose_list_elem_of. }
      split_and!; simpl; try done.
      * by rewrite Hlog, <-app_assoc.
      * by rewrite successes_snoc_other.
      * by apply within_target_other.
      * rewrite count_named_app, Hex. done.
    + intros [= <- <-].
      destruct Hb as (Hc & (new' & Hlog' & Hcount' & Hwithin') & extra & Hextra & _ & Hex').
      exists new'. split_and!; try done.
      rewrite Hextra, Hlog, <-app_assoc in Hlog'.
      apply app_inv_head in Hlog' as <-.
      by rewrite count_named_app, Hex, Hex'.
  - intros [= <- <-].
    destruct Hinv as (Hidx & new & Hlog & Hcount & Hwithin & Hex).
    exists new. split_and!; try done.
    destruct (Hwithin new [] (eq_sym (app_nil_r new))) as [Hle _]. lia.
Qed.

(** The pass that breaks emits [attempt_exhausted] last, with the length
    of the attempt list and the counter as they are. *)
Lemma download_loop_exhausted_last fuel pass st st' :
  download_loop fuel pass st = Some (Exhausted, st') →
  ∃ log1, log st'
          = log1 ++ [attempt_exhausted (length (attempt_order st'))
                       (success_count st') success_target].
Proof.
  revert pass st. induction fuel as [|fuel IH]; intros pass st; [done|].
  cbn [Main.download_loop]. case_bool_decide as Hlt; [|done].
  destruct (loop_body pass st) as [st1|st1|e st1] eqn:Hbody; [by apply IH| |done].
  intros [= <-]. unfold Main.loop_body in Hbody.
  case_bool_decide as Hqueue.
  - case_bool_decide as Hpool.
    + injection Hbody as <-. by eexists.
    + pose proof (download_batch_spec pass
                    (top_up pass (filter (λ e, e ∉ attempted_set st) all_ids) st))
        as Hs.
      by rewrite Hbody in Hs.
  - pose proof (download_batch_spec pass st) as Hs. by rewrite Hbody in Hs.
Qed.

(** An exception leaves the loop in a pass that was entered below the
    target and counted nothing. *)
Lemma download_loop_raised_short log0 fuel pass st e st' :
  loop_invariant log0 st →
  download_loop fuel pass st = Some (Raised e, st') →
  (success_count st' < success_target)%nat.
Proof.
  revert pass st. induction fuel as [|fuel IH]; intros pass st Hinv; [done|].
  cbn [Main.download_loop]. case_bool_decide as Hlt; [|done].
  pose proof (loop_body_invariant log0 pass st Hinv Hlt) as Hb.
  destruct (loop_body pass st) as [st1|st1|e1 st1]; [|done|].
  - destruct Hb as [Hinv' _]. by apply IH.
  - intros [= -> ->]. destruct Hb as [-> _]. done.
Qed.

(** With the queue and the pool empty below the target, the loop stops at
    once. *)
Lemma download_loop_break fuel pass st :
  (success_count st < success_target)%nat →
  drop (idx st) (attempt_order st) = [] →
  filter (λ e, e ∉ attempted_set st) all_ids = [] →
  download_loop (S fuel) pass st
  = Some (Exhausted,
          emit (attempt_exhausted (length (attempt_order st))
                  (success_count st) success_target) st).
Proof.
  intros Hlt Hqueue Hpool. cbn [Main.download_loop]. unfold Main.loop_body.
  by rewrite Hqueue, Hpool, !bool_decide_eq_true_2.
Qed.

(** The outcome of the loop does not depend on the fuel, once it is
    enough. *)
Lemma download_loop_more_fuel fuel fuel' pass st r :
  download_loop fuel pass st = Some r →
  (fuel ≤ fuel')%nat →
  download_loop fuel' pass st = Some r.
Proof.
  revert fuel' pass st. induction fuel as [|fuel IH]; intros fuel' pass st; [done|].
  intros Hl Hle. destruct fuel' as [|fuel']; [lia|].
  cbn [Main.download_loop] in *. case_bool_decide as Hlt; [|done].
  destruct (loop_body pass st) as [st1|st1|e st1]; [|done..].
  apply IH; [done|lia].
Qed.

End Loop.


(** C2. In the download loop, every batch handed to the fetch engine has at
    most [target - success] identifiers when it is issued, and the success
    counter (the number of [download_ok] and [download_skip] events seen)
    never exceeds the target: not at the head of any pass, not at any point
    of the log of events in between, and not when the loop is left. *)
Theorem batches_never_overshoot `{RandomSource}
    (all_ids : list string) (success_target : nat) (seed : option Z)
    (out_dir format : string) (ω : nat → nat)
    (net : nat → nat → nat → response)
    (order : list string) (files : filesystem) (log0 : list event) :
  let st0 := initial order files log0 in
  (∀ pass st,
     reaches all_ids success_target seed out_dir format ω net 0 st0 pass st →
     (length (batch_of success_target st)
      ≤ success_target - success_count st)%nat
     ∧ (success_count st ≤ success_target)%nat
     ∧ log_invariant success_target log0 st)
  ∧ (∀ fuel exit st,
       download_loop all_ids success_target seed out_dir format ω net
         fuel 0 st0 = Some (exit, st) →
       (success_count st ≤ success_target)%nat
       ∧ log_invariant success_target log0 st).
Proof.
  intros st0. split.
  - intros pass st Hreach.
    pose proof (reaches_invariant all_ids success_target seed out_dir format
                  ω net log0 0 st0 pass st Hreach
                  (initial_invariant success_target order files log0)) as Hinv.
    apply loop_invariant_log in Hinv as Hlog.
    split_and!; [apply length_batch_of| |done].
    destruct Hlog as (new & _ & -> & Hwithin).
    by destruct (Hwithin new [] (eq_sym (app_nil_r new))).
  - intros fuel exit st Hloop.
    apply (download_loop_exit all_ids success_target seed out_dir format
             ω net log0) in Hloop as (new & Hlog & Hcount & Hwithin & _);
      [|apply initial_invariant].
    split; [|by exists new]. rewrite Hcount.
    by destruct (Hwithin new [] (eq_sym (app_nil_r new))).
Qed.

(** C3. The download loop always ends: from the state in which it is
    entered, [passes_left] passes are enough, whatever the downloads do,
    and more fuel does not change its outcome. Whenever the loop is at its
    head with [success < target], the queue empty and no identifier of the
    universe left unattempted, it emits [attempt_exhausted] and stops
    there. However the loop is left, the counter is the number of
    successes logged since it was entered; it is left normally only with
    [success = target], and it gives up only with [success < target], the
    queue and the pool empty, and [attempt_exhausted] as the last event;
    [attempt_exhausted] is emitted exactly once in a run that gives up and
    never otherwise. *)
Theorem download_loop_terminates `{RandomSource}
    (all_ids : list string) (success_target : nat) (seed : option Z)
    (out_dir format : string) (ω : nat → nat)
    (net : nat → nat → nat → response)
    (order : list string) (files : filesystem) (log0 : list event) :
  let st0 := initial order files log0 in
  let loop := download_loop all_ids success_target seed out_dir format ω net in
  (∀ fuel, (passes_left all_ids st0 < fuel)%nat → is_Some (loop fuel 0%nat st0))
  ∧ (∀ fuel fuel' r,
       loop fuel 0%nat st0 = Some r → (fuel ≤ fuel')%nat →
       loop fuel' 0%nat st0 = Some r)
  ∧ (∀ fuel pass st,
       (success_count st < success_target)%nat →
       drop (idx st) (attempt_order st) = [] →
       filter (λ e, e ∉ attempted_set st) all_ids = [] →
       loop (S fuel) pass st
       = Some (Exhausted,
               emit (attempt_exhausted (length (attempt_order st))
                       (success_count st) success_target) st))
  ∧ (∀ fuel exit st,
       loop fuel 0%nat st0 = Some (exit, st) →
       ∃ new, log st = log0 ++ new
         ∧ success_count st = successes new
         ∧ match exit with
           | Done =>
               success_count st = success_target
               ∧ count_named "attempt_exhausted" new = 0%nat
           | Exhausted =>
               count_named "attempt_exhausted" new = 1%nat
               ∧ (success_count st < success_target)%nat
               ∧ drop (idx st) (attempt_order st) = []
               ∧ filter (λ e, e ∉ attempted_set st) all_ids = []
               ∧ ∃ log1,
                   log st
                   = log1 ++ [attempt_exhausted (length (attempt_order st))
                                (success_count st) success_target]
           | Raised _ =>
               (success_count st < success_target)%nat
               ∧ count_named "attempt_exhausted" new = 0%nat
           end).
Proof.
  intros st0 loop. split_and!.
  - intros fuel Hfuel.
    by eapply download_loop_total; [apply initial_invariant|].
  - intros fuel fuel' r. apply download_loop_more_fuel.
  - intros fuel pass st. apply download_loop_break.
  - intros fuel exit st Hloop.
    pose proof (download_loop_exit all_ids success_target seed out_dir format
                  ω net log0 _ _ _ _ _
                  (initial_invariant success_target order files log0) Hloop)
      as (new & Hlog & Hcount & _ & Hexit).
    exists new. split_and!; [done..|].
    destruct exit as [| |e].
    + done.
    + destruct Hexit as (? & ? & ? & ?). split_and!; try done.
      by eapply download_loop_exhausted_last.
    + split; [|done].
      by eapply download_loop_raised_short;
        [apply (initial_invariant success_target order files log0)|].
Qed.


(** Two runs on a universe of two identifiers, of which one was sampled:
    a server that answers 404 to everything, and one that answers the first
    batch with 404 and later ones with the file. *)
Definition always_404 (pass t k : nat) : response := Response 404 "".

Definition second_batch_ok (pass t k : nat) : response :=
  match pass with
  | O => Response 404 ""
  | _ => Response 200 "ATOM"
  end.

Definition after_first_pass : loop_state :=
  match loop_body ["1ABC"; "2DEF"] 1 (Some 7) "downloads" "pdb" (λ _, 0%nat)
          second_batch_ok 0 (initial ["1ABC"] ∅ []) with
  | Continue st | Break st | Abort _ st => st
  end.

Lemma batches_never_overshoot_witness :
  (length (batch_of 1 after_first_pass) ≤ 1 - success_count after_first_pass)%nat
  ∧ (success_count after_first_pass ≤ 1)%nat
  ∧ log_invariant 1 [] after_first_pass.
Proof.
  apply (proj1 (batches_never_overshoot ["1ABC"; "2DEF"] 1 (Some 7)
                  "downloads" "pdb" (λ _, 0%nat) second_batch_ok
                  ["1ABC"] ∅ []) 1%nat after_first_pass).
  eapply reaches_next; [vm_compute; lia|by vm_compute|apply reaches_here].
Defined.

Lemma download_loop_terminates_witness :
  is_Some (download_loop ["1ABC"; "2DEF"] 1 (Some 7) "downloads" "pdb"
             (λ _, 0%nat) always_404 3 0 (initial ["1ABC"] ∅ [])).
Proof.
  apply (proj1 (download_loop_terminates ["1ABC"; "2DEF"] 1 (Some 7)
                  "downloads" "pdb" (λ _, 0%nat) always_404 ["1ABC"] ∅ [])).
  vm_compute. lia.
Defined.

(** The run against the server that always answers 404, in full: one
    failed batch, one top-up, a second failed batch, and exhaustion. *)
Example download_loop_exhausted :
  ∃ st, download_loop ["1ABC"; "2DEF"] 1 (Some 7) "downloads" "pdb"
          (λ _, 0%nat) always_404 3 0 (initial ["1ABC"] ∅ [])
        = Some (Exhausted, st)
    ∧ success_count st = 0%nat
    ∧ log st
      = [download_start 1 "downloads" "pdb";
         download_error "1ABC" "downloads/1ABC.pdb" (Some 404) "client_error" 1;
         attempt_topup 1 2;
         download_start 1 "downloads" "pdb";
         download_error "2DEF" "downloads/2DEF.pdb" (Some 404) "client_error" 1;
         attempt_exhausted 2 0 1].
Proof. eexists. split; [by vm_compute|]. split; reflexivity. Qed.

End MainFacts.

(** * Further properties of the code *)

(** ** [downloader.py]: requests, files and retries of one download *)

Module DownloaderMore.
Import Downloader DownloaderFacts.

(** A reply after which [_download_one] tries again (budget allowing):
    429, a 5xx status, or a client/timeout error. *)
Definition retryable (r : response) : Prop :=
  match r with
  | Response status _ => status = 429 ∨ 500 ≤ status < 600
  | Failure _ => True
  end.

Section DownloadOne.
Variables (out_dir file_format : string) (cfg : DownloadConfig)
          (on_event : bool).

Abbreviation attempt_loop := (attempt_loop out_dir file_format cfg on_event).
Abbreviation fetch := (fetch out_dir file_format cfg on_event).
Abbreviation _download_one := (_download_one out_dir file_format cfg on_event).
Abbreviation target := (target_of out_dir file_format).
Abbreviation url := (url_of file_format cfg).

Lemma files_notify ev w : files (notify on_event ev w) = files w.
Proof. unfold notify. by destruct on_event. Qed.

Lemma requests_notify ev w : requests (notify on_event ev w) = requests w.
Proof. unfold notify. by destruct on_event. Qed.

(** What a run of the retry loop does to the requests and to the files:
    [k] GETs of the URL of the identifier, within the budget; the target
    is written with the body of a 200 reply when a path is returned, and
    no file changes otherwise. *)
Lemma attempt_loop_effect entry_id net fuel attempt w r w' :
  0 ≤ attempt →
  attempt_loop entry_id net fuel attempt w = Some (r, w') →
  ∃ k : nat,
    requests w' = requests w ++ replicate k (url entry_id)
    ∧ (1 ≤ k)%nat
    ∧ attempt + Z.of_nat k ≤ Z.max (attempt + 1) (max_retries cfg + 1)
    ∧ match r with
      | Some path =>
          path = target entry_id
          ∧ ∃ j data, net j = Response 200 data
              ∧ files w' = <[path := data]> (files w)
      | None => files w' = files w
      end.
Proof.
  revert attempt w. induction fuel as [|fuel IH]; intros attempt w Ha; [done|].
  cbn [Downloader.attempt_loop].
  assert (Hstop : ∀ ev,
    ∃ k : nat,
      requests (notify on_event ev (get (url entry_id) w))
      = requests w ++ replicate k (url entry_id)
      ∧ (1 ≤ k)%nat
      ∧ attempt + Z.of_nat k ≤ Z.max (attempt + 1) (max_retries cfg + 1)
      ∧ files (notify on_event ev (get (url entry_id) w)) = files w).
  { intros ev. exists 1%nat. rewrite requests_notify, files_notify.
    split_and!; [done|lia|lia|done]. }
  assert (Hgo :
    attempt + 1 ≤ max_retries cfg →
    attempt_loop entry_id net fuel (attempt + 1) (get (url entry_id) w)
    = Some (r, w') →
    ∃ k : nat,
      requests w' = requests w ++ replicate k (url entry_id)
      ∧ (1 ≤ k)%nat
      ∧ attempt + Z.of_nat k ≤ Z.max (attempt + 1) (max_retries cfg + 1)
      ∧ match r with
        | Some path =>
            path = target entry_id
            ∧ ∃ j data, net j = Response 200 data
                ∧ files w' = <[path := data]> (files w)
        | None => files w' = files w
        end).
  { intros Hle (k & Hreq & Hk & Hbound & Hfiles)%IH; [|lia].
    exists (S k). split_and!.
    - rewrite Hreq. simpl. by rewrite <-app_assoc.
    - lia.
    - lia.
    - done. }
  destruct (net (Z.to_nat attempt)) as [status data|kind] eqn:Hnet.
  - destruct (status =? 200) eqn:Hs.
    { intros [= <- <-]. exists 1%nat.
      rewrite requests_notify, files_notify. simpl.
      split_and!; [done|lia|lia|done|].
      apply Z.eqb_eq in Hs as ->. by exists (Z.to_nat attempt), data. }
    destruct (status =? 429).
    { destruct (Z.gtb_spec (attempt + 1) (max_retries cfg)).
      - intros [= <- <-]. apply Hstop.
      - by apply Hgo. }
    destruct ((500 <=? status) && (status <? 600)).
    { destruct (Z.gtb_spec (attempt + 1) (max_retries cfg)).
      - intros [= <- <-]. apply Hstop.
      - by apply Hgo. }
    intros [= <- <-]. apply Hstop.
  - destruct (Z.geb_spec attempt (max_retries cfg)).
    + intros [= <- <-]. apply Hstop.
    + apply Hgo. lia.
Qed.

(** The loop ends within its fuel, with or without a callback. *)
Lemma attempt_loop_ends entry_id net fuel attempt w :
  (1 ≤ fuel)%nat →
  max_retries cfg + 1 - attempt ≤ Z.of_nat fuel →
  is_Some (attempt_loop entry_id net fuel attempt w).
Proof.
  revert attempt w. induction fuel as [|fuel IH]; intros attempt w Hf Hm; [lia|].
  cbn [Downloader.attempt_loop].
  destruct (net (Z.to_nat attempt)) as [status data|kind].
  - destruct (status =? 200); [done|].
    destruct (status =? 429).
    { destruct (Z.gtb_spec (attempt + 1) (max_retries cfg)); [done|].
      apply IH; lia. }
    destruct ((500 <=? status) && (status <? 600)); [|done].
    destruct (Z.gtb_spec (attempt + 1) (max_retries cfg)); [done|].
    apply IH; lia.
  - destruct (Z.geb_spec attempt (max_retries cfg)); [done|].
    apply IH; lia.
Qed.

Lemma fetch_effect entry_id net w :
  ∃ k : nat,
    requests (fetch entry_id net w).2 = requests w ++ replicate k (url entry_id)
    ∧ (1 ≤ k)%nat
    ∧ Z.of_nat k ≤ Z.max 1 (max_retries cfg + 1)
    ∧ match (fetch entry_id net w).1 with
      | Some path =>
          path = target entry_id
          ∧ ∃ j data, net j = Response 200 data
              ∧ files (fetch entry_id net w).2 = <[path := data]> (files w)
      | None => files (fetch entry_id net w).2 = files w
      end.
Proof.
  unfold Downloader.fetch.
  destruct (attempt_loop_ends entry_id net (S (Z.to_nat (max_retries cfg))) 0 w)
    as [[r w'] Hl]; [lia|lia|].
  rewrite Hl. simpl.
  apply attempt_loop_effect in Hl as (k & ? & ? & ? & ?); [|lia].
  exists k. split_and!; [done|done|lia|done].
Qed.

(** X1. One call of [_download_one] sends between zero and
    [max(1, max_retries + 1)] GET requests, all of them for the URL of its
    identifier, and none at all exactly when the target file already exists
    and is non-empty. *)
Theorem download_one_request_budget (entry_id : string)
    (net : nat → response) (w : world) :
  ∃ k : nat,
    requests (_download_one entry_id net w).2
    = requests w ++ replicate k (url entry_id)
    ∧ Z.of_nat k ≤ Z.max 1 (max_retries cfg + 1)
    ∧ (k = 0%nat ↔ exists_nonempty (files w) (target entry_id) = true).
Proof.
  unfold Downloader._download_one, skip_if_exists.
  destruct (exists_nonempty (files w) (target entry_id)) eqn:Hex.
  - exists 0%nat. simpl. rewrite requests_notify, app_nil_r.
    split_and!; [done|lia|done].
  - destruct (fetch_effect entry_id net w) as (k & Hreq & Hk & Hbound & _).
    exists k. split_and!; [done|done|]. split; [lia|done].
Qed.

(** X2. [_download_one] touches no file but its own target. When it
    returns no path the file system is unchanged. When it returns a path,
    that path is the target of the identifier and names a file that exists
    after the call: the file found on disk, untouched, if it existed
    non-empty, and otherwise a file holding the body of a 200 reply. *)
Theorem download_one_files (entry_id : string)
    (net : nat → response) (w : world) :
  let call := _download_one entry_id net w in
  (∀ path, path ≠ target entry_id →
     files call.2 !! path = files w !! path)
  ∧ match call.1 with
    | Some path =>
        path = target entry_id
        ∧ is_Some (files call.2 !! path)
        ∧ if exists_nonempty (files w) path
          then files call.2 = files w
          else ∃ j data, net j = Response 200 data
                 ∧ files call.2 = <[path := data]> (files w)
    | None => files call.2 = files w
    end.
Proof.
  intros call. subst call. unfold Downloader._download_one, skip_if_exists.
  destruct (exists_nonempty (files w) (target entry_id)) eqn:Hex.
  - simpl. rewrite files_notify, Hex. split; [done|]. split_and!; [done| |done].
    unfold exists_nonempty in Hex.
    by destruct (files w !! target entry_id).
  - destruct (fetch_effect entry_id net w) as (k & _ & _ & _ & Hfiles).
    destruct (fetch entry_id net w) as [[path|] w']; simpl in *.
    + destruct Hfiles as (-> & j & data & Hnet & ->). rewrite Hex. split.
      * intros path Hne. by rewrite lookup_insert_ne.
      * split_and!; [done|by rewrite lookup_insert_eq|].
        by exists j, data.
    + by rewrite Hfiles.
Qed.

(** X3. Downloading is idempotent once a non-empty file is in place: when
    the server never answers 200 with an empty body and a first call
    returned a path, a second call for the same identifier returns the
    same path, hands [download_skip] to [on_event], and sends no request
    and writes no file, whatever the server would answer. *)
Theorem download_one_twice_skips (entry_id : string)
    (net net2 : nat → response) (w : world) (path : string) :
  (∀ j data, net j = Response 200 data → data ≠ "") →
  (_download_one entry_id net w).1 = Some path →
  _download_one entry_id net2 (_download_one entry_id net w).2
  = (Some path,
     notify on_event (download_skip entry_id path)
       (_download_one entry_id net w).2).
Proof.
  intros Hbody Hfirst.
  destruct (download_one_files entry_id net w) as [_ Hfiles].
  rewrite Hfirst in Hfiles. destruct Hfiles as (-> & _ & Hfiles).
  set (w1 := (_download_one entry_id net w).2) in *.
  assert (Hex : exists_nonempty (files w1) (target entry_id) = true).
  { destruct (exists_nonempty (files w) (target entry_id)) eqn:Hex0.
    - by rewrite Hfiles.
    - destruct Hfiles as (j & data & Hnet & Hw).
      unfold exists_nonempty. rewrite Hw, lookup_insert_eq.
      specialize (Hbody j data Hnet). by destruct data. }
  unfold Downloader._download_one at 1, skip_if_exists. by rewrite Hex.
Qed.

Lemma attempt_loop_exhausts entry_id net n attempt w :
  0 ≤ attempt →
  attempt + Z.of_nat n = max_retries cfg →
  (∀ j, retryable (net j)) →
  ∃ status reason,
    attempt_loop entry_id net (S n) attempt w
    = Some (None,
            notify on_event
              (download_error entry_id (target entry_id) status reason
                 (max_retries cfg + 1))
              {| files := files w; events := events w;
                 requests := requests w ++ replicate (S n) (url entry_id) |}).
Proof.
  intros Ha Hn Hnet. revert attempt w Ha Hn.
  induction n as [|n IH]; intros attempt w Ha Hn.
  - cbn [Downloader.attempt_loop]. specialize (Hnet (Z.to_nat attempt)).
    replace (max_retries cfg) with attempt by lia.
    destruct (net (Z.to_nat attempt)) as [status data|kind]; simpl in Hnet.
    + destruct (Z.eqb_spec status 200); [lia|].
      destruct (Z.eqb_spec status 429).
      * destruct (Z.gtb_spec (attempt + 1) attempt); [|lia].
        by exists (Some status), "rate_limited".
      * destruct Hnet as [?|Hnet]; [done|].
        destruct (Z.leb_spec 500 status); [|lia].
        destruct (Z.ltb_spec status 600); [|lia]. cbn [andb].
        destruct (Z.gtb_spec (attempt + 1) attempt); [|lia].
        by exists (Some status), "server_error".
    + destruct (Z.geb_spec attempt attempt); [|lia].
      by exists None, kind.
  - cbn [Downloader.attempt_loop].
    destruct (IH (attempt + 1) (get (url entry_id) w)) as (status & reason & Hl);
      [lia|lia|].
    assert (Hworld :
      attempt_loop entry_id net (S n) (attempt + 1) (get (url entry_id) w)
      = Some (None,
              notify on_event
                (download_error entry_id (target entry_id) status reason
                   (max_retries cfg + 1))
                {| files := files w; events := events w;
                   requests := requests w
                               ++ replicate (S (S n)) (url entry_id) |})).
    { rewrite Hl. do 3 f_equal. simpl. by rewrite <-app_assoc. }
    clear Hl. pose proof (Hnet (Z.to_nat attempt)) as Hr.
    destruct (net (Z.to_nat attempt)) as [st data|kind]; simpl in Hr.
    + destruct (Z.eqb_spec st 200); [lia|].
      destruct (Z.eqb_spec st 429).
      * destruct (Z.gtb_spec (attempt + 1) (max_retries cfg)); [lia|].
        by exists status, reason.
      * destruct Hr as [?|Hr]; [done|].
        destruct (Z.leb_spec 500 st); [|lia].
        destruct (Z.ltb_spec st 600); [|lia]. cbn [andb].
        destruct (Z.gtb_spec (attempt + 1) (max_retries cfg)); [lia|].
        by exists status, reason.
    + destruct (Z.geb_spec attempt (max_retries cfg)); [lia|].
      by exists status, reason.
Qed.

(** X4. When every reply is one that is retried (429, a 5xx status, or a
    client or timeout error) and the budget [max_retries] is not negative
    and below 1024 (from where on the back-off delay
    [backoff_base * 2 ** attempt] can no longer be computed), a download
    sends exactly [max_retries + 1] requests, writes no file, returns no
    path, and hands one [download_error] to [on_event] whose [attempts] is
    [max_retries + 1]. *)
Theorem fetch_exhausts_retry_budget (entry_id : string)
    (net : nat → response) (w : world) :
  0 ≤ max_retries cfg < 1024 →
  (∀ j, retryable (net j)) →
  ∃ status reason,
    fetch entry_id net w
    = (None,
       notify on_event
         (download_error entry_id (target entry_id) status reason
            (max_retries cfg + 1))
         {| files := files w; events := events w;
            requests := requests w
                        ++ replicate (Z.to_nat (max_retries cfg + 1))
                             (url entry_id) |}).
Proof.
  intros [Hmax _] Hnet. unfold Downloader.fetch.
  destruct (attempt_loop_exhausts entry_id net (Z.to_nat (max_retries cfg)) 0 w)
    as (status & reason & Hl); [lia|lia|done|].
  rewrite Hl. exists status, reason. simpl.
  by replace (Z.to_nat (max_retries cfg + 1))
    with (S (Z.to_nat (max_retries cfg))) by lia.
Qed.

End DownloadOne.


Lemma download_one_twice_skips_witness :
  let first := Downloader._download_one "downloads" "pdb" default_config true
                 "1ABC" (λ _, Response 200 "ATOM") empty_world in
  Downloader._download_one "downloads" "pdb" default_config true "1ABC"
    (λ _, Response 404 "") first.2
  = (Some "downloads/1ABC.pdb",
     notify true (download_skip "1ABC" "downloads/1ABC.pdb") first.2).
Proof.
  apply (download_one_twice_skips "downloads" "pdb" default_config true "1ABC"
           (λ _, Response 200 "ATOM") (λ _, Response 404 "") empty_world).
  - intros j data [= <-]. discriminate.
  - by vm_compute.
Defined.

Lemma fetch_exhausts_retry_budget_witness :
  ∃ status reason,
    Downloader.fetch "downloads" "pdb" default_config true "1ABC"
      (λ _, Response 429 "") empty_world
    = (None,
       notify true
         (download_error "1ABC" (target_of "downloads" "pdb" "1ABC")
            status reason (max_retries default_config + 1))
         {| files := files empty_world; events := events empty_world;
            requests := requests empty_world
                        ++ replicate (Z.to_nat (max_retries default_config + 1))
                             (url_of "pdb" default_config "1ABC") |}).
Proof.
  apply (fetch_exhausts_retry_budget "downloads" "pdb" default_config true
           "1ABC" (λ _, Response 429 "") empty_world).
  - simpl. lia.
  - intros j. by left.
Defined.

(** *** A whole call of [download_entries] *)

Section Gather.
Variables (out_dir file_format : string) (cfg : DownloadConfig)
          (on_event : bool).

Abbreviation target' := (target_of out_dir file_format).
Abbreviation url' := (url_of file_format cfg).
Abbreviation start_all := (start_all out_dir file_format on_event).
Abbreviation finish_all := (finish_all out_dir file_format cfg on_event).
Abbreviation gather := (gather out_dir file_format cfg on_event).

(** A task returns nothing or the target of its identifier. *)
Definition result_of (eid : string) (r : option string) : Prop :=
  r = None ∨ r = Some (target' eid).

Lemma start_all_results ids w :
  Forall2 (λ eid task, task.1 = eid ∧ result_of eid task.2)
    ids (start_all ids w).1
  ∧ files (start_all ids w).2 = files w
  ∧ requests (start_all ids w).2 = requests w.
Proof.
  revert w. induction ids as [|eid ids IH]; intros w; simpl; [done|].
  unfold skip_if_exists.
  destruct (exists_nonempty (files w) (target' eid)).
  - destruct (IH (notify on_event (download_skip eid (target' eid)) w))
      as (Hres & Hfiles & Hreq).
    destruct (start_all ids (notify on_event _ w)) as [tasks w2]. simpl in *.
    rewrite Hfiles, Hreq, files_notify, requests_notify.
    split; [|done]. constructor; [|done]. split; [done|]. by right.
  - destruct (IH w) as (Hres & Hfiles & Hreq).
    destruct (start_all ids w) as [tasks w2]. simpl in *.
    split; [|done]. constructor; [|done]. split; [done|]. by left.
Qed.

(** The requests a batch may send: URLs of its identifiers. *)
Definition within_budget (ids : list string) (sent : list string) : Prop :=
  Forall (λ u, u ∈ url' <$> ids) sent
  ∧ Z.of_nat (length sent)
    ≤ Z.of_nat (length ids) * Z.max 1 (max_retries cfg + 1).

Lemma finish_all_results ids tasks t net w :
  Forall2 (λ eid task, task.1 = eid ∧ result_of eid task.2) ids tasks →
  Forall2 result_of ids (finish_all tasks t net w).1
  ∧ (∃ sent, requests (finish_all tasks t net w).2 = requests w ++ sent
             ∧ within_budget ids sent)
  ∧ ∀ path, path ∉ target' <$> ids →
      files (finish_all tasks t net w).2 !! path = files w !! path.
Proof.
  intros Htasks. revert t w.
  induction Htasks as [|eid [eid' r] ids tasks [Heq Hr] _ IH]; intros t w.
  { simpl. split_and!; [done| |done]. exists [].
    rewrite app_nil_r. split; [done|]. split; [done|simpl; lia]. }
  simpl in Heq. subst eid'. simpl in Hr.
  cbn [Downloader.finish_all].
  assert (Hmax : 1 ≤ Z.max 1 (max_retries cfg + 1)) by lia.
  destruct r as [path|].
  - destruct (IH (S t) w) as (Hres & (sent & Hsent & Hall & Hlen) & Hfiles).
    destruct (finish_all tasks (S t) net w) as [rs w1]. simpl in *.
    split_and!.
    + by constructor.
    + exists sent. split; [done|]. split.
      * eapply Forall_impl; [done|]. intros u Hu. simpl. by right.
      * rewrite length_cons. nia.
    + intros p Hp. apply Hfiles. intros Hin. apply Hp. by right.
  - destruct (fetch_effect out_dir file_format cfg on_event eid (net t) w)
      as (k & Hreq & Hk & Hbound & Hf).
    destruct (Downloader.fetch out_dir file_format cfg on_event eid (net t) w)
      as [r w1]. simpl in *.
    destruct (IH (S t) w1) as (Hres & (sent & Hsent & Hall & Hlen) & Hfiles).
    destruct (finish_all tasks (S t) net w1) as [rs w2]. simpl in *.
    split_and!.
    + constructor; [|done]. destruct r as [path|]; [|by left].
      destruct Hf as [-> _]. by right.
    + exists (replicate k (url' eid) ++ sent). split.
      * by rewrite Hsent, Hreq, <-app_assoc.
      * split.
        -- apply Forall_app. split.
           ++ apply Forall_replicate. by left.
           ++ eapply Forall_impl; [done|]. intros u Hu. simpl. by right.
        -- rewrite length_app, length_replicate, length_cons. nia.
    + intros p Hp. rewrite Hfiles by (intros Hin; apply Hp; by right).
      destruct r as [path|]; [|by rewrite Hf].
      destruct Hf as (-> & j & data & _ & ->).
      apply lookup_insert_ne. intros <-. apply Hp. by left.
Qed.

Lemma omap_results_sublist ids results :
  Forall2 result_of ids results →
  omap id results `sublist_of` (target' <$> ids).
Proof.
  induction 1 as [|eid r ids results [->| ->] _ IH]; [done| |].
  - by apply sublist_cons.
  - by apply sublist_skip.
Qed.

End Gather.
(** X5. The paths that [download_entries] returns come in the order of
    the identifiers passed in, at most one per identifier: they form a
    sublist of the list of targets of the cleaned identifiers. *)
Theorem download_entries_in_input_order
    (entry_ids : list string) (out_dir file_format : string)
    (cfg : option DownloadConfig) (on_event : bool)
    (net : nat → nat → response) (w : world) :
  match (download_entries entry_ids out_dir file_format cfg on_event net w).1 with
  | Ok paths =>
      paths `sublist_of`
        (target_of out_dir (lower file_format) <$> clean_ids entry_ids)
  | Raise _ => True
  end.
Proof.
  unfold download_entries. case_bool_decide as Hids.
  { simpl. apply sublist_nil_l. }
  case_bool_decide as Hfmt; [|done].
  unfold gather.
  destruct (start_all_results out_dir (lower file_format) on_event
              (clean_ids entry_ids) w) as (Htasks & _ & _).
  destruct (start_all _ _ _ _ _) as [tasks w1]. simpl in Htasks.
  destruct (finish_all_results out_dir (lower file_format)
              (default default_config cfg) on_event (clean_ids entry_ids)
              tasks 0 net w1 Htasks) as (Hres & _ & _).
  destruct (finish_all _ _ _ _ _ _ _ _) as [results w2]. simpl in *.
  by apply omap_results_sublist.
Qed.


(** *** One outcome for every identifier *)

(** The identifier an outcome event is about. *)
Definition event_id (ev : event) : option string :=
  match ev with
  | download_skip i _ | download_ok i _ _ _ | download_error i _ _ _ _ => Some i
  | _ => None
  end.

(** The identifiers of the tasks that skipped, and of those that went to
    the network. *)
Definition skipped (tasks : list (string * option string)) : list string :=
  tasks ≫= (λ task, match task.2 with Some _ => [task.1] | None => [] end).

Definition fetched (tasks : list (string * option string)) : list string :=
  tasks ≫= (λ task, match task.2 with Some _ => [] | None => [task.1] end).

Section Outcomes.
Variables (out_dir file_format : string) (cfg : DownloadConfig).

Lemma attempt_loop_event_id entry_id net fuel attempt w r w' :
  Downloader.attempt_loop out_dir file_format cfg true entry_id net fuel attempt w
  = Some (r, w') →
  ∃ ev, emitted w w' [ev] ∧ event_id ev = Some entry_id.
Proof.
  revert attempt w. induction fuel as [|fuel IH]; intros attempt w; [done|].
  simpl. destruct (net (Z.to_nat attempt)) as [status data|kind].
  - destruct (status =? 200).
    { intros [= <- <-]. by eexists. }
    destruct (status =? 429).
    { destruct (attempt + 1 >? max_retries cfg).
      - intros [= <- <-]. by eexists.
      - intros Hl. apply IH in Hl as (ev & Hev & Hid). by exists ev. }
    destruct ((500 <=? status) && (status <? 600)).
    + destruct (attempt + 1 >? max_retries cfg).
      * intros [= <- <-]. by eexists.
      * intros Hl. apply IH in Hl as (ev & Hev & Hid). by exists ev.
    + intros [= <- <-]. by eexists.
  - destruct (attempt >=? max_retries cfg).
    + intros [= <- <-]. by eexists.
    + intros Hl. apply IH in Hl as (ev & Hev & Hid). by exists ev.
Qed.

Lemma fetch_event_id entry_id net w :
  ∃ ev, emitted w (Downloader.fetch out_dir file_format cfg true entry_id net w).2 [ev]
        ∧ event_id ev = Some entry_id.
Proof.
  unfold Downloader.fetch.
  destruct (attempt_loop_ends out_dir file_format cfg true entry_id net
              (S (Z.to_nat (max_retries cfg))) 0 w) as [[r w'] Hl]; [lia|lia|].
  rewrite Hl. simpl. by eapply attempt_loop_event_id.
Qed.

(** The tasks that were started: those that skipped have handed their
    event over, the others have not yet. *)
Lemma start_all_event_ids ids w :
  ∃ evs, emitted w (Downloader.start_all out_dir file_format true ids w).2 evs
    ∧ Forall (λ ev, is_Some (event_id ev)) evs
    ∧ omap event_id evs
      = skipped (Downloader.start_all out_dir file_format true ids w).1
    ∧ (Downloader.start_all out_dir file_format true ids w).1.*1 = ids.
Proof.
  revert w. induction ids as [|eid ids IH]; intros w.
  { exists []. split_and!; [apply emitted_refl|done..]. }
  simpl. unfold skip_if_exists.
  destruct (exists_nonempty _ _) eqn:Hex.
  - set (w1 := notify true _ w).
    destruct (IH w1) as (evs & Hev & Hall & Hids & Hfst).
    destruct (Downloader.start_all _ _ _ ids w1) as [rs w2]. simpl in *.
    exists (download_skip eid (target_of out_dir file_format eid) :: evs).
    split_and!.
    + eapply emitted_cons; [apply emitted_notify|done].
    + constructor; [by eexists|done].
    + simpl. by f_equal.
    + by f_equal.
  - destruct (IH w) as (evs & Hev & Hall & Hids & Hfst).
    destruct (Downloader.start_all _ _ _ ids w) as [rs w2]. simpl in *.
    exists evs. split_and!; [done|done|done|by f_equal].
Qed.

Lemma finish_all_event_ids tasks t net w :
  ∃ evs, emitted w (Downloader.finish_all out_dir file_format cfg true tasks t net w).2 evs
    ∧ Forall (λ ev, is_Some (event_id ev)) evs
    ∧ omap event_id evs
      = fetched tasks.
Proof.
  revert t w. induction tasks as [|[eid [path|]] tasks IH]; intros t w.
  - exists []. split_and!; [apply emitted_refl|done..].
  - simpl. destruct (IH (S t) w) as (evs & Hev & Hall & Hids).
    destruct (Downloader.finish_all _ _ _ _ tasks (S t) net w) as [rs w1].
    by exists evs.
  - simpl. destruct (fetch_event_id eid (net t) w) as (ev & Hev & Hid).
    destruct (Downloader.fetch _ _ _ _ eid (net t) w) as [r w1]. simpl in *.
    destruct (IH (S t) w1) as (evs & Hevs & Hall & Hids).
    destruct (Downloader.finish_all _ _ _ _ tasks (S t) net w1) as [rs w2].
    simpl in *. exists (ev :: evs). split_and!.
    + by eapply emitted_cons.
    + constructor; [by rewrite Hid|done].
    + simpl. rewrite Hid. by f_equal.
Qed.

Lemma skipped_or_fetched (tasks : list (string * option string)) :
  skipped tasks ++ fetched tasks ≡ₚ tasks.*1.
Proof.
  induction tasks as [|[eid [path|]] tasks IH]; [done| |]; simpl.
  - by f_equiv.
  - rewrite <-Permutation_middle. by f_equiv.
Qed.

Lemma gather_event_ids ids net w :
  ∃ evs, emitted w (Downloader.gather out_dir file_format cfg true ids net w).2 evs
    ∧ Forall (λ ev, is_Some (event_id ev)) evs
    ∧ omap event_id evs ≡ₚ ids.
Proof.
  unfold Downloader.gather.
  destruct (start_all_event_ids ids w) as (evs1 & Hev1 & Hall1 & Hids1 & Hfst).
  destruct (Downloader.start_all _ _ _ ids w) as [tasks w1]. simpl in *.
  destruct (finish_all_event_ids tasks 0 net w1) as (evs2 & Hev2 & Hall2 & Hids2).
  exists (evs1 ++ evs2). split_and!.
  - by eapply emitted_trans.
  - by apply Forall_app.
  - rewrite omap_app, Hids1, Hids2, <-Hfst. apply skipped_or_fetched.
Qed.

End Outcomes.

(** The events of a whole call. *)
Lemma download_entries_outcomes
    (entry_ids : list string) (out_dir file_format : string)
    (cfg : option DownloadConfig) (net : nat → nat → response) (w : world) :
  let call := download_entries entry_ids out_dir file_format cfg true net w in
  ∃ evs, emitted w call.2 evs
    ∧ match call.1 with
      | Ok paths =>
          omap event_id evs ≡ₚ clean_ids entry_ids
          ∧ length evs = length (clean_ids entry_ids)
          ∧ Forall is_outcome evs
          ∧ length paths = length (omap success_path evs)
      | Raise _ =>
          evs = [] ∧ call.2 = w
          ∧ (lower file_format ∉ ["cif"; "pdb"]) ∧ clean_ids entry_ids ≠ []
      end.
Proof.
  intros call. subst call. unfold download_entries.
  case_bool_decide as Hids.
  { exists []. split; [apply emitted_refl|]. simpl. by rewrite Hids. }
  case_bool_decide as Hfmt; [|exists []; split; [apply emitted_refl|done]].
  destruct (gather_event_ids out_dir (lower file_format)
              (default default_config cfg) (clean_ids entry_ids) net w)
    as (evs & Hev & Hall & Hperm).
  destruct (gather_events out_dir (lower file_format)
              (default default_config cfg) (clean_ids entry_ids) net w)
    as (evs' & Hev' & Hp & _).
  pose proof (gather_outcomes out_dir (lower file_format)
                (default default_config cfg) (clean_ids entry_ids) net w evs Hev)
    as Hout.
  assert (evs' = evs) as -> by (by eapply emitted_inj).
  destruct (Downloader.gather _ _ _ _ _ _ _) as [results w']. simpl in *.
  exists evs. split_and!; [done|done| |done|by rewrite Hp].
  rewrite <-Hperm. clear -Hall.
  induction Hall as [|ev evs [i Hi] _ IH]; [done|]. simpl. rewrite Hi. simpl.
  by f_equal.
Qed.

(** X12. A call of [download_entries] that returns has handed exactly one
    outcome event ([download_skip], [download_ok] or [download_error]) to
    [on_event] for every cleaned identifier, duplicates counted, and
    nothing else; the paths it returns are as many as the
    [download_skip] and [download_ok] events among them. *)
Theorem download_entries_one_outcome_each
    (entry_ids : list string) (out_dir file_format : string)
    (cfg : option DownloadConfig) (net : nat → nat → response) (w : world) :
  let call := download_entries entry_ids out_dir file_format cfg true net w in
  ∃ evs, emitted w call.2 evs
    ∧ match call.1 with
      | Ok paths =>
          omap event_id evs ≡ₚ clean_ids entry_ids
          ∧ length evs = length (clean_ids entry_ids)
          ∧ Forall is_outcome evs
          ∧ length paths = length (omap success_path evs)
      | Raise _ => True
      end.
Proof.
  intros call.
  destruct (download_entries_outcomes entry_ids out_dir file_format cfg net w)
    as (evs & Hev & Hcall).
  exists evs. split; [done|]. fold call in Hcall.
  by destruct call.1.
Qed.

End DownloaderMore.

(** ** [pathlib] and universal newlines on examples *)

Module PyPathFacts.
Import Downloader IdsFile.

(** [str(Path(dir) / name)] on plain, unnormalised, rooted and absolute
    arguments. *)
Example path_join_examples :
  path_join "downloads" "1ABC.pdb" = "downloads/1ABC.pdb"
  ∧ path_join "downloads/" "1ABC.pdb" = "downloads/1ABC.pdb"
  ∧ path_join "." "1ABC.pdb" = "1ABC.pdb"
  ∧ path_join "" "1ABC.pdb" = "1ABC.pdb"
  ∧ path_join "a//b/./c" "x.pdb" = "a/b/c/x.pdb"
  ∧ path_join "//a" "x.pdb" = "//a/x.pdb"
  ∧ path_join "///a" "x.pdb" = "/a/x.pdb"
  ∧ path_join "/" "x.pdb" = "/x.pdb"
  ∧ path_join "d" "/etc/x.pdb" = "/etc/x.pdb"
  ∧ path_join "d" "./1ABC.pdb" = "d/1ABC.pdb"
  ∧ path_join "d" "../x.pdb" = "d/../x.pdb"
  ∧ path_join "d" "a/./b//c.pdb" = "d/a/b/c.pdb"
  ∧ path_join "." "" = ".".
Proof. repeat split; by vm_compute. Qed.

(** The target of an identifier in a plain directory. *)
Example target_of_examples :
  target_of "downloads" "pdb" "1ABC" = "downloads/1ABC.pdb"
  ∧ target_of "downloads/" "cif" "1ABC" = "downloads/1ABC.cif"
  ∧ target_of "." "pdb" "1ABC" = "1ABC.pdb"
  ∧ target_of "downloads" "pdb" "/etc/x" = "/etc/x.pdb".
Proof. repeat split; by vm_compute. Qed.

(** A carriage return separates, like a line feed, on its own or before
    one. *)
Example read_ids_examples :
  read_ids ("1A" +:+ String cr "BC,2" +:+ String cr (String newline "D")
            +:+ String newline (String cr "3"))
  = ["1A"; "BC"; "2"; "D"; "3"].
Proof. by vm_compute. Qed.

End PyPathFacts.

(** ** [str.strip]: what it keeps and what it removes *)

Module PyStrFacts.

(** The characters of a string. *)
Abbreviation chars := String.list_ascii_of_string.

Lemma chars_inj s1 s2 : chars s1 = chars s2 → s1 = s2.
Proof.
  intros Heq. rewrite <-(String.string_of_list_ascii_of_string s1).
  rewrite Heq. apply String.string_of_list_ascii_of_string.
Qed.

Lemma chars_app s1 s2 : chars (s1 +:+ s2) = chars s1 ++ chars s2.
Proof. induction s1 as [|c s1 IH]; simpl; [done|]. by rewrite IH. Qed.

Lemma chars_rev_app s1 s2 :
  chars (String.rev_app s1 s2) = reverse (chars s1) ++ chars s2.
Proof.
  revert s2. induction s1 as [|c s1 IH]; intros s2; simpl; [done|].
  rewrite IH, reverse_cons. simpl. by rewrite <-app_assoc.
Qed.

Lemma chars_rev s : chars (String.rev s) = reverse (chars s).
Proof. unfold String.rev. rewrite chars_rev_app. simpl. by rewrite app_nil_r. Qed.

(** Dropping leading white space, on lists of characters. *)
Fixpoint ldrop (l : list ascii) : list ascii :=
  match l with
  | [] => []
  | c :: l' => if isspace c then ldrop l' else l
  end.

Lemma chars_lstrip s : chars (lstrip s) = ldrop (chars s).
Proof. induction s as [|c s IH]; simpl; [done|]. by destruct (isspace c). Qed.

Definition strip_chars (l : list ascii) : list ascii :=
  reverse (ldrop (reverse (ldrop l))).

Lemma chars_strip s : chars (strip s) = strip_chars (chars s).
Proof. unfold strip. by rewrite chars_rev, chars_lstrip, chars_rev, chars_lstrip. Qed.

Lemma ldrop_ldrop l : ldrop (ldrop l) = ldrop l.
Proof.
  induction l as [|c l IH]; simpl; [done|].
  destruct (isspace c) eqn:Hc; [done|]. simpl. by rewrite Hc.
Qed.

Lemma ldrop_snoc l c : isspace c = false → ldrop (l ++ [c]) = ldrop l ++ [c].
Proof.
  intros Hc. induction l as [|a l IH]; simpl; [by rewrite Hc|].
  by destruct (isspace a).
Qed.

Lemma ldrop_subseteq l : ldrop l ⊆ l.
Proof.
  induction l as [|c l IH]; simpl; [done|].
  destruct (isspace c); [|done]. by apply list_subseteq_cons.
Qed.

(** A list without leading white space keeps its first character when
    trailing white space is dropped. *)
Lemma ldrop_rstrip l :
  ldrop l = l → ldrop (reverse (ldrop (reverse l))) = reverse (ldrop (reverse l)).
Proof.
  destruct l as [|c l]; [done|]. simpl.
  destruct (isspace c) eqn:Hc.
  { intros Heq. exfalso.
    pose proof (ldrop_subseteq l) as Hsub. rewrite Heq in Hsub.
    apply (f_equal length) in Heq.
    assert (length (ldrop l) ≤ length l)%nat; [|simpl in *; lia].
    clear. induction l as [|a l IH]; simpl; [done|].
    destruct (isspace a); simpl; lia. }
  intros _. rewrite reverse_cons, ldrop_snoc by done.
  rewrite reverse_app. simpl. by rewrite Hc.
Qed.

Lemma strip_chars_idemp l : strip_chars (strip_chars l) = strip_chars l.
Proof.
  unfold strip_chars.
  rewrite (ldrop_rstrip (ldrop l)) by apply ldrop_ldrop.
  by rewrite reverse_involutive, ldrop_ldrop.
Qed.

Lemma strip_chars_subseteq l : strip_chars l ⊆ l.
Proof.
  unfold strip_chars. intros c Hc.
  apply elem_of_reverse, ldrop_subseteq, elem_of_reverse, ldrop_subseteq in Hc.
  done.
Qed.

(** [strip] is idempotent, and takes characters away only. *)
Lemma strip_idemp s : strip (strip s) = strip s.
Proof. apply chars_inj. by rewrite !chars_strip, strip_chars_idemp. Qed.

Lemma strip_subseteq s : chars (strip s) ⊆ chars s.
Proof. rewrite chars_strip. apply strip_chars_subseteq. Qed.

Lemma nonempty_spec s : nonempty s = true ↔ s ≠ "".
Proof. by destruct s. Qed.

End PyStrFacts.

Import PyStrFacts.

(** ** [downloader.py]: the identifiers a call works on *)

Module CleanIdsFacts.
Import Downloader.

(** An identifier as [download_entries] uses it: not empty, and without
    white space around it. *)
Definition trimmed (i : string) : Prop := i ≠ "" ∧ strip i = i.

Lemma clean_ids_trimmed entry_ids : Forall trimmed (clean_ids entry_ids).
Proof.
  unfold clean_ids. apply Forall_fmap, Forall_forall.
  intros i [Hi _]%list_elem_of_filter. simpl.
  apply andb_prop_elim in Hi as [_ Hi]. split.
  - apply nonempty_spec. by apply Is_true_eq_true.
  - apply strip_idemp.
Qed.

Lemma clean_ids_fixed ids : Forall trimmed ids → clean_ids ids = ids.
Proof.
  induction 1 as [|i ids [Hne Hstrip] _ IH]; [done|].
  unfold clean_ids in *. rewrite filter_cons_True.
  - rewrite fmap_cons, Hstrip. by f_equal.
  - rewrite Hstrip. apply nonempty_spec in Hne. by rewrite Hne.
Qed.

(** X7. [download_entries] works on the identifiers with surrounding white
    space removed and blank entries dropped: every identifier it uses is
    non-empty and trimmed, cleaning twice changes nothing, and the call
    behaves on any list exactly as on its cleaned list. *)
Theorem download_entries_cleans_ids
    (entry_ids : list string) (out_dir file_format : string)
    (cfg : option DownloadConfig) (on_event : bool)
    (net : nat → nat → response) (w : world) :
  Forall trimmed (clean_ids entry_ids)
  ∧ clean_ids (clean_ids entry_ids) = clean_ids entry_ids
  ∧ download_entries (clean_ids entry_ids) out_dir file_format cfg on_event net w
    = download_entries entry_ids out_dir file_format cfg on_event net w.
Proof.
  pose proof (clean_ids_trimmed entry_ids) as Ht.
  pose proof (clean_ids_fixed _ Ht) as Hfix.
  split_and!; [done|done|]. unfold download_entries. by rewrite Hfix.
Qed.

End CleanIdsFacts.

(** ** The identifier files read back *)

Module IdsFileFacts.
Import Downloader IdsFile CleanIdsFacts.

(** An identifier that survives a round trip through a file: trimmed, and
    free of the separators (comma, line feed, and carriage return, which
    is read as a line feed). *)
Definition well_formed (i : string) : Prop :=
  trimmed i ∧ (comma ∉ chars i) ∧ (newline ∉ chars i) ∧ (cr ∉ chars i).

Lemma append_nil_r s : s +:+ "" = s.
Proof. apply chars_inj. rewrite chars_app. apply app_nil_r. Qed.

Lemma append_assoc s1 s2 s3 : (s1 +:+ s2) +:+ s3 = s1 +:+ (s2 +:+ s3).
Proof. apply chars_inj. rewrite !chars_app. by rewrite app_assoc. Qed.

(** *** [split] and [join] *)

Lemma split_nonempty sep s : split sep s ≠ [].
Proof.
  induction s as [|c s IH]; simpl; [done|].
  case_bool_decide; [done|]. by destruct (split sep s).
Qed.

Lemma split_no_sep sep s : sep ∉ chars s → split sep s = [s].
Proof.
  induction s as [|c s IH]; simpl; [done|]. intros Hin.
  apply not_elem_of_cons in Hin as [Hne Hin].
  rewrite bool_decide_eq_false_2 by done. by rewrite IH.
Qed.

Lemma split_app_sep sep x rest :
  sep ∉ chars x →
  split sep (x +:+ String sep rest) = x :: split sep rest.
Proof.
  induction x as [|c x IH]; simpl.
  { intros _. by rewrite bool_decide_eq_true_2. }
  intros Hin. apply not_elem_of_cons in Hin as [Hne Hin].
  rewrite bool_decide_eq_false_2 by done. by rewrite IH.
Qed.

Lemma split_concat sep l :
  Forall (λ x, sep ∉ chars x) l →
  l ≠ [] →
  split sep (String.concat (String sep "") l) = l.
Proof.
  induction 1 as [|x l Hx Hl IH]; [done|]. intros _.
  destruct l as [|y l].
  - simpl. by apply split_no_sep.
  - change (String.concat (String sep "") (x :: y :: l))
      with (x +:+ String sep (String.concat (String sep "") (y :: l))).
    rewrite split_app_sep by done. f_equal. by apply IH.
Qed.

Lemma split_pieces sep s :
  Forall (λ piece, (sep ∉ chars piece) ∧ chars piece ⊆ chars s) (split sep s).
Proof.
  induction s as [|c s IH]; simpl.
  { constructor; [|done]. split; [apply not_elem_of_nil|done]. }
  case_bool_decide as Hc.
  - constructor.
    + split; [apply not_elem_of_nil|]. intros a Ha. by apply elem_of_nil in Ha.
    + eapply Forall_impl; [done|]. intros piece [? Hsub]. split; [done|].
      by apply list_subseteq_cons.
  - destruct (split sep s) as [|piece pieces]; simpl.
    + constructor; [|done]. split.
      * apply not_elem_of_cons. split; [done|apply not_elem_of_nil].
      * intros a Ha%list_elem_of_singleton. subst. by left.
    + apply Forall_cons in IH as [[Hp Hsub] IH]. constructor.
      * split.
        -- apply not_elem_of_cons. by split.
        -- intros a [->|Ha]%elem_of_cons; [by left|]. right. by apply Hsub.
      * eapply Forall_impl; [done|]. intros q [? Hq]. split; [done|].
        by apply list_subseteq_cons.
Qed.

Lemma chars_concat c sep l :
  c ∈ chars (String.concat sep l) →
  c ∈ chars sep ∨ ∃ x, x ∈ l ∧ c ∈ chars x.
Proof.
  induction l as [|x l IH]; [by intros ?%elem_of_nil|].
  destruct l as [|y l].
  { simpl. intros Hc. right. exists x. split; [by left|done]. }
  change (String.concat sep (x :: y :: l))
    with (x +:+ (sep +:+ String.concat sep (y :: l))).
  rewrite !chars_app, !elem_of_app. intros [Hc|[Hc|Hc]].
  - right. exists x. split; [by left|done].
  - by left.
  - destruct (IH Hc) as [?|(z & Hz & ?)]; [by left|].
    right. exists z. split; [by right|done].
Qed.

(** *** Newlines *)

Lemma replace_newlines_id text :
  newline ∉ chars text → replace_newlines text = text.
Proof.
  induction text as [|c text IH]; simpl; [done|]. intros Hin.
  apply not_elem_of_cons in Hin as [Hne Hin].
  rewrite bool_decide_eq_false_2 by done. by rewrite IH.
Qed.

Lemma replace_newlines_app s1 s2 :
  replace_newlines (s1 +:+ s2) = replace_newlines s1 +:+ replace_newlines s2.
Proof. induction s1 as [|c s1 IH]; simpl; [done|]. by rewrite IH. Qed.

Lemma replace_newlines_none text : newline ∉ chars (replace_newlines text).
Proof.
  induction text as [|c text IH]; simpl; [apply not_elem_of_nil|].
  apply not_elem_of_cons. split; [|done].
  case_bool_decide; [done|congruence].
Qed.

(** A list joined by newlines reads as the list joined by commas. *)
Lemma replace_newlines_concat ids :
  Forall (λ i, newline ∉ chars i) ids →
  replace_newlines (String.concat (String newline "") ids)
  = String.concat "," ids.
Proof.
  induction 1 as [|x l Hx Hl IH]; [done|].
  destruct l as [|y l].
  - simpl. by apply replace_newlines_id.
  - change (String.concat (String newline "") (x :: y :: l))
      with (x +:+ String newline (String.concat (String newline "") (y :: l))).
    change (String.concat "," (x :: y :: l))
      with (x +:+ String comma (String.concat "," (y :: l))).
    rewrite replace_newlines_app, replace_newlines_id by done.
    f_equal. change (replace_newlines (String newline ?s))
      with (String comma (replace_newlines s)).
    by rewrite IH.
Qed.

(** *** Universal newlines *)

Lemma universal_newlines_id text :
  cr ∉ chars text → universal_newlines text = text.
Proof.
  induction text as [|c text IH]; [done|]. intros Hin.
  apply not_elem_of_cons in Hin as [Hne Hin].
  cbn [universal_newlines]. rewrite bool_decide_eq_false_2 by done.
  by rewrite IH.
Qed.

Lemma universal_newlines_no_cr text : cr ∉ chars (universal_newlines text).
Proof.
  assert (Hn : ∀ (n : nat) text,
            (String.length text ≤ n)%nat → cr ∉ chars (universal_newlines text)).
  { clear text. induction n as [|n IH]; intros [|c text] Hlen; simpl in Hlen;
      try lia; try apply not_elem_of_nil.
    cbn [universal_newlines]. case_bool_decide as Hc.
    - simpl. apply not_elem_of_cons. split; [done|].
      destruct text as [|d text]; [apply not_elem_of_nil|].
      simpl in Hlen. case_bool_decide; apply IH; simpl; lia.
    - simpl. apply not_elem_of_cons. split; [congruence|]. apply IH. lia. }
  by apply (Hn (String.length text)).
Qed.

Lemma chars_replace_newlines c text :
  c ∈ chars (replace_newlines text) → c = comma ∨ c ∈ chars text.
Proof.
  induction text as [|d text IH]; simpl; [by intros ?%elem_of_nil|].
  intros [->|Hc]%elem_of_cons.
  - case_bool_decide; [by left|right; by left].
  - destruct (IH Hc); [by left|right; by right].
Qed.

Lemma concat_free c sep ids :
  c ∉ chars sep → Forall (λ i, c ∉ chars i) ids →
  c ∉ chars (String.concat sep ids).
Proof.
  intros Hsep Hids [Hc|(x & Hx & Hc)]%chars_concat; [done|].
  rewrite Forall_forall in Hids. by apply (Hids x).
Qed.

Lemma universal_newlines_app x text :
  cr ∉ chars x →
  universal_newlines (x +:+ text) = x +:+ universal_newlines text.
Proof.
  induction x as [|c x IH]; [done|]. intros Hin.
  apply not_elem_of_cons in Hin as [Hne Hin].
  change (String c x +:+ text) with (String c (x +:+ text)).
  cbn [universal_newlines]. rewrite bool_decide_eq_false_2 by done.
  by rewrite IH.
Qed.

(** Lines that end in a carriage return and a line feed read as lines
    that end in a line feed. *)
Lemma universal_newlines_concat ids :
  Forall (λ i, cr ∉ chars i) ids →
  universal_newlines (String.concat (String cr (String newline "")) ids)
  = String.concat (String newline "") ids.
Proof.
  induction 1 as [|x l Hx Hl IH]; [done|].
  destruct l as [|y l].
  - simpl. by apply universal_newlines_id.
  - change (String.concat (String cr (String newline "")) (x :: y :: l))
      with (x +:+ String cr (String newline
              (String.concat (String cr (String newline "")) (y :: l)))).
    change (String.concat (String newline "") (x :: y :: l))
      with (x +:+ String newline (String.concat (String newline "") (y :: l))).
    rewrite universal_newlines_app by done. f_equal.
    cbn [universal_newlines]. rewrite !bool_decide_eq_true_2 by done.
    by rewrite IH.
Qed.

(** *** Reading *)

(** The tokens of a comma-separated list of well-formed identifiers. *)
Lemma tokens_joined ids :
  Forall well_formed ids →
  filter (λ r, nonempty r) (strip <$> split comma (String.concat "," ids))
  = ids.
Proof.
  intros Hwf. destruct (decide (ids = [])) as [->|Hne]; [done|].
  change "," with (String comma "").
  rewrite split_concat; [|by eapply Forall_impl; [done|]; intros ? (_ & ? & _)|done].
  clear Hne. induction Hwf as [|i ids ([Hi Hs] & _) _ IH]; [done|].
  rewrite fmap_cons, Hs, filter_cons_True; [by f_equal|].
  apply nonempty_spec in Hi. by rewrite Hi.
Qed.

Lemma read_ids_joined ids :
  Forall well_formed ids → read_ids (String.concat "," ids) = ids.
Proof.
  intros Hwf. unfold read_ids. cbn zeta.
  rewrite universal_newlines_id; cycle 1.
  { apply concat_free; [by intros ?%list_elem_of_singleton|].
    eapply Forall_impl; [done|]. by intros i (_ & _ & _ & ?). }
  rewrite replace_newlines_id; cycle 1.
  { apply concat_free; [by intros ?%list_elem_of_singleton|].
    eapply Forall_impl; [done|]. by intros i (_ & _ & ? & _). }
  by apply tokens_joined.
Qed.

Lemma read_ids_well_formed text : Forall well_formed (read_ids text).
Proof.
  unfold read_ids. cbn zeta.
  apply Forall_forall. intros r [Hr Hin]%list_elem_of_filter.
  apply list_elem_of_fmap in Hin as (piece & -> & Hin).
  pose proof (split_pieces comma (replace_newlines (universal_newlines text)))
    as Hp.
  rewrite Forall_forall in Hp. destruct (Hp piece Hin) as [Hcomma Hsub].
  split_and!.
  - split; [|apply strip_idemp]. apply nonempty_spec. by apply Is_true_eq_true.
  - intros Hc. by apply Hcomma, strip_subseteq.
  - intros Hc. apply (replace_newlines_none (universal_newlines text)), Hsub.
    by apply strip_subseteq.
  - intros Hc%strip_subseteq%Hsub%chars_replace_newlines.
    destruct Hc as [Hc|Hc]; [done|].
    by apply (universal_newlines_no_cr text).
Qed.

(** *** Streaming *)

Lemma concat_snoc sep ids x :
  ids ≠ [] →
  String.concat sep (ids ++ [x]) = String.concat sep ids +:+ (sep +:+ x).
Proof.
  induction ids as [|i ids IH]; [done|]. intros _.
  destruct ids as [|j ids]; [done|].
  change (String.concat sep ((i :: j :: ids) ++ [x]))
    with (i +:+ (sep +:+ String.concat sep ((j :: ids) ++ [x]))).
  change (String.concat sep (i :: j :: ids))
    with (i +:+ (sep +:+ String.concat sep (j :: ids))).
  rewrite IH by done. by rewrite !append_assoc.
Qed.

Lemma stream_ids_joined ids :
  stream_ids ids
  = (String.concat "," ids, bool_decide (ids = []), length ids).
Proof.
  unfold stream_ids. induction ids as [|x ids IH] using rev_ind; [done|].
  rewrite foldl_app, IH. cbn [foldl stream_step].
  rewrite length_app, Nat.add_1_r.
  rewrite (bool_decide_eq_false_2 (ids ++ [x] = [])) by (by destruct ids).
  case_bool_decide as Hids.
  - subst ids. done.
  - by rewrite concat_snoc.
Qed.

(** X8. Writing a list of identifiers with [_write_ids_file] and reading
    the file back with [_read_ids_file] gives the same list, in the same
    order, when every identifier is non-empty, has no surrounding white
    space and contains neither a comma nor a newline; the empty list
    included. *)
Theorem write_then_read_ids_file
    (path : string) (ids : list string) (fs : filesystem)
    (Hids : Forall well_formed ids) :
  _read_ids_file path (_write_ids_file path ids fs) = Some ids.
Proof.
  unfold _read_ids_file, _write_ids_file. rewrite lookup_insert_eq. simpl.
  f_equal. by apply read_ids_joined.
Qed.

Lemma well_formed_1ABC_2XYZ : Forall well_formed ["1ABC"; "2XYZ"].
Proof.
  repeat (apply Forall_cons; split;
          [unfold well_formed, trimmed; split_and!; by_compute|]).
  constructor.
Qed.

Lemma write_then_read_ids_file_witness :
  _read_ids_file "work/ids.txt"
    (_write_ids_file "work/ids.txt" ["1ABC"; "2XYZ"] ∅)
  = Some ["1ABC"; "2XYZ"].
Proof.
  apply (write_then_read_ids_file "work/ids.txt" ["1ABC"; "2XYZ"] ∅).
  apply well_formed_1ABC_2XYZ.
Defined.

(** X9. Whatever the text of the file, every identifier that
    [_read_ids_file] returns is non-empty, has no surrounding white space
    and contains neither a comma nor a newline. So what was read is written
    back and read again unchanged, and [download_entries] uses the list as
    it is. *)
Theorem read_ids_file_normalises (text : string) :
  Forall well_formed (read_ids text)
  ∧ read_ids (String.concat "," (read_ids text)) = read_ids text
  ∧ clean_ids (read_ids text) = read_ids text.
Proof.
  pose proof (read_ids_well_formed text) as Hwf. split_and!.
  - done.
  - by apply read_ids_joined.
  - apply clean_ids_fixed. eapply Forall_impl; [done|]. by intros i [? _].
Qed.

(** X10. A file with one identifier per line reads as the list of its
    identifiers, like the comma-separated file, whether the lines end in a
    line feed or in a carriage return and a line feed: line ends separate
    as commas do. *)
Theorem read_ids_one_per_line (ids : list string)
    (Hids : Forall well_formed ids) :
  read_ids (String.concat (String newline "") ids) = ids
  ∧ read_ids (String.concat (String cr (String newline "")) ids) = ids.
Proof.
  assert (Hcr : Forall (λ i, cr ∉ chars i) ids).
  { eapply Forall_impl; [done|]. by intros i (_ & _ & _ & ?). }
  assert (Hlines : universal_newlines (String.concat (String newline "") ids)
                   = String.concat (String newline "") ids).
  { apply universal_newlines_id.
    apply concat_free; [|done]. by intros ?%list_elem_of_singleton. }
  assert (Hread : filter (λ r, nonempty r)
                    (strip <$> split comma
                       (replace_newlines (String.concat (String newline "") ids)))
                  = ids).
  { rewrite replace_newlines_concat; [by apply tokens_joined|].
    eapply Forall_impl; [exact Hids|]. by intros i (_ & _ & ? & _). }
  unfold read_ids. cbn zeta. split.
  - by rewrite Hlines.
  - by rewrite universal_newlines_concat.
Qed.

Lemma read_ids_one_per_line_witness :
  read_ids (String.concat (String newline "") ["1ABC"; "2XYZ"])
  = ["1ABC"; "2XYZ"]
  ∧ read_ids (String.concat (String cr (String newline "")) ["1ABC"; "2XYZ"])
    = ["1ABC"; "2XYZ"].
Proof.
  apply (read_ids_one_per_line ["1ABC"; "2XYZ"]).
  apply well_formed_1ABC_2XYZ.
Defined.

(** X11. The loop that streams identifiers to the file as they are
    enumerated (first identifier bare, every later one after a comma)
    leaves in the file what [_write_ids_file] writes for the same list,
    and its counter is the number of identifiers. *)
Theorem stream_writes_joined_ids
    (path : string) (ids : list string) (fs : filesystem) :
  <[path := (stream_ids ids).1.1]> fs = _write_ids_file path ids fs
  ∧ (stream_ids ids).2 = length ids.
Proof. by rewrite stream_ids_joined. Qed.

End IdsFileFacts.

(** ** [rcsb_client.py]: retries and pages *)

Module RcsbClientMore.
Import RcsbClient RcsbClientFacts.

(** A reply after which [_post_with_retry] tries again (budget allowing):
    429, a 5xx status, a client or timeout error of the request, or a
    client error while the body of a 200 reply is read. *)
Definition retried (r : reply) : Prop :=
  match r with
  | Reply status body =>
      (status = 200 ∧ ∃ kind, body = Raise (ClientError kind))
      ∨ status = 429 ∨ 500 ≤ status < 600
  | Failed _ => True
  end.

(** The requests number [a], [a + 1], ... of one call, [n] of them. *)
Definition posts_from (p : payload) (net : nat → reply) (a n : nat)
    : list action :=
  (λ j, post p (net j)) <$> seq a n.

Section Client.
Variable config : RCSBClientConfig.

Lemma post_loop_effect p net fuel (a : nat) tr r tr' :
  post_loop config p net fuel (Z.of_nat a) tr = Some (r, tr') →
  ∃ k : nat,
    tr' = tr ++ posts_from p net a (S k)
    ∧ Z.of_nat (a + S k) ≤ Z.max (Z.of_nat a + 1) (max_retries config + 1)
    ∧ (∀ j, (a ≤ j < a + k)%nat → retried (net j))
    ∧ match r with
      | Ok data => net (a + k)%nat = Reply 200 (Ok data)
      | Raise _ => ∀ data, net (a + k)%nat ≠ Reply 200 (Ok data)
      end.
Proof.
  revert a tr. induction fuel as [|fuel IH]; intros a tr; [done|].
  cbn [post_loop]. rewrite Nat2Z.id.
  assert (Hstop : ∀ r0,
    match r0 with
    | Ok data => net a = Reply 200 (Ok data)
    | Raise _ => ∀ data, net a ≠ Reply 200 (Ok data)
    end →
    ∃ k : nat,
      tr ++ [post p (net a)] = tr ++ posts_from p net a (S k)
      ∧ Z.of_nat (a + S k) ≤ Z.max (Z.of_nat a + 1) (max_retries config + 1)
      ∧ (∀ j, (a ≤ j < a + k)%nat → retried (net j))
      ∧ match r0 with
        | Ok data => net (a + k)%nat = Reply 200 (Ok data)
        | Raise _ => ∀ data, net (a + k)%nat ≠ Reply 200 (Ok data)
        end).
  { intros r0 Hr0. exists 0%nat. rewrite Nat.add_0_r.
    split_and!; [done|lia|lia|done]. }
  assert (Hgo :
    retried (net a) →
    Z.of_nat a + 1 ≤ max_retries config →
    post_loop config p net fuel (Z.of_nat a + 1) (tr ++ [post p (net a)])
    = Some (r, tr') →
    ∃ k : nat,
      tr' = tr ++ posts_from p net a (S k)
      ∧ Z.of_nat (a + S k) ≤ Z.max (Z.of_nat a + 1) (max_retries config + 1)
      ∧ (∀ j, (a ≤ j < a + k)%nat → retried (net j))
      ∧ match r with
        | Ok data => net (a + k)%nat = Reply 200 (Ok data)
        | Raise _ => ∀ data, net (a + k)%nat ≠ Reply 200 (Ok data)
        end).
  { intros Hret Hle Hl.
    replace (Z.of_nat a + 1) with (Z.of_nat (S a)) in Hl by lia.
    apply IH in Hl as (k & -> & Hb & Hre & Hr).
    exists (S k). split_and!.
    - by rewrite <-app_assoc.
    - lia.
    - intros j Hj. destruct (decide (j = a)) as [->|]; [done|].
      apply Hre. lia.
    - by replace (a + S k)%nat with (S a + k)%nat by lia. }
  assert (Hh : ∀ kind,
    retried (net a) →
    (∀ data, net a ≠ Reply 200 (Ok data)) →
    (if Z.of_nat a >=? max_retries config
     then Some (Raise (ClientError kind), tr ++ [post p (net a)])
     else post_loop config p net fuel (Z.of_nat a + 1) (tr ++ [post p (net a)]))
    = Some (r, tr') →
    ∃ k : nat,
      tr' = tr ++ posts_from p net a (S k)
      ∧ Z.of_nat (a + S k) ≤ Z.max (Z.of_nat a + 1) (max_retries config + 1)
      ∧ (∀ j, (a ≤ j < a + k)%nat → retried (net j))
      ∧ match r with
        | Ok data => net (a + k)%nat = Reply 200 (Ok data)
        | Raise _ => ∀ data, net (a + k)%nat ≠ Reply 200 (Ok data)
        end).
  { intros kind Hret Hno.
    destruct (Z.geb_spec (Z.of_nat a) (max_retries config)).
    - intros [= <- <-]. apply (Hstop (Raise (ClientError kind))); exact Hno.
    - apply Hgo; [done|lia]. }
  destruct (net a) as [status body|kind] eqn:Hn.
  - destruct (Z.eqb_spec status 200) as [->|H200].
    { destruct body as [data|e].
      - intros [= <- <-]. by apply (Hstop (Ok data)).
      - assert (Hno : ∀ data,
          Reply 200 (Raise e) ≠ Reply 200 (Ok data)) by done.
        destruct e;
          try (intros [= <- <-]; apply (Hstop (Raise TypeError)); exact Hno).
        apply Hh; [|done]. left. split; [done|by eexists]. }
    assert (Hno : ∀ data, Reply status body ≠ Reply 200 (Ok data))
      by (intros data [= ? _]; done).
    destruct (Z.eqb_spec status 429) as [->|H429].
    { destruct (Z.gtb_spec (Z.of_nat a + 1) (max_retries config)).
      - intros [= <- <-]. apply (Hstop (Raise TypeError)); exact Hno.
      - apply Hgo; [|lia]. right. by left. }
    destruct ((500 <=? status) && (status <? 600)) eqn:H5.
    + apply Hh; [|done]. right. right.
      apply andb_true_iff in H5 as [?%Z.leb_le ?%Z.ltb_lt]. lia.
    + intros [= <- <-]. apply (Hstop (Raise TypeError)); exact Hno.
  - apply Hh; [done|done].
Qed.

End Client.

(** X13. One call of [_post_with_retry] sends between one and
    [max(1, max_retries + 1)] POST requests, all with the payload of the
    call. Every reply but the last was one that is retried (429, a 5xx
    status, or a client or timeout error). The call returns the parsed
    body exactly when the last reply is a 200 whose body parses, and
    raises otherwise. *)
Theorem post_with_retry_budget
    (config : RCSBClientConfig) (p : payload) (net : nat → reply)
    (tr : list action) :
  let call := _post_with_retry config p net tr in
  ∃ k : nat,
    call.2 = tr ++ posts_from p net 0 (S k)
    ∧ Z.of_nat (S k) ≤ Z.max 1 (max_retries config + 1)
    ∧ (∀ j, (j < k)%nat → retried (net j))
    ∧ match call.1 with
      | Ok data => net k = Reply 200 (Ok data)
      | Raise _ => ∀ data, net k ≠ Reply 200 (Ok data)
      end.
Proof.
  intros call. subst call. unfold _post_with_retry.
  destruct (post_loop_total config p net (S (Z.to_nat (max_retries config))) 0 tr)
    as [[r tr'] Hl]; [lia|lia|].
  rewrite Hl. simpl.
  apply (post_loop_effect config p net _ 0%nat) in Hl
    as (k & Htr & Hb & Hre & Hr).
  exists k. split_and!; [done|exact Hb| |done].
  intros j Hj. apply Hre. lia.
Qed.

(** *** The pages asked for *)

(** A page asked of a server holding [total] entries: it starts at a
    multiple of the page size below [total] and asks for as many rows as
    are left, a full page at most. *)
Definition page_within (page_size total start rows : Z) : Prop :=
  0 ≤ start < total
  ∧ start `mod` page_size = 0
  ∧ 1 ≤ rows ≤ page_size
  ∧ start + rows ≤ total
  ∧ (rows < page_size → start + rows = total).

Definition action_within (page_size total : Z) (a : action) : Prop :=
  match a with
  | on_page_call start rows page_number total' =>
      page_within page_size total start rows
      ∧ page_number = start `div` page_size + 1
      ∧ total' = total
  | post p _ => page_within page_size total (start p) (rows p)
  | yield _ => True
  end.

Lemma page_blocks_within page_size total s tr :
  0 < page_size →
  0 ≤ s →
  s `mod` page_size = 0 →
  page_blocks page_size total s tr →
  Forall (action_within page_size total) tr.
Proof.
  intros Hps Hs Hmod Hb. induction Hb as [|s posts ys rest Hlt Hne Hposts Hys Hb IH].
  { constructor. }
  assert (Hpage : page_within page_size total s (Z.min page_size (total - s))).
  { unfold page_within. split_and!; lia. }
  constructor; [done|]. rewrite !Forall_app. split_and!.
  - eapply Forall_impl; [done|]. by intros a [r ->].
  - eapply Forall_impl; [done|]. by intros a [ident ->].
  - apply IH; [lia|].
    replace (s + page_size) with (s + 1 * page_size) by lia.
    by rewrite Z.mod_add by lia.
Qed.


(** *** A run without failures *)

Definition as_yield (a : action) : option string :=
  match a with
  | yield ident => Some ident
  | _ => None
  end.

Lemma omap_yield_fmap (l : list string) : omap as_yield (yield <$> l) = l.
Proof. induction l as [|i l IH]; [done|]. simpl. by f_equal. Qed.

(** The starts of [n] successive pages from [s]. *)
Fixpoint page_starts (page_size : Z) (n : nat) (s : Z) : list Z :=
  match n with
  | O => []
  | S n' => s :: page_starts page_size n' (s + page_size)
  end.

(** The number of pages from [s] up to [total]. *)
Definition pages_left (page_size total s : Z) : nat :=
  Z.to_nat ((total - s + page_size - 1) `div` page_size).

Lemma pages_left_done page_size total s :
  0 < page_size → total ≤ s → pages_left page_size total s = 0%nat.
Proof.
  intros Hps Hle. unfold pages_left.
  assert ((total - s + page_size - 1) `div` page_size ≤ 0); [|lia].
  apply Z.lt_succ_r. apply Z.div_lt_upper_bound; lia.
Qed.

Lemma pages_left_more page_size total s :
  0 < page_size → s < total →
  pages_left page_size total s = S (pages_left page_size total (s + page_size)).
Proof.
  intros Hps Hlt. unfold pages_left.
  replace (total - s + page_size - 1)
    with ((total - (s + page_size) + page_size - 1) + 1 * page_size) by lia.
  rewrite Z.div_add by lia.
  assert (0 ≤ (total - (s + page_size) + page_size - 1) `div` page_size)
    by (apply Z.div_pos; lia).
  lia.
Qed.

Section CleanRun.
Variables (config : RCSBClientConfig) (page_size total : Z)
          (net : Z → nat → reply)
          (records : Z → list (list (string * json))).
Hypothesis page_size_pos : 0 < page_size.
Hypothesis full_pages : ∀ s, 0 ≤ s < total →
  records s ≠ [] ∧ net s 0%nat = Reply 200 (Ok (page_data (records s))).

Lemma page_loop_clean fuel s tr :
  0 ≤ s →
  (pages_left page_size total s ≤ fuel)%nat →
  ∃ tr',
    RcsbClient.page_loop config page_size true total net (S fuel) s tr
    = Some (Ok (), tr')
    ∧ omap as_yield tr'
      = omap as_yield tr
        ++ mjoin ((λ s, identifiers_of (records s))
                    <$> page_starts page_size (pages_left page_size total s) s)
    ∧ omap as_post tr'
      = omap as_post tr
        ++ ((λ s, {| start := s; rows := Z.min page_size (total - s) |})
              <$> page_starts page_size (pages_left page_size total s) s).
Proof.
  revert s tr. induction fuel as [|fuel IH]; intros s tr Hs Hfuel.
  - destruct (Z.lt_ge_cases s total) as [Hlt|Hge].
    { rewrite pages_left_more in Hfuel by done. lia. }
    rewrite page_loop_end by done. rewrite pages_left_done by done.
    exists tr. by rewrite !app_nil_r.
  - destruct (Z.lt_ge_cases s total) as [Hlt|Hge].
    + destruct (full_pages s) as [Hne Hnet]; [lia|].
      rewrite (page_loop_full_page _ _ _ _ _ _ _ (records s)) by done.
      rewrite pages_left_more in * by done.
      edestruct (IH (s + page_size)) as (tr' & -> & Hy & Hp); [lia|lia|].
      eexists. split; [done|]. rewrite Hy, Hp, !omap_app. split.
      * rewrite omap_yield_fmap. simpl. by rewrite <-!app_assoc.
      * rewrite omap_fmap_yield by done. simpl.
        rewrite <-?app_assoc. simpl. by rewrite ?app_nil_r.
    + rewrite page_loop_end by done. rewrite pages_left_done by done.
      exists tr. by rewrite !app_nil_r.
Qed.

End CleanRun.

Lemma pages_left_le_total page_size total :
  0 < page_size → (pages_left page_size total 0 ≤ Z.to_nat total)%nat.
Proof.
  intros Hps. unfold pages_left.
  destruct (Z.le_gt_cases total 0) as [Hle|Hgt].
  - assert ((total - 0 + page_size - 1) `div` page_size ≤ 0); [|lia].
    apply Z.lt_succ_r. apply Z.div_lt_upper_bound; lia.
  - apply Z2Nat.inj_le; [apply Z.div_pos; lia|lia|].
    apply Z.lt_succ_r. apply Z.div_lt_upper_bound; nia.
Qed.



End RcsbClientMore.

(** ** [run_all]: the attempt list *)

Module MainMore.
Import Downloader Main DownloaderFacts MainFacts.

Section Loop.
Context `{RandomSource}.
Variables (all_ids : list string) (success_target : nat) (seed : option Z)
          (out_dir format : string)
          (ω : nat → nat) (net : nat → nat → nat → response).

Abbreviation download_batch :=
  (Main.download_batch success_target out_dir format net).
Abbreviation top_up := (Main.top_up success_target seed ω).
Abbreviation loop_body :=
  (Main.loop_body all_ids success_target seed out_dir format ω net).
Abbreviation download_loop :=
  (Main.download_loop all_ids success_target seed out_dir format ω net).

(** The state a pass ends in, however it ends. *)
Definition state_of (f : flow) : loop_state :=
  match f with
  | Continue st | Break st | Abort _ st => st
  end.

(** How the attempt list is kept: the file [attempt_ids.txt] holds the
    list, the set of attempted identifiers is the set of its elements, it
    extends the list the loop was entered with by identifiers of the
    universe, and it has no duplicates if the universe and the first list
    have none. *)
Definition books (order : list string) (st : loop_state) : Prop :=
  attempt_file st = attempt_order st
  ∧ attempted_set st = list_to_set (attempt_order st)
  ∧ order `prefix_of` attempt_order st
  ∧ attempt_order st ⊆ order ++ all_ids
  ∧ (NoDup all_ids → NoDup order → NoDup (attempt_order st)).

Lemma download_batch_keeps pass st :
  attempt_order (state_of (download_batch pass st)) = attempt_order st
  ∧ attempted_set (state_of (download_batch pass st)) = attempted_set st
  ∧ attempt_file (state_of (download_batch pass st)) = attempt_file st.
Proof.
  unfold Main.download_batch.
  destruct (download_entries _ _ _ _ _ _ _) as [[paths|e] w']; [|done].
  by rewrite foldl_on_event.
Qed.

Lemma top_up_books order pass st :
  books order st →
  books order
    (top_up pass (filter (λ e, e ∉ attempted_set st) all_ids) st).
Proof.
  intros (Hfile & Hset & Hpre & Hsub & Hnd).
  set (pool := filter (λ e, e ∉ attempted_set st) all_ids).
  destruct (top_up_spec success_target seed ω pass pool st)
    as (Horder & Hatt & _).
  set (topup := take (success_target - success_count st)
                  (shuffle (make_rng seed (ω pass)) pool)) in *.
  assert (Hin : ∀ x, x ∈ topup → x ∈ all_ids ∧ x ∉ attempt_order st).
  { intros x Hx%(subseteq_take _ _ x).
    rewrite (PyRandomFacts.shuffle_Permutation (make_rng seed (ω pass)) pool) in Hx.
    apply list_elem_of_filter in Hx as [Hx ?]. split; [done|].
    rewrite Hset in Hx. by rewrite elem_of_list_to_set in Hx. }
  unfold books. rewrite Horder, Hatt. split_and!.
  - done.
  - by rewrite list_to_set_app_L, Hset.
  - by apply prefix_app_r.
  - intros x [Hx|Hx]%elem_of_app; [by apply Hsub|].
    apply elem_of_app. right. by apply Hin.
  - intros Hall Hord. apply NoDup_app. split_and!.
    + by apply Hnd.
    + intros x Hx Hx'. by apply (Hin x).
    + eapply sublist_NoDup; [|apply sublist_take].
      rewrite (PyRandomFacts.shuffle_Permutation (make_rng seed (ω pass)) pool).
      by apply NoDup_filter.
Qed.

Lemma books_same order st st' :
  attempt_order st' = attempt_order st →
  attempted_set st' = attempted_set st →
  attempt_file st' = attempt_file st →
  books order st → books order st'.
Proof. unfold books. by intros -> -> ->. Qed.

Lemma loop_body_books order pass st :
  books order st → books order (state_of (loop_body pass st)).
Proof.
  intros Hb. unfold Main.loop_body.
  case_bool_decide as Hqueue.
  - case_bool_decide as Hpool; [done|].
    set (st1 := top_up pass _ st).
    destruct (download_batch_keeps pass st1) as (? & ? & ?).
    eapply books_same; [done..|]. by apply top_up_books.
  - destruct (download_batch_keeps pass st) as (? & ? & ?).
    by eapply books_same.
Qed.

Lemma download_loop_books order fuel pass st exit st' :
  books order st →
  download_loop fuel pass st = Some (exit, st') →
  books order st'.
Proof.
  revert pass st. induction fuel as [|fuel IH]; intros pass st Hb; [done|].
  cbn [Main.download_loop]. case_bool_decide as Hlt.
  - pose proof (loop_body_books order pass st Hb) as Hb'.
    destruct (loop_body pass st) as [st1|st1|e st1]; simpl in Hb'.
    + by apply IH.
    + by intros [= <- <-].
    + by intros [= <- <-].
  - by intros [= <- <-].
Qed.

End Loop.

Lemma initial_books (all_ids order : list string) files log0 :
  books all_ids order (initial order files log0).
Proof. unfold books. by split_and!; [..|set_solver|]. Qed.

(** X16. However the download loop of [run_all] is left, the attempt list
    has been kept in step: the file [attempt_ids.txt] holds the list as it
    is in memory, the list starts with the list the loop was entered with
    and was only extended by identifiers of the universe, and no
    identifier occurs in it twice when none occurs twice in the universe
    or in the first list; so no identifier is queued for download a second
    time by a top-up. *)
Theorem attempt_list_kept_in_step `{RandomSource}
    (all_ids : list string) (success_target : nat) (seed : option Z)
    (out_dir format : string) (ω : nat → nat)
    (net : nat → nat → nat → response)
    (order : list string) (files : filesystem) (log0 : list event)
    (fuel : nat) (exit : exit) (st : loop_state) :
  download_loop all_ids success_target seed out_dir format ω net
    fuel 0 (initial order files log0) = Some (exit, st) →
  attempt_file st = attempt_order st
  ∧ attempted_set st = list_to_set (attempt_order st)
  ∧ order `prefix_of` attempt_order st
  ∧ attempt_order st ⊆ order ++ all_ids
  ∧ (NoDup all_ids → NoDup order → NoDup (attempt_order st)).
Proof.
  intros Hl.
  exact (download_loop_books all_ids success_target seed out_dir format
           ω net order _ _ _ _ _ (initial_books all_ids order files log0) Hl).
Qed.

(** The state in which the run against the server that always answers 404
    is left. *)
Definition exhausted_state : loop_state :=
  default (initial ["1ABC"] ∅ [])
    (snd <$> download_loop ["1ABC"; "2DEF"] 1 (Some 7) "downloads" "pdb"
               (λ _, 0%nat) always_404 3 0 (initial ["1ABC"] ∅ [])).

Lemma attempt_list_kept_in_step_witness :
  attempt_file exhausted_state = attempt_order exhausted_state
  ∧ attempted_set exhausted_state = list_to_set (attempt_order exhausted_state)
  ∧ ["1ABC"] `prefix_of` attempt_order exhausted_state
  ∧ attempt_order exhausted_state ⊆ ["1ABC"] ++ ["1ABC"; "2DEF"]
  ∧ (NoDup ["1ABC"; "2DEF"] → NoDup ["1ABC"]
     → NoDup (attempt_order exhausted_state)).
Proof.
  apply (attempt_list_kept_in_step ["1ABC"; "2DEF"] 1 (Some 7) "downloads"
           "pdb" (λ _, 0%nat) always_404 ["1ABC"] ∅ [] 3 Exhausted).
  by vm_compute.
Defined.



(** *** When every download succeeds *)

Section AllOk.
Variables (out_dir file_format : string) (cfg : DownloadConfig).

Lemma is_success_skip i path : is_success (download_skip i path).
Proof. unfold is_success. simpl. by repeat constructor. Qed.

Lemma is_success_ok i path size attempts :
  is_success (download_ok i path size attempts).
Proof. unfold is_success. simpl. by repeat constructor. Qed.

Lemma successes_all evs : Forall is_success evs → successes evs = length evs.
Proof.
  induction 1 as [|ev evs Hev _ IH]; [done|].
  rewrite successes_cons, IH, bool_decide_eq_true_2 by done. done.
Qed.

(** A first reply 200 ends the download at once. *)
Lemma fetch_200 entry_id net w data :
  net 0%nat = Response 200 data →
  ∃ ev, is_success ev
    ∧ emitted w (Downloader.fetch out_dir file_format cfg true entry_id net w).2 [ev].
Proof.
  intros Hnet. unfold Downloader.fetch. cbn [Downloader.attempt_loop].
  change (Z.to_nat 0) with 0%nat. rewrite Hnet. simpl.
  eexists. split; [apply is_success_ok|]. by unfold emitted.
Qed.

Lemma start_all_successes ids w :
  ∃ evs,
    emitted w (Downloader.start_all out_dir file_format true ids w).2 evs
    ∧ Forall is_success evs
    ∧ length evs
      = length (DownloaderMore.skipped
                  (Downloader.start_all out_dir file_format true ids w).1)
    ∧ length (Downloader.start_all out_dir file_format true ids w).1
      = length ids.
Proof.
  revert w. induction ids as [|eid ids IH]; intros w.
  { exists []. split_and!; [apply emitted_refl|done..]. }
  simpl. unfold skip_if_exists.
  destruct (exists_nonempty _ _).
  - set (w1 := notify true _ w).
    destruct (IH w1) as (evs & Hev & Hall & Hlen & Htasks).
    destruct (Downloader.start_all _ _ _ ids w1) as [rs w2]. simpl in *.
    exists (download_skip eid (target_of out_dir file_format eid) :: evs).
    split_and!.
    + eapply emitted_cons; [apply emitted_notify|done].
    + constructor; [apply is_success_skip|done].
    + simpl. by f_equal.
    + by f_equal.
  - destruct (IH w) as (evs & Hev & Hall & Hlen & Htasks).
    destruct (Downloader.start_all _ _ _ ids w) as [rs w2]. simpl in *.
    exists evs. split_and!; [done|done|done|by f_equal].
Qed.

Lemma finish_all_successes tasks t net w :
  (∀ t, ∃ data, net t 0%nat = Response 200 data) →
  ∃ evs,
    emitted w (Downloader.finish_all out_dir file_format cfg true tasks t net w).2 evs
    ∧ Forall is_success evs
    ∧ length evs = length (DownloaderMore.fetched tasks).
Proof.
  intros Hnet. revert t w.
  induction tasks as [|[eid [path|]] tasks IH]; intros t w.
  - exists []. split_and!; [apply emitted_refl|done..].
  - simpl. destruct (IH (S t) w) as (evs & Hev & Hall & Hlen).
    destruct (Downloader.finish_all _ _ _ _ tasks (S t) net w) as [rs w1].
    by exists evs.
  - simpl. destruct (Hnet t) as [data Hdata].
    destruct (fetch_200 eid (net t) w data Hdata) as (ev & Hs & Hev).
    destruct (Downloader.fetch _ _ _ _ eid (net t) w) as [r w1]. simpl in *.
    destruct (IH (S t) w1) as (evs & Hevs & Hall & Hlen).
    destruct (Downloader.finish_all _ _ _ _ tasks (S t) net w1) as [rs w2].
    simpl in *. exists (ev :: evs). split_and!.
    + by eapply emitted_cons.
    + by constructor.
    + simpl. by f_equal.
Qed.

Lemma gather_successes ids net w :
  (∀ t, ∃ data, net t 0%nat = Response 200 data) →
  ∃ evs,
    emitted w (Downloader.gather out_dir file_format cfg true ids net w).2 evs
    ∧ Forall is_success evs
    ∧ length evs = length ids.
Proof.
  intros Hnet. unfold Downloader.gather.
  destruct (start_all_successes ids w) as (evs1 & Hev1 & Hall1 & Hlen1 & Htasks).
  destruct (Downloader.start_all _ _ _ ids w) as [tasks w1]. simpl in *.
  destruct (finish_all_successes tasks 0 net w1 Hnet) as (evs2 & Hev2 & Hall2 & Hlen2).
  exists (evs1 ++ evs2). split_and!.
  - by eapply emitted_trans.
  - by apply Forall_app.
  - rewrite length_app, Hlen1, Hlen2, <-length_app.
    rewrite (DownloaderMore.skipped_or_fetched tasks), length_fmap. done.
Qed.

End AllOk.

Lemma download_entries_successes ids out_dir file_format cfg net w :
  Forall CleanIdsFacts.trimmed ids →
  lower file_format ∈ ["cif"; "pdb"] →
  (∀ t, ∃ data, net t 0%nat = Response 200 data) →
  ∃ paths evs,
    (download_entries ids out_dir file_format cfg true net w).1 = Ok paths
    ∧ emitted w (download_entries ids out_dir file_format cfg true net w).2 evs
    ∧ Forall is_success evs
    ∧ length evs = length ids.
Proof.
  intros Hids Hfmt Hnet. unfold download_entries.
  rewrite (CleanIdsFacts.clean_ids_fixed ids Hids).
  case_bool_decide as Hnil.
  { subst ids. exists [], []. split_and!; [done|apply emitted_refl|done..]. }
  rewrite bool_decide_eq_true_2 by done.
  destruct (gather_successes out_dir (lower file_format)
              (default default_config cfg) ids net w Hnet)
    as (evs & Hev & Hall & Hlen).
  destruct (Downloader.gather _ _ _ _ _ _ _) as [results w']. simpl in *.
  by exists (omap id results), evs.
Qed.

Section OnePass.
Context `{RandomSource}.
Variables (all_ids : list string) (seed : option Z)
          (out_dir format : string)
          (ω : nat → nat) (net : nat → nat → nat → response).

(** A batch whose downloads all succeed adds its size to the counter. *)
Lemma download_batch_successes target pass st :
  Forall CleanIdsFacts.trimmed (Main.batch_of target st) →
  lower format ∈ ["cif"; "pdb"] →
  (∀ t, ∃ data, net pass t 0%nat = Response 200 data) →
  ∃ st' evs,
    Main.download_batch target out_dir format net pass st = Continue st'
    ∧ success_count st'
      = (success_count st + length (Main.batch_of target st))%nat
    ∧ attempt_order st' = attempt_order st
    ∧ idx st' = (idx st + length (Main.batch_of target st))%nat
    ∧ log st'
      = log st ++ download_start (length (Main.batch_of target st))
                    out_dir format :: evs
    ∧ Forall is_success evs
    ∧ length evs = length (Main.batch_of target st).
Proof.
  intros Hids Hfmt Hnet. unfold Main.download_batch.
  set (batch := Main.batch_of target st) in *.
  set (st1 := emit (download_start (length batch) out_dir format) st).
  change (Main.batch_of target st1) with batch.
  set (w := {| files := fs st1; events := []; requests := sent st1 |}).
  destruct (download_entries_successes batch out_dir format None (net pass) w
              Hids Hfmt Hnet) as (paths & evs & Hr & Hev & Hall & Hlen).
  destruct (download_entries batch out_dir format None true (net pass) w)
    as [r w']. simpl in Hr, Hev. subst r.
  unfold emitted in Hev. simpl in Hev.
  rewrite foldl_on_event. simpl. rewrite Hev.
  eexists _, evs. split; [done|]. simpl.
  rewrite successes_all, Hlen, <-app_assoc by done. by split_and!.
Qed.

End OnePass.

(** X18. When the server answers the first request of every download of
    the first batch with a 200, the download loop of [run_all] is done
    after that one batch: every identifier of the attempt list (trimmed,
    as [_read_ids_file] gives them) counts as a success, the target, the
    length of the list, is met exactly, the attempt list is not extended
    and no top-up takes place. *)
Theorem all_succeed_in_one_batch `{RandomSource}
    (all_ids : list string) (seed : option Z)
    (out_dir format : string) (ω : nat → nat)
    (net : nat → nat → nat → response)
    (order : list string) (files : filesystem) (log0 : list event)
    (fuel : nat) :
  Forall CleanIdsFacts.trimmed order →
  lower format ∈ ["cif"; "pdb"] →
  (∀ t, ∃ data, net 0%nat t 0%nat = Response 200 data) →
  ∃ st evs,
    download_loop all_ids (length order) seed out_dir format ω net
      (S (S fuel)) 0 (initial order files log0) = Some (Done, st)
    ∧ success_count st = length order
    ∧ attempt_order st = order
    ∧ log st
      = log0 ++ (if bool_decide (order = []) then []
                 else download_start (length order) out_dir format :: evs)
    ∧ Forall is_success evs
    ∧ length evs = length order.
Proof.
  intros Hids Hfmt Hnet.
  destruct (decide (order = [])) as [->|Hne].
  { exists (initial [] files log0), []. split_and!; try done.
    simpl. by rewrite app_nil_r. }
  assert (Hbatch : Main.batch_of (length order) (initial order files log0) = order).
  { unfold Main.batch_of. simpl. rewrite Nat.sub_0_r. by apply take_ge. }
  destruct (download_batch_successes out_dir format net (length order) 0
              (initial order files log0)) as (st' & evs & Hb & Hc & Ho & _ & Hlog & Hall & Hlen);
    [by rewrite Hbatch|done|done|].
  rewrite Hbatch in *. simpl in Hc, Ho, Hlog.
  exists st', evs.
  rewrite (bool_decide_eq_false_2 (order = [])) by done.
  split_and!; try done.
  cbn [download_loop]. simpl success_count.
  rewrite bool_decide_eq_true_2 by (destruct order; [done|simpl; lia]).
  unfold loop_body. simpl idx. simpl attempt_order. rewrite drop_0.
  rewrite bool_decide_eq_false_2 by done. rewrite Hb.
  by rewrite bool_decide_eq_false_2 by lia.
Qed.

Lemma all_succeed_in_one_batch_witness :
  ∃ st evs,
    download_loop ["1ABC"; "2DEF"; "3GHI"] (length ["1ABC"; "2DEF"]) (Some 7)
      "downloads" "pdb" (λ _, 0%nat) (λ _ _ _, Response 200 "ATOM")
      (S (S 0)) 0 (initial ["1ABC"; "2DEF"] ∅ []) = Some (Done, st)
    ∧ success_count st = length ["1ABC"; "2DEF"]
    ∧ attempt_order st = ["1ABC"; "2DEF"]
    ∧ log st
      = [] ++ (if bool_decide (["1ABC"; "2DEF"] = []) then []
               else download_start (length ["1ABC"; "2DEF"]) "downloads" "pdb"
                      :: evs)
    ∧ Forall is_success evs
    ∧ length evs = length ["1ABC"; "2DEF"].
Proof.
  apply (all_succeed_in_one_batch ["1ABC"; "2DEF"; "3GHI"] (Some 7)
           "downloads" "pdb" (λ _, 0%nat) (λ _ _ _, Response 200 "ATOM")
           ["1ABC"; "2DEF"] ∅ [] 0).
  - repeat (apply Forall_cons; split;
            [unfold CleanIdsFacts.trimmed; split_and!; by_compute|]).
    constructor.
  - by_compute.
  - intros t. by eexists.
Defined.

(** *** When every file is already there *)

Section AllThere.
Variables (out_dir file_format : string) (cfg : DownloadConfig).

Abbreviation target_here := (target_of out_dir file_format).

(** The events of a batch that is skipped as a whole. *)
Definition skips (ids : list string) : list event :=
  (λ i, download_skip i (target_here i)) <$> ids.

Lemma start_all_all_there ids w :
  Forall (λ i, exists_nonempty (files w) (target_here i) = true) ids →
  Downloader.start_all out_dir file_format true ids w
  = ((λ i, (i, Some (target_here i))) <$> ids,
     {| files := files w; events := events w ++ skips ids;
        requests := requests w |}).
Proof.
  revert w. induction ids as [|i ids IH]; intros w Hall.
  { simpl. rewrite app_nil_r. by destruct w. }
  apply Forall_cons in Hall as [Hi Hall].
  cbn [Downloader.start_all]. unfold skip_if_exists. rewrite Hi.
  rewrite IH by done. simpl. by rewrite <-app_assoc.
Qed.

Lemma finish_all_all_skipped ids t net w :
  Downloader.finish_all out_dir file_format cfg true
    ((λ i, (i, Some (target_here i))) <$> ids) t net w
  = (Some ∘ target_here <$> ids, w).
Proof.
  revert t. induction ids as [|i ids IH]; intros t; [done|].
  simpl. by rewrite IH.
Qed.

End AllThere.

Lemma download_entries_all_there ids out_dir file_format cfg net w :
  Forall CleanIdsFacts.trimmed ids →
  lower file_format ∈ ["cif"; "pdb"] →
  Forall (λ i, exists_nonempty (files w)
                 (target_of out_dir (lower file_format) i) = true) ids →
  download_entries ids out_dir file_format cfg true net w
  = (Ok (target_of out_dir (lower file_format) <$> ids),
     {| files := files w;
        events := events w ++ skips out_dir (lower file_format) ids;
        requests := requests w |}).
Proof.
  intros Hids Hfmt Hall. unfold download_entries.
  rewrite (CleanIdsFacts.clean_ids_fixed ids Hids).
  case_bool_decide as Hnil.
  { subst ids. simpl. rewrite app_nil_r. by destruct w. }
  rewrite bool_decide_eq_true_2 by done.
  unfold Downloader.gather. rewrite start_all_all_there by done.
  rewrite finish_all_all_skipped. f_equal. f_equal.
  clear. induction ids as [|i ids IH]; [done|]. simpl. by f_equal.
Qed.

Lemma successes_skips out_dir file_format ids :
  successes (skips out_dir file_format ids) = length ids.
Proof.
  rewrite successes_all; [by unfold skips; rewrite length_fmap|].
  unfold skips. apply Forall_fmap, Forall_forall. intros i _.
  apply is_success_skip.
Qed.

(** X24. Running the download loop of [run_all] again when every file of
    the attempt list is already on disk, non-empty, sends no request and
    writes no file: the one batch is skipped as a whole, one
    [download_skip] per identifier in the order of the list, every skip
    counts as a success, and the loop is done with the target met. *)
Theorem rerun_downloads_nothing `{RandomSource}
    (all_ids : list string) (seed : option Z)
    (out_dir format : string) (ω : nat → nat)
    (net : nat → nat → nat → response)
    (order : list string) (files : filesystem) (log0 : list event)
    (fuel : nat) :
  Forall CleanIdsFacts.trimmed order →
  lower format ∈ ["cif"; "pdb"] →
  Forall (λ i, exists_nonempty files
                 (target_of out_dir (lower format) i) = true) order →
  ∃ st,
    download_loop all_ids (length order) seed out_dir format ω net
      (S (S fuel)) 0 (initial order files log0) = Some (Done, st)
    ∧ sent st = []
    ∧ fs st = files
    ∧ success_count st = length order
    ∧ attempt_order st = order
    ∧ log st
      = log0 ++ (if bool_decide (order = []) then []
                 else download_start (length order) out_dir format
                        :: skips out_dir (lower format) order).
Proof.
  intros Hids Hfmt Hall.
  destruct (decide (order = [])) as [->|Hne].
  { exists (initial [] files log0). split_and!; try done.
    simpl. by rewrite app_nil_r. }
  assert (Hbatch : Main.batch_of (length order) (initial order files log0) = order).
  { unfold Main.batch_of. simpl. rewrite Nat.sub_0_r. by apply take_ge. }
  rewrite (bool_decide_eq_false_2 (order = [])) by done.
  cbn [download_loop]. simpl success_count.
  rewrite bool_decide_eq_true_2 by (destruct order; [done|simpl; lia]).
  unfold loop_body. simpl idx. simpl attempt_order. rewrite drop_0.
  rewrite bool_decide_eq_false_2 by done.
  unfold Main.download_batch. rewrite Hbatch.
  rewrite download_entries_all_there by done.
  rewrite foldl_on_event. simpl. rewrite successes_skips.
  rewrite bool_decide_eq_false_2 by lia.
  eexists. split; [done|]. simpl. rewrite <-app_assoc. by split_and!.
Qed.

Lemma rerun_downloads_nothing_witness :
  ∃ st,
    download_loop ["1ABC"; "2DEF"] (length ["1ABC"]) (Some 7)
      "downloads" "pdb" (λ _, 0%nat) always_404
      (S (S 0)) 0 (initial ["1ABC"] (files world_with_1ABC) [])
    = Some (Done, st)
    ∧ sent st = []
    ∧ fs st = files world_with_1ABC
    ∧ success_count st = length ["1ABC"]
    ∧ attempt_order st = ["1ABC"]
    ∧ log st
      = [] ++ (if bool_decide (["1ABC"] = []) then []
               else download_start (length ["1ABC"]) "downloads" "pdb"
                      :: skips "downloads" (lower "pdb") ["1ABC"]).
Proof.
  apply (rerun_downloads_nothing ["1ABC"; "2DEF"] (Some 7) "downloads" "pdb"
           (λ _, 0%nat) always_404 ["1ABC"] (files world_with_1ABC) [] 0).
  - repeat (apply Forall_cons; split;
            [unfold CleanIdsFacts.trimmed; split_and!; by_compute|]).
    constructor.
  - by_compute.
  - repeat (apply Forall_cons; split; [by vm_compute|]). constructor.
Defined.

End MainMore.

(** ** [sampling.py]: what a call returns *)

Module SamplingMore.
Import Sampling SamplingFacts.

(** What a call gives back: a new list object holding the first [k]
    elements of the shuffled input, with [k = 0] exactly for an empty input
    or a clamped percentage that is not above zero. *)
Lemma sample_ids_result `{RandomSource}
    (ids : loc) (percent : float) (seed : option Z) (ω : nat) (σ : heap)
    (l : list string) :
  σ !! ids = Some l →
  match sample_ids ids percent seed ω σ with
  | (Ok r, σ') =>
      σ !! r = None
      ∧ ∃ k : nat,
          σ' !! r = Some (take k (PyRandom.shuffle (PyRandom.make_rng seed ω) l))
          ∧ (k ≤ length l)%nat
          ∧ (k = 0%nat ↔ l = [] ∨ fle (clamp_percent percent) f0 = true)
  | (Raise _, σ') => σ' = σ
  end.
Proof.
  intros Hids.
  assert (Hempty : ∀ P : Prop, P →
    match new_list [] σ with
    | (r, σ') =>
        σ !! r = None
        ∧ ∃ k : nat,
            σ' !! r = Some (take k (PyRandom.shuffle (PyRandom.make_rng seed ω) l))
            ∧ (k ≤ length l)%nat
            ∧ (k = 0%nat ↔ P)
    end).
  { intros P HP. pose proof (new_list_fresh [] σ) as Hfresh.
    pose proof (new_list_lookup [] σ) as Hlook.
    destruct (new_list [] σ) as [r σ']. simpl in *.
    split; [done|]. exists 0%nat. split_and!; [done|lia|done]. }
  destruct (decide (l = [])) as [Hl|Hl].
  { unfold sample_ids. rewrite Hids, bool_decide_eq_true_2 by done.
    specialize (Hempty (l = [] ∨ fle (clamp_percent percent) f0 = true)).
    destruct (new_list [] σ) as [r σ']. apply Hempty. by left. }
  destruct (fle (clamp_percent percent) f0) eqn:Hp.
  { unfold sample_ids. rewrite Hids, bool_decide_eq_false_2, Hp by done.
    specialize (Hempty (l = [] ∨ true = true)).
    destruct (new_list [] σ) as [r σ']. apply Hempty. by right. }
  destruct (sample_size (Z.of_nat (length l)) (clamp_percent percent))
    as [k|e] eqn:Hk.
  - rewrite (sample_ids_sampling ids percent seed ω σ l k) by done.
    set (pool := fresh (dom σ)).
    set (σ2 := <[pool := PyRandom.shuffle (PyRandom.make_rng seed ω) l]> σ).
    assert (1 ≤ Z.of_nat (length l)) by (destruct l; simpl in *; [done|lia]).
    apply sample_size_bounds in Hk as Hb; [|done].
    split.
    + assert (σ2 !! fresh (dom σ2) = None) as Hf
        by apply not_elem_of_dom, is_fresh.
      unfold σ2 in Hf at 1. apply lookup_insert_None in Hf. by destruct Hf.
    + exists (Z.to_nat k). rewrite lookup_insert_eq.
      split_and!; [done|lia|]. split; [lia|by intros [?|?]].
  - unfold sample_ids. by rewrite Hids, bool_decide_eq_false_2, Hp, Hk by done.
Qed.

(** The first elements of a shuffled list. *)
Lemma take_shuffle `{RandomSource} g (k : nat) (l : list string) :
  let out := take k (PyRandom.shuffle g l) in
  out ⊆ l
  ∧ (length out ≤ length l)%nat
  ∧ (NoDup l → NoDup out).
Proof.
  intros out. subst out.
  pose proof (PyRandomFacts.shuffle_Permutation g l) as Hperm.
  split_and!.
  - intros x Hx%(subseteq_take _ _ x). by rewrite <-Hperm.
  - rewrite length_take, Hperm. lia.
  - intros Hnd. eapply sublist_NoDup; [|apply sublist_take]. by rewrite Hperm.
Qed.

(** X19. A call of [sample_ids] that returns gives back a new list
    object, one that did not exist before the call (so changing the
    result never changes the input). The list holds only identifiers of
    the input, no more of them than the input has, it is the beginning of
    a rearrangement of the input, and it has no duplicates when the input
    has none. It is empty exactly when the input is empty or the clamped
    percentage is not above zero. A call that raises leaves the heap as it
    was. *)
Theorem sample_ids_returns_fresh_sublist `{RandomSource}
    (ids : loc) (percent : float) (seed : option Z) (ω : nat) (σ : heap)
    (l : list string) :
  σ !! ids = Some l →
  match sample_ids ids percent seed ω σ with
  | (Ok r, σ') =>
      σ !! r = None
      ∧ ∃ out, σ' !! r = Some out
          ∧ out ⊆ l
          ∧ (length out ≤ length l)%nat
          ∧ (∃ l', l' ≡ₚ l ∧ out `prefix_of` l')
          ∧ (NoDup l → NoDup out)
          ∧ (out = [] ↔ l = [] ∨ fle (clamp_percent percent) f0 = true)
  | (Raise _, σ') => σ' = σ
  end.
Proof.
  intros Hids.
  pose proof (sample_ids_result ids percent seed ω σ l Hids) as Hres.
  destruct (sample_ids ids percent seed ω σ) as [[r|e] σ']; [|done].
  destruct Hres as (Hfresh & k & Hlook & Hk & Hzero).
  split; [done|]. eexists. split; [done|].
  destruct (take_shuffle (PyRandom.make_rng seed ω) k l) as (Hsub & Hlen & Hnd).
  pose proof (PyRandomFacts.shuffle_Permutation (PyRandom.make_rng seed ω) l)
    as Hperm.
  split_and!; [done|done| |done|].
  - eexists. split; [done|]. apply prefix_take.
  - rewrite <-Hzero. split.
    + intros Hnil%(f_equal length). rewrite length_take, Hperm in Hnil.
      simpl in Hnil. lia.
    + by intros ->.
Qed.

Lemma sample_ids_returns_fresh_sublist_witness :
  match @sample_ids PyRandomFacts.lcg_source 1%positive f100 (Some 7) 0
          {[ 1%positive := ["1ABC"; "2DEF"; "3GHI"] ]} with
  | (Ok r, σ') =>
      ({[ 1%positive := ["1ABC"; "2DEF"; "3GHI"] ]} : heap) !! r = None
      ∧ ∃ out, σ' !! r = Some out
          ∧ out ⊆ ["1ABC"; "2DEF"; "3GHI"]
          ∧ (length out ≤ length ["1ABC"; "2DEF"; "3GHI"])%nat
          ∧ (∃ l', l' ≡ₚ ["1ABC"; "2DEF"; "3GHI"] ∧ out `prefix_of` l')
          ∧ (NoDup ["1ABC"; "2DEF"; "3GHI"] → NoDup out)
          ∧ (out = [] ↔ ["1ABC"; "2DEF"; "3GHI"] = []
                        ∨ fle (clamp_percent f100) f0 = true)
  | (Raise _, σ') => σ' = {[ 1%positive := ["1ABC"; "2DEF"; "3GHI"] ]}
  end.
Proof.
  apply (@sample_ids_returns_fresh_sublist PyRandomFacts.lcg_source
           1%positive f100 (Some 7) 0
           {[ 1%positive := ["1ABC"; "2DEF"; "3GHI"] ]}
           ["1ABC"; "2DEF"; "3GHI"]).
  reflexivity.
Defined.

End SamplingMore.

(** ** [__main__.py]: the commands *)

Module CommandsFacts.
Import Downloader IdsFile Sampling Commands.
Import DownloaderFacts DownloaderMore CleanIdsFacts IdsFileFacts.
Import RcsbClientMore SamplingMore.

(** The event by which a page is announced. *)
Definition page_notice (a : RcsbClient.action) : option notice :=
  match a with
  | RcsbClient.on_page_call start rows page_number total =>
      Some (engine (enumerate_page page_number start rows total))
  | _ => None
  end.

Lemma foldl_consume tr st ns :
  foldl consume (st, ns) tr
  = (foldl stream_step st (omap as_yield tr), ns ++ omap page_notice tr).
Proof.
  revert st ns. induction tr as [|a tr IH]; intros st ns.
  { simpl. by rewrite app_nil_r. }
  destruct a as [start rows page_number total|p r|eid]; cbn [foldl consume].
  - simpl. rewrite IH. simpl. by rewrite <-app_assoc.
  - apply IH.
  - simpl. apply IH.
Qed.

(** X20. [list-ids] with [--resume] and a non-empty output file changes
    nothing. Otherwise the output file ends up holding the identifiers
    that the enumeration yielded, in that order and comma-separated, also
    when the enumeration fails on the way (the identifiers received up to
    then); every other file is as before; the pages are announced in
    order, and the final notice, printed only when the enumeration ended
    normally, carries the number of identifiers written. When the
    identifiers are well formed, reading the file back gives them. *)
Theorem list_ids_streams_enumeration
    (out : string) (page_size : Z) (resume : bool) (count : result Z)
    (net : Z → nat → RcsbClient.reply) (fs : filesystem) :
  let r := list_ids out page_size resume count net fs in
  let enum :=
    RcsbClient.enumerate_entry_ids client_defaults page_size true count net in
  let ids := omap as_yield enum.2 in
  if resume && exists_nonempty fs out
  then r = {| how := Returned; files_after := fs;
              printed := [ids_resume_skip out] |}
  else files_after r = _write_ids_file out ids fs
       ∧ (∀ path, path ≠ out → files_after r !! path = fs !! path)
       ∧ how r = match enum.1 with
                 | Ok _ => Returned
                 | Raise e => Propagated e
                 end
       ∧ printed r
         = omap page_notice enum.2
           ++ match enum.1 with
              | Ok _ => [written (length ids) out]
              | Raise _ => []
              end
       ∧ (Forall well_formed ids
          → _read_ids_file out (files_after r) = Some ids).
Proof.
  intros r enum ids. subst r. unfold list_ids.
  destruct (resume && exists_nonempty fs out); [done|].
  subst ids enum.
  destruct (RcsbClient.enumerate_entry_ids _ _ _ _ _) as [res tr].
  rewrite foldl_consume. cbn [fst snd].
  change (foldl stream_step ("", true, 0%nat) (omap as_yield tr))
    with (stream_ids (omap as_yield tr)).
  rewrite stream_ids_joined. cbn [app].
  assert (Hread : Forall well_formed (omap as_yield tr) →
    _read_ids_file out (_write_ids_file out (omap as_yield tr) fs)
    = Some (omap as_yield tr)).
  { intros Hwf. unfold _read_ids_file, _write_ids_file.
    rewrite lookup_insert_eq. simpl. f_equal. by apply read_ids_joined. }
  assert (Hother : ∀ path, path ≠ out →
    _write_ids_file out (omap as_yield tr) fs !! path = fs !! path).
  { intros path Hne. unfold _write_ids_file. by rewrite lookup_insert_ne. }
  destruct res as [[]|e]; cbn [files_after how printed];
    rewrite ?app_nil_r; by split_and!.
Qed.

Section WithRandom.
Context `{RandomSource}.

(** X21. [sample] with [--resume] and a non-empty output file changes
    nothing. Otherwise, when it returns, the output file holds a subset of
    the identifiers of the input file, no more of them than the input
    has, and reading the output file back gives exactly the sampled
    list, whose length is the number printed; every other file is as
    before. When it does not return, no file has changed and nothing was
    printed. *)
Theorem sample_writes_subset_of_input
    (ids out : string) (percent : float) (seed : option Z) (resume : bool)
    (ω : nat) (fs : filesystem) :
  let r := sample ids out percent seed resume ω fs in
  match how r with
  | Returned =>
      if resume && exists_nonempty fs out
      then files_after r = fs ∧ printed r = [sample_resume_skip out]
      else ∃ id_list subset,
             _read_ids_file ids fs = Some id_list
             ∧ subset ⊆ id_list
             ∧ (length subset ≤ length id_list)%nat
             ∧ (NoDup id_list → NoDup subset)
             ∧ _read_ids_file out (files_after r) = Some subset
             ∧ printed r = [sampled (length subset) out]
             ∧ ∀ path, path ≠ out → files_after r !! path = fs !! path
  | _ => files_after r = fs ∧ printed r = []
  end.
Proof.
  intros r. subst r. unfold sample.
  destruct (resume && exists_nonempty fs out); [done|].
  destruct (_read_ids_file ids fs) as [id_list|] eqn:Hread; [|done].
  pose proof (sample_ids_result (new_list id_list ∅).1 percent seed ω
                (new_list id_list ∅).2 id_list
                (SamplingFacts.new_list_lookup id_list ∅))
    as Hres.
  destruct (new_list id_list ∅) as [l σ]. simpl in Hres.
  destruct (sample_ids l percent seed ω σ) as [[r|e] σ']; [|done].
  destruct Hres as (_ & k & Hlook & _).
  destruct (take_shuffle (PyRandom.make_rng seed ω) k id_list)
    as (Hsub & Hlen & Hnd).
  rewrite Hlook. simpl.
  eexists id_list, _. split_and!; try done.
  - unfold _read_ids_file, _write_ids_file. rewrite lookup_insert_eq. simpl.
    f_equal. apply read_ids_joined.
    unfold _read_ids_file in Hread.
    destruct (fs !! ids) as [text|]; [|done]. injection Hread as <-.
    pose proof (read_ids_well_formed text) as Hwf.
    rewrite Forall_forall in Hwf |- *. intros i Hi. by apply Hwf, Hsub.
  - intros path Hne. unfold _write_ids_file. by rewrite lookup_insert_ne.
Qed.

End WithRandom.

(** X22. When [fetch] returns, it has read the identifier file and
    printed, in this order: [download_start] with the number of
    identifiers read from the file, exactly one outcome event
    ([download_skip], [download_ok] or [download_error]) for every
    identifier of the file, and the number of paths returned, which is the
    number of [download_ok] and [download_skip] events among them. *)
Theorem fetch_reports_every_identifier
    (ids out format : string) (net : nat → nat → response)
    (fs : filesystem) :
  let r := fetch ids out format net fs in
  match how r with
  | Returned =>
      ∃ id_list evs,
        _read_ids_file ids fs = Some id_list
        ∧ printed r
          = engine (download_start (length id_list) out format)
            :: (engine <$> evs)
            ++ [downloaded (length (omap success_path evs)) out]
        ∧ omap event_id evs ≡ₚ id_list
        ∧ length evs = length id_list
        ∧ Forall is_outcome evs
  | _ => True
  end.
Proof.
  intros r. subst r. unfold fetch.
  destruct (_read_ids_file ids fs) as [id_list|] eqn:Hread; [|done].
  assert (Hclean : clean_ids id_list = id_list).
  { unfold _read_ids_file in Hread.
    destruct (fs !! ids) as [text|]; [|done]. injection Hread as <-.
    apply clean_ids_fixed. eapply Forall_impl; [apply read_ids_well_formed|].
    by intros i [? _]. }
  set (w := {| files := fs; events := []; requests := [] |}).
  destruct (download_entries_outcomes id_list out format None net w)
    as (evs & Hev & Hcall).
  unfold emitted in Hev. simpl in Hev.
  destruct (download_entries id_list out format None true net w)
    as [[paths|e] w']; simpl in *; [|done].
  destruct Hcall as (Hperm & Hlen & Hout & Hpaths).
  rewrite Hclean in Hperm, Hlen.
  exists id_list, evs. rewrite Hev, Hpaths. by split_and!.
Qed.

End CommandsFacts.
